(** * target-postgres: the stream tracker

    A shallow embedding of [target_postgres/stream_tracker.py], the tracker
    with the lag guard and the dormant-stream exclusion, with the properties
    of its checkpoint/watermark coordination proved about it.

    Python dictionaries are finite maps ([gmap]), Python sets are finite
    sets ([gset]), the [deque] is a list whose head is the left end, and
    Python integers are [Z].  A method is a function from the tracker to an
    outcome (a returned value or a raised exception) and the tracker it
    leaves behind: an exception does not undo the assignments made before
    it was raised. *)

From stdpp Require Import gmap strings list fin_maps sorting pretty.

Local Open Scope Z_scope.

(** ** What the tracker receives from outside

    [singer.statediff], [json] and the decoded JSON documents themselves are
    not part of the repository.  Of a decoded document the tracker uses its
    truth value ([if emittable_state:], [... or {}]), the subscript
    [line_data['value']], the length of its [statediff.diff] against another
    document and its [json.dumps] line, and it builds the empty dictionary. *)

(** What [v[key]] does: it finds an item, or raises [KeyError] (a
    dictionary without the key), or raises [TypeError] (a document that
    has no string subscripts: a list, a string, a number, [None]). *)
Inductive subscript (V : Type) :=
  | Found (v : V)
  | Missing
  | NotSubscriptable.
Arguments Found {V} v.
Arguments Missing {V}.
Arguments NotSubscriptable {V}.

Class PyObjects := {
  value : Type;
  (** [bool(v)] *)
  truthy : value → bool;
  (** [{}] *)
  empty_dict : value;
  (** [v[key]] *)
  getitem : value → string → subscript value;
  (** [len(statediff.diff(oldstate, newstate))]; [None] when
      [statediff.diff] raises [TypeError], which it does when it sorts the
      paths of two documents that cannot be ordered: a list index against
      a dictionary key *)
  statediff_diff_len : value → value → option nat;
  (** [json.dumps(v)] *)
  json_dumps : value → string;
}.

(** The buffered stream a schema message registers and the target that
    writes batches are collaborators: [buffer_full], [add_record_message],
    [flush_buffer] and [target.write_batch].  [add_record_message] returns
    [None] when it raises.  [write_batch] returns what the attempt made of
    the target, and whether it returned ([true]) or raised ([false]). *)

Class Collaborators `{PyObjects} := {
  buffered_stream : Type;
  target_t : Type;
  buffer_full : buffered_stream → bool;
  add_record_message : buffered_stream → value → option buffered_stream;
  flush_buffer : buffered_stream → buffered_stream;
  write_batch : target_t → buffered_stream → bool * target_t;
}.

(** ** The tracker *)

(** What a method can raise. *)
Inductive exn :=
  | TargetError (stream : string)
  | KeyError (key : string)
  | WriteBatchError
  | AddRecordError
  | TypeError.

Inductive outcome (A : Type) :=
  | Returned (a : A)
  | Raised (e : exn).
Arguments Returned {A} a.
Arguments Raised {A} e.

Section Tracker.
Context `{Collaborators}.

(** An element of [state_queue]: [{'state': ..., 'watermark': ...}]. *)
Record entry := Entry { state : value; watermark : Z }.

Record StreamTracker := {
  target : target_t;
  emit_states : bool;
  max_watermark_lag : Z;
  streams : gmap string buffered_stream;
  stream_add_watermarks : gmap string Z;
  stream_flush_watermarks : gmap string Z;
  streams_added_to : gset string;
  state_queue : list entry;
  message_counter : Z;
  last_emitted_state : option value;
  (** the lines written to [sys.stdout], oldest first *)
  stdout : list string;
}.

Definition M (A : Type) : Type := StreamTracker → outcome A * StreamTracker.

Definition ret {A} (a : A) : M A := λ st, (Returned a, st).
Definition raise {A} (e : exn) : M A := λ st, (Raised e, st).
Definition bind {A B} (m : M A) (k : A → M B) : M B :=
  λ st, match m st with
        | (Returned a, st') => k a st'
        | (Raised e, st') => (Raised e, st')
        end.
Definition get : M StreamTracker := λ st, (Returned st, st).
Definition modify (f : StreamTracker → StreamTracker) : M unit :=
  λ st, (Returned tt, f st).
Definition when (b : bool) (m : M unit) : M unit := if b then m else ret tt.

#[export] Instance M_ret : MRet M := @ret.
#[export] Instance M_bind : MBind M := λ A B k m, bind m k.

(** The state a method leaves behind, and how it ended. *)
Definition exec {A} (m : M A) (st : StreamTracker) : StreamTracker := (m st).2.
Definition result {A} (m : M A) (st : StreamTracker) : outcome A := (m st).1.

(** Field assignments. *)
Definition set_target v st :=
  {| target := v; emit_states := emit_states st;
     max_watermark_lag := max_watermark_lag st; streams := streams st;
     stream_add_watermarks := stream_add_watermarks st;
     stream_flush_watermarks := stream_flush_watermarks st;
     streams_added_to := streams_added_to st; state_queue := state_queue st;
     message_counter := message_counter st;
     last_emitted_state := last_emitted_state st; stdout := stdout st |}.
Definition set_streams v st :=
  {| target := target st; emit_states := emit_states st;
     max_watermark_lag := max_watermark_lag st; streams := v;
     stream_add_watermarks := stream_add_watermarks st;
     stream_flush_watermarks := stream_flush_watermarks st;
     streams_added_to := streams_added_to st; state_queue := state_queue st;
     message_counter := message_counter st;
     last_emitted_state := last_emitted_state st; stdout := stdout st |}.
Definition set_stream_add_watermarks v st :=
  {| target := target st; emit_states := emit_states st;
     max_watermark_lag := max_watermark_lag st; streams := streams st;
     stream_add_watermarks := v;
     stream_flush_watermarks := stream_flush_watermarks st;
     streams_added_to := streams_added_to st; state_queue := state_queue st;
     message_counter := message_counter st;
     last_emitted_state := last_emitted_state st; stdout := stdout st |}.
Definition set_stream_flush_watermarks v st :=
  {| target := target st; emit_states := emit_states st;
     max_watermark_lag := max_watermark_lag st; streams := streams st;
     stream_add_watermarks := stream_add_watermarks st;
     stream_flush_watermarks := v;
     streams_added_to := streams_added_to st; state_queue := state_queue st;
     message_counter := message_counter st;
     last_emitted_state := last_emitted_state st; stdout := stdout st |}.
Definition set_streams_added_to v st :=
  {| target := target st; emit_states := emit_states st;
     max_watermark_lag := max_watermark_lag st; streams := streams st;
     stream_add_watermarks := stream_add_watermarks st;
     stream_flush_watermarks := stream_flush_watermarks st;
     streams_added_to := v; state_queue := state_queue st;
     message_counter := message_counter st;
     last_emitted_state := last_emitted_state st; stdout := stdout st |}.
Definition set_state_queue v st :=
  {| target := target st; emit_states := emit_states st;
     max_watermark_lag := max_watermark_lag st; streams := streams st;
     stream_add_watermarks := stream_add_watermarks st;
     stream_flush_watermarks := stream_flush_watermarks st;
     streams_added_to := streams_added_to st; state_queue := v;
     message_counter := message_counter st;
     last_emitted_state := last_emitted_state st; stdout := stdout st |}.
Definition set_message_counter v st :=
  {| target := target st; emit_states := emit_states st;
     max_watermark_lag := max_watermark_lag st; streams := streams st;
     stream_add_watermarks := stream_add_watermarks st;
     stream_flush_watermarks := stream_flush_watermarks st;
     streams_added_to := streams_added_to st; state_queue := state_queue st;
     message_counter := v;
     last_emitted_state := last_emitted_state st; stdout := stdout st |}.
Definition set_last_emitted_state v st :=
  {| target := target st; emit_states := emit_states st;
     max_watermark_lag := max_watermark_lag st; streams := streams st;
     stream_add_watermarks := stream_add_watermarks st;
     stream_flush_watermarks := stream_flush_watermarks st;
     streams_added_to := streams_added_to st; state_queue := state_queue st;
     message_counter := message_counter st;
     last_emitted_state := v; stdout := stdout st |}.
Definition set_stdout v st :=
  {| target := target st; emit_states := emit_states st;
     max_watermark_lag := max_watermark_lag st; streams := streams st;
     stream_add_watermarks := stream_add_watermarks st;
     stream_flush_watermarks := stream_flush_watermarks st;
     streams_added_to := streams_added_to st; state_queue := state_queue st;
     message_counter := message_counter st;
     last_emitted_state := last_emitted_state st; stdout := v |}.

(** [StreamTracker.__init__] *)
Definition init (tgt : target_t) (emit : bool) (max_lag : Z) : StreamTracker :=
  {| target := tgt; emit_states := emit; max_watermark_lag := max_lag;
     streams := ∅; stream_add_watermarks := ∅; stream_flush_watermarks := ∅;
     streams_added_to := ∅; state_queue := []; message_counter := 0;
     last_emitted_state := None; stdout := [] |}.

(** [register_stream] *)
Definition register_stream (stream : string) (b : buffered_stream) : M unit :=
  modify (λ st, set_streams (<[stream := b]> (streams st)) st) ;;
  modify (λ st, set_stream_flush_watermarks
                  (<[stream := 0]> (stream_flush_watermarks st)) st).

(** [min(xs, default=d)] *)
Definition py_min (xs : list Z) (d : Z) : Z :=
  match xs with
  | [] => d
  | x :: xs' => foldl Z.min x xs'
  end.

(** [_safe_flush_threshold]: the loop appends the watermark of every item
    of [stream_flush_watermarks] whose stream is in [streams_added_to]. *)
Definition valid_flush_watermarks (st : StreamTracker) : list Z :=
  (filter (λ item, item.1 ∈ streams_added_to st)
          (map_to_list (stream_flush_watermarks st))).*2.

Definition _safe_flush_threshold (st : StreamTracker) : Z :=
  py_min (valid_flush_watermarks st) 0.

(** [_write_batch_and_update_watermarks] *)
Definition _write_batch_and_update_watermarks (stream : string) : M unit :=
  st ← get;
  match streams st !! stream with
  | None => raise (KeyError stream)
  | Some stream_buffer =>
      let attempt := write_batch (target st) stream_buffer in
      modify (set_target attempt.2) ;;
      if attempt.1 then
        modify (λ st, set_streams
                        (<[stream := flush_buffer stream_buffer]> (streams st)) st) ;;
        modify (λ st, set_stream_flush_watermarks
                        (<[stream := default 0 (stream_add_watermarks st !! stream)]>
                           (stream_flush_watermarks st)) st)
      else raise WriteBatchError
  end.

(** The [while] loop of [_emit_safe_queued_states]: [popleft] as long as
    the queue is not empty and [force] or the front watermark is at most
    the threshold; [emittable_state] is the last state popped. *)
Fixpoint pop_safe (force : bool) (safe_flush_threshold : Z)
    (queue : list entry) (emittable_state : option value)
    : option value * list entry :=
  match queue with
  | e :: queue' =>
      if force || bool_decide (watermark e ≤ safe_flush_threshold)
      then pop_safe force safe_flush_threshold queue' (Some (state e))
      else (emittable_state, queue)
  | [] => (emittable_state, queue)
  end.

(** [if x:] for an [x] that is [None] or a document. *)
Definition py_bool (x : option value) : bool :=
  match x with
  | Some v => truthy v
  | None => false
  end.

(** [x or {}] *)
Definition or_empty_dict (x : option value) : value :=
  match x with
  | Some v => if truthy v then v else empty_dict
  | None => empty_dict
  end.

(** [_emit_safe_queued_states].  A line of [stdout] is the text written
    before the newline.  The entries are popped before [statediff.diff] is
    called, so they stay popped when it raises. *)
Definition _emit_safe_queued_states (force : bool) : M unit :=
  st ← get;
  let safe_flush_threshold := _safe_flush_threshold st in
  let popped := pop_safe force safe_flush_threshold (state_queue st) None in
  modify (set_state_queue popped.2) ;;
  match popped.1 with
  | Some emittable_state =>
      if truthy emittable_state then
        st ← get;
        match statediff_diff_len emittable_state
                (or_empty_dict (last_emitted_state st)) with
        | None => raise TypeError
        | Some diff_len =>
            when (bool_decide (0 < diff_len)%nat)
                 (modify (λ st, set_stdout
                                  (stdout st ++ [json_dumps emittable_state]) st)) ;;
            modify (set_last_emitted_state (Some emittable_state))
        end
      else mret tt
  | None => mret tt
  end.

(** [flush_stream] *)
Definition flush_stream (stream : string) : M unit :=
  _write_batch_and_update_watermarks stream ;;
  _emit_safe_queued_states false.

(** [for x in xs: body(x)] *)
Fixpoint for_each (xs : list string) (body : string → M unit) : M unit :=
  match xs with
  | [] => mret tt
  | x :: xs' => body x ;; for_each xs' body
  end.

(** The order in which a [for] loop visits a Python set is not fixed by its
    contents.  [iter_set order X] lists [X] once: first the members that
    [order] names, in the order of [order], then the others.  Every
    enumeration of [X] is [iter_set order X] for some [order] (namely for
    itself). *)
Definition iter_set (order : list string) (X : gset string) : list string :=
  filter (λ x, x ∈ X) (remove_dups order)
    ++ filter (λ x, x ∉ order) (elements X).

(** [flush_streams_if_required]: the set the first loop builds, and the
    test of the lag guard. *)
Definition full_or_forced (force : bool) (st : StreamTracker) : gset string :=
  dom (filter (λ item, force || buffer_full item.2) (streams st)).

Definition lag_guard (st : StreamTracker) : bool :=
  bool_decide (0 < length (state_queue st))%nat
  && bool_decide (message_counter st - _safe_flush_threshold st
                  > max_watermark_lag st).

(** [streams_to_flush] and [force] as the lag guard leaves them. *)
Definition streams_to_flush (force : bool) (st : StreamTracker) : gset string :=
  if lag_guard st then full_or_forced force st ∪ dom (streams st)
  else full_or_forced force st.

Definition force_after_guard (force : bool) (st : StreamTracker) : bool :=
  if lag_guard st then true else force.

Definition flush_streams_if_required (force : bool) (order : list string)
    : M unit :=
  st ← get;
  for_each (iter_set order (streams_to_flush force st))
           _write_batch_and_update_watermarks ;;
  _emit_safe_queued_states (force_after_guard force st).

(** [handle_state_message], and its first statement on its own. *)
Definition append_state (line_data : value) : M unit :=
  match getitem line_data "value" with
  | Missing => raise (KeyError "value")
  | NotSubscriptable => raise TypeError
  | Found v =>
      modify (λ st, set_state_queue
                      (state_queue st ++ [Entry v (message_counter st)]) st)
  end.

Definition handle_state_message (line_data : value) : M unit :=
  st ← get;
  when (emit_states st)
       (append_state line_data ;; _emit_safe_queued_states false).

(** [handle_record_message]; [self.streams[stream]] in the last statement
    finds the buffer the membership test found. *)
Definition handle_record_message (stream : string) (line_data : value)
    : M unit :=
  st ← get;
  match streams st !! stream with
  | None => raise (TargetError stream)
  | Some stream_buffer =>
      modify (λ st, set_message_counter (message_counter st + 1) st) ;;
      modify (λ st, set_streams_added_to ({[stream]} ∪ streams_added_to st) st) ;;
      modify (λ st, set_stream_add_watermarks
                      (<[stream := message_counter st]> (stream_add_watermarks st)) st) ;;
      match add_record_message stream_buffer line_data with
      | None => raise AddRecordError
      | Some stream_buffer' =>
          modify (λ st, set_streams (<[stream := stream_buffer']> (streams st)) st)
      end
  end.

(** ** Runs

    A run is a list of calls made on the tracker one after the other.  The
    calls are the five public methods, the two private ones, and the
    [append] of [handle_state_message], so that the state in which a method
    calls [_emit_safe_queued_states] is itself the end of a run. *)
Inductive call :=
  | RegisterStream (stream : string) (b : buffered_stream)
  | FlushStream (stream : string)
  | FlushStreamsIfRequired (force : bool) (order : list string)
  | HandleStateMessage (line_data : value)
  | HandleRecordMessage (stream : string) (line_data : value)
  | WriteBatchAndUpdateWatermarks (stream : string)
  | EmitSafeQueuedStates (force : bool)
  | AppendState (line_data : value).

Definition perform (c : call) : M unit :=
  match c with
  | RegisterStream stream b => register_stream stream b
  | FlushStream stream => flush_stream stream
  | FlushStreamsIfRequired force order => flush_streams_if_required force order
  | HandleStateMessage line_data => handle_state_message line_data
  | HandleRecordMessage stream line_data => handle_record_message stream line_data
  | WriteBatchAndUpdateWatermarks stream => _write_batch_and_update_watermarks stream
  | EmitSafeQueuedStates force => _emit_safe_queued_states force
  | AppendState line_data => append_state line_data
  end.

Fixpoint run (calls : list call) (st : StreamTracker) : StreamTracker :=
  match calls with
  | [] => st
  | c :: calls' => run calls' (exec (perform c) st)
  end.

(** The records a run accepts: each one with its stream and the value the
    message counter took for it. *)
Definition accepted (c : call) (st : StreamTracker) : list (string * Z) :=
  match c with
  | HandleRecordMessage stream _ =>
      if bool_decide (stream ∈ dom (streams st))
      then [(stream, message_counter st + 1)] else []
  | _ => []
  end.

Fixpoint records (calls : list call) (st : StreamTracker) : list (string * Z) :=
  match calls with
  | [] => []
  | c :: calls' => accepted c st ++ records calls' (exec (perform c) st)
  end.

(** The entries one pass of [_emit_safe_queued_states] takes off the queue. *)
Definition popped_entries (force : bool) (st : StreamTracker) : list entry :=
  take (length (state_queue st)
        - length (state_queue (exec (_emit_safe_queued_states force) st)))%nat
       (state_queue st).

(** ** Vocabulary of the properties *)

(** An entry the loop of [_emit_safe_queued_states] may pop. *)
Definition safe (force : bool) (threshold : Z) (e : entry) : Prop :=
  force = true ∨ watermark e ≤ threshold.

(** The queue lists its entries by ascending watermark. *)
Definition queue_sorted (queue : list entry) : Prop :=
  StronglySorted (λ a b, watermark a ≤ watermark b) queue.

(** The streams a schema message registered and a record arrived for. *)
Definition active (st : StreamTracker) : gset string :=
  dom (streams st) ∩ streams_added_to st.

(** [stream_add_watermarks.get(stream, 0)] *)
Definition add_watermark (st : StreamTracker) (stream : string) : Z :=
  default 0 (stream_add_watermarks st !! stream).

(** What every run keeps true of the tracker. *)
Record consistent (st : StreamTracker) : Prop := {
  flush_dom : dom (stream_flush_watermarks st) = dom (streams st);
  added_registered : streams_added_to st ⊆ dom (streams st);
  counter_nonneg : 0 ≤ message_counter st;
  add_bounds : ∀ s a,
    stream_add_watermarks st !! s = Some a → 0 ≤ a ≤ message_counter st;
  flush_le_add : ∀ s f,
    stream_flush_watermarks st !! s = Some f → f ≤ add_watermark st s;
  queue_bounded : Forall (λ e, watermark e ≤ message_counter st) (state_queue st);
  queue_ascending : queue_sorted (state_queue st);
}.

(** [st'] has the streams of [st], marked as having records or not as in
    [st], and no flush watermark below the one of [st]. *)
Record advanced (st st' : StreamTracker) : Prop := {
  adv_added : streams_added_to st' = streams_added_to st;
  adv_dom : dom (stream_flush_watermarks st') = dom (stream_flush_watermarks st);
  adv_flush : ∀ s f f',
    stream_flush_watermarks st !! s = Some f →
    stream_flush_watermarks st' !! s = Some f' → f ≤ f';
}.

(** The calls a method body is made of: every method is a sequence of
    these. *)
Definition primitive (c : call) : bool :=
  match c with
  | RegisterStream _ _ | HandleRecordMessage _ _
  | WriteBatchAndUpdateWatermarks _ | EmitSafeQueuedStates _
  | AppendState _ => true
  | _ => false
  end.

Definition registers (c : call) : bool :=
  match c with
  | RegisterStream _ _ => true
  | _ => false
  end.

(** [c'] may occur in the sequence a call [c] is made of. *)
Definition part_of (c c' : call) : Prop :=
  primitive c' = true ∧ (registers c' = true → registers c = true).

(** The calls that add a record or flush. *)
Definition record_or_flush (c : call) : bool :=
  match c with
  | HandleRecordMessage _ _ | WriteBatchAndUpdateWatermarks _
  | FlushStream _ | FlushStreamsIfRequired _ _ => true
  | _ => false
  end.

End Tracker.

(** ** More vocabulary: what a run was given, and what a call is made of *)

Section Histories.
Context `{Collaborators}.

(** The five methods a caller of the tracker uses. *)
Definition public (c : call) : bool :=
  match c with
  | RegisterStream _ _ | FlushStream _ | FlushStreamsIfRequired _ _
  | HandleStateMessage _ | HandleRecordMessage _ _ => true
  | _ => false
  end.

(** The state a call presents to the tracker, if it presents one. *)
Definition presented (c : call) : list value :=
  match c with
  | HandleStateMessage line_data | AppendState line_data =>
      match getitem line_data "value" with
      | Found v => [v]
      | _ => []
      end
  | _ => []
  end.

Definition state_values (calls : list call) : list value :=
  calls ≫= presented.

(** The lines written so far, followed by the lines of the states still
    queued. *)
Definition written_or_queued (st : StreamTracker) : list string :=
  stdout st ++ ((λ e, json_dumps (state e)) <$> state_queue st).

(** The primitive calls the body of [c] can make. *)
Definition made_of (c c' : call) : Prop :=
  match c with
  | FlushStream stream =>
      c' = WriteBatchAndUpdateWatermarks stream
      ∨ c' = EmitSafeQueuedStates false
  | FlushStreamsIfRequired force order =>
      (∃ stream, c' = WriteBatchAndUpdateWatermarks stream)
      ∨ (∃ force', c' = EmitSafeQueuedStates force')
  | HandleStateMessage line_data =>
      c' = AppendState line_data ∨ c' = EmitSafeQueuedStates false
  | _ => c' = c
  end.

(** [st'] has the counter, the add watermarks and the streams with records
    of [st]. *)
Definition same_ledger : relation StreamTracker := λ st st',
  message_counter st' = message_counter st
  ∧ stream_add_watermarks st' = stream_add_watermarks st
  ∧ streams_added_to st' = streams_added_to st.

(** No flush watermark and no queued watermark is negative. *)
Definition nonneg (st : StreamTracker) : Prop :=
  (∀ s f, stream_flush_watermarks st !! s = Some f → 0 ≤ f)
  ∧ Forall (λ e, 0 ≤ watermark e) (state_queue st).

(** Nothing queued, nothing written, nothing emitted, and states off. *)
Definition silent (st : StreamTracker) : Prop :=
  emit_states st = false ∧ state_queue st = [] ∧ stdout st = []
  ∧ last_emitted_state st = None.

(** [st'] still has the streams and the output of [st]. *)
Definition keeps (st st' : StreamTracker) : Prop :=
  dom (streams st) ⊆ dom (streams st')
  ∧ stdout st `prefix_of` stdout st'.

(** The call is [handle_record_message]. *)
Definition adds_record (c : call) : bool :=
  match c with
  | HandleRecordMessage _ _ => true
  | _ => false
  end.

(** The counter values of the records of one stream, oldest first. *)
Definition records_of (stream : string) (log : list (string * Z)) : list Z :=
  (filter (λ r, r.1 = stream) log).*2.

End Histories.

(** ** The older tracker, [target_postgres/state_tracker.py]

    It has no lag guard and no set of streams that received records.  Its
    [streams] dictionary is visited by [flush_streams] in insertion order,
    so it is a list of items here; an element of its queue is the tuple
    [(state, message_counter)], written as an [entry]. *)

(** [d[key] = v] on a dictionary kept in insertion order. *)
Fixpoint od_set {B} (key : string) (v : B) (d : list (string * B))
    : list (string * B) :=
  match d with
  | [] => [(key, v)]
  | (k, x) :: d' =>
      if decide (k = key) then (key, v) :: d' else (k, x) :: od_set key v d'
  end.

(** [d.get(key)] *)
Fixpoint od_get {B} (key : string) (d : list (string * B)) : option B :=
  match d with
  | [] => None
  | (k, x) :: d' => if decide (k = key) then Some x else od_get key d'
  end.

Module StateTracker.
Section Tracker.
Context `{Collaborators}.

Record StreamTracker := {
  target : target_t;
  emit_states : bool;
  streams : list (string * buffered_stream);
  stream_add_watermarks : gmap string Z;
  stream_flush_watermarks : gmap string Z;
  state_queue : list entry;
  message_counter : Z;
  last_emitted_state : option value;
  stdout : list string;
}.

Definition M (A : Type) : Type := StreamTracker → outcome A * StreamTracker.

Definition ret {A} (a : A) : M A := λ st, (Returned a, st).
Definition raise {A} (e : exn) : M A := λ st, (Raised e, st).
Definition bind {A B} (m : M A) (k : A → M B) : M B :=
  λ st, match m st with
        | (Returned a, st') => k a st'
        | (Raised e, st') => (Raised e, st')
        end.
Definition get : M StreamTracker := λ st, (Returned st, st).
Definition modify (f : StreamTracker → StreamTracker) : M unit :=
  λ st, (Returned tt, f st).
Definition when (b : bool) (m : M unit) : M unit := if b then m else ret tt.

#[export] Instance M_ret : MRet M := @ret.
#[export] Instance M_bind : MBind M := λ A B k m, bind m k.

Definition exec {A} (m : M A) (st : StreamTracker) : StreamTracker := (m st).2.
Definition result {A} (m : M A) (st : StreamTracker) : outcome A := (m st).1.

Definition set_target v st :=
  {| target := v; emit_states := emit_states st; streams := streams st;
     stream_add_watermarks := stream_add_watermarks st;
     stream_flush_watermarks := stream_flush_watermarks st;
     state_queue := state_queue st; message_counter := message_counter st;
     last_emitted_state := last_emitted_state st; stdout := stdout st |}.
Definition set_streams v st :=
  {| target := target st; emit_states := emit_states st; streams := v;
     stream_add_watermarks := stream_add_watermarks st;
     stream_flush_watermarks := stream_flush_watermarks st;
     state_queue := state_queue st; message_counter := message_counter st;
     last_emitted_state := last_emitted_state st; stdout := stdout st |}.
Definition set_stream_add_watermarks v st :=
  {| target := target st; emit_states := emit_states st; streams := streams st;
     stream_add_watermarks := v;
     stream_flush_watermarks := stream_flush_watermarks st;
     state_queue := state_queue st; message_counter := message_counter st;
     last_emitted_state := last_emitted_state st; stdout := stdout st |}.
Definition set_stream_flush_watermarks v st :=
  {| target := target st; emit_states := emit_states st; streams := streams st;
     stream_add_watermarks := stream_add_watermarks st;
     stream_flush_watermarks := v;
     state_queue := state_queue st; message_counter := message_counter st;
     last_emitted_state := last_emitted_state st; stdout := stdout st |}.
Definition set_state_queue v st :=
  {| target := target st; emit_states := emit_states st; streams := streams st;
     stream_add_watermarks := stream_add_watermarks st;
     stream_flush_watermarks := stream_flush_watermarks st;
     state_queue := v; message_counter := message_counter st;
     last_emitted_state := last_emitted_state st; stdout := stdout st |}.
Definition set_message_counter v st :=
  {| target := target st; emit_states := emit_states st; streams := streams st;
     stream_add_watermarks := stream_add_watermarks st;
     stream_flush_watermarks := stream_flush_watermarks st;
     state_queue := state_queue st; message_counter := v;
     last_emitted_state := last_emitted_state st; stdout := stdout st |}.
Definition set_last_emitted_state v st :=
  {| target := target st; emit_states := emit_states st; streams := streams st;
     stream_add_watermarks := stream_add_watermarks st;
     stream_flush_watermarks := stream_flush_watermarks st;
     state_queue := state_queue st; message_counter := message_counter st;
     last_emitted_state := v; stdout := stdout st |}.
Definition set_stdout v st :=
  {| target := target st; emit_states := emit_states st; streams := streams st;
     stream_add_watermarks := stream_add_watermarks st;
     stream_flush_watermarks := stream_flush_watermarks st;
     state_queue := state_queue st; message_counter := message_counter st;
     last_emitted_state := last_emitted_state st; stdout := v |}.

(** [StreamTracker.__init__] *)
Definition init (tgt : target_t) (emit : bool) : StreamTracker :=
  {| target := tgt; emit_states := emit; streams := [];
     stream_add_watermarks := ∅; stream_flush_watermarks := ∅;
     state_queue := []; message_counter := 0;
     last_emitted_state := None; stdout := [] |}.

(** [register_stream] *)
Definition register_stream (stream : string) (b : buffered_stream) : M unit :=
  modify (λ st, set_streams (od_set stream b (streams st)) st) ;;
  modify (λ st, set_stream_add_watermarks
                  (<[stream := 0]> (stream_add_watermarks st)) st) ;;
  modify (λ st, set_stream_flush_watermarks
                  (<[stream := 0]> (stream_flush_watermarks st)) st).

(** [min(self.stream_flush_watermarks.values(), default=0)] *)
Definition all_flushed_watermark (st : StreamTracker) : Z :=
  py_min (map_to_list (stream_flush_watermarks st)).*2 0.

(** [_emit_safe_queued_states] *)
Definition _emit_safe_queued_states (force : bool) : M unit :=
  st ← get;
  let popped := pop_safe force (all_flushed_watermark st) (state_queue st) None in
  modify (set_state_queue popped.2) ;;
  match popped.1 with
  | Some emittable_state =>
      if truthy emittable_state then
        st ← get;
        match statediff_diff_len emittable_state
                (or_empty_dict (last_emitted_state st)) with
        | None => raise TypeError
        | Some diff_len =>
            when (bool_decide (0 < diff_len)%nat)
                 (modify (λ st, set_stdout
                                  (stdout st ++ [json_dumps emittable_state]) st)) ;;
            modify (set_last_emitted_state (Some emittable_state))
        end
      else mret tt
  | None => mret tt
  end.

(** The body of the loop of [flush_streams], for one item. *)
Definition flush_item (force : bool) (stream : string)
    (stream_buffer : buffered_stream) : M unit :=
  if force || buffer_full stream_buffer then
    st ← get;
    let attempt := write_batch (target st) stream_buffer in
    modify (set_target attempt.2) ;;
    if attempt.1 then
      modify (λ st, set_streams
                      (od_set stream (flush_buffer stream_buffer) (streams st)) st) ;;
      st ← get;
      match stream_add_watermarks st !! stream with
      | None => raise (KeyError stream)
      | Some a =>
          modify (λ st, set_stream_flush_watermarks
                          (<[stream := a]> (stream_flush_watermarks st)) st)
      end
    else raise WriteBatchError
  else mret tt.

Fixpoint flush_items (force : bool) (items : list (string * buffered_stream))
    : M unit :=
  match items with
  | [] => mret tt
  | (stream, stream_buffer) :: items' =>
      flush_item force stream stream_buffer ;; flush_items force items'
  end.

(** [flush_streams] *)
Definition flush_streams (force : bool) : M unit :=
  st ← get;
  flush_items force (streams st) ;;
  _emit_safe_queued_states force.

(** [handle_state_message] *)
Definition handle_state_message (v : value) : M unit :=
  st ← get;
  when (emit_states st)
       (modify (λ st, set_state_queue
                        (state_queue st ++ [Entry v (message_counter st)]) st) ;;
        _emit_safe_queued_states false).

(** [handle_record_message] *)
Definition handle_record_message (stream : string) (line_data : value)
    : M unit :=
  st ← get;
  match od_get stream (streams st) with
  | None => raise (TargetError stream)
  | Some stream_buffer =>
      modify (λ st, set_message_counter (message_counter st + 1) st) ;;
      modify (λ st, set_stream_add_watermarks
                      (<[stream := message_counter st]> (stream_add_watermarks st)) st) ;;
      match add_record_message stream_buffer line_data with
      | None => raise AddRecordError
      | Some stream_buffer' =>
          modify (λ st, set_streams (od_set stream stream_buffer' (streams st)) st)
      end
  end.

(** The loop of [flush_streams] and the [append] of
    [handle_state_message], on their own. *)
Definition flush_loop (force : bool) : M unit :=
  st ← get; flush_items force (streams st).

Definition append_state (v : value) : M unit :=
  modify (λ st, set_state_queue
                  (state_queue st ++ [Entry v (message_counter st)]) st).

(** The calls of a run: the public methods, [_emit_safe_queued_states],
    and the two parts above, so that the state in which a method calls
    [_emit_safe_queued_states] is itself the end of a run. *)
Inductive call :=
  | RegisterStream (stream : string) (b : buffered_stream)
  | FlushStreams (force : bool)
  | HandleStateMessage (v : value)
  | HandleRecordMessage (stream : string) (line_data : value)
  | EmitSafeQueuedStates (force : bool)
  | FlushLoop (force : bool)
  | AppendState (v : value).

Definition perform (c : call) : M unit :=
  match c with
  | RegisterStream stream b => register_stream stream b
  | FlushStreams force => flush_streams force
  | HandleStateMessage v => handle_state_message v
  | HandleRecordMessage stream line_data => handle_record_message stream line_data
  | EmitSafeQueuedStates force => _emit_safe_queued_states force
  | FlushLoop force => flush_loop force
  | AppendState v => append_state v
  end.

Fixpoint run (calls : list call) (st : StreamTracker) : StreamTracker :=
  match calls with
  | [] => st
  | c :: calls' => run calls' (exec (perform c) st)
  end.

(** The records a run accepts, each with its stream and counter value. *)
Definition accepted (c : call) (st : StreamTracker) : list (string * Z) :=
  match c with
  | HandleRecordMessage stream _ =>
      match od_get stream (streams st) with
      | Some _ => [(stream, message_counter st + 1)]
      | None => []
      end
  | _ => []
  end.

Fixpoint records (calls : list call) (st : StreamTracker) : list (string * Z) :=
  match calls with
  | [] => []
  | c :: calls' => accepted c st ++ records calls' (exec (perform c) st)
  end.

(** What every run keeps true of the older tracker. *)
Record consistent (st : StreamTracker) : Prop := {
  keys_unique : NoDup (streams st).*1;
  add_dom : ∀ s, s ∈ dom (stream_add_watermarks st) ↔ s ∈ (streams st).*1;
  flush_dom : ∀ s, s ∈ dom (stream_flush_watermarks st) ↔ s ∈ (streams st).*1;
  counter_nonneg : 0 ≤ message_counter st;
  add_bounds : ∀ s a,
    stream_add_watermarks st !! s = Some a → 0 ≤ a ≤ message_counter st;
  flush_bounds : ∀ s f,
    stream_flush_watermarks st !! s = Some f →
    ∃ a, stream_add_watermarks st !! s = Some a ∧ 0 ≤ f ≤ a;
  queue_bounded : Forall (λ e, watermark e ≤ message_counter st) (state_queue st);
  queue_ascending : queue_sorted (state_queue st);
}.

End Tracker.
End StateTracker.

(** ** An instance to run the tracker on

    Documents are JSON trees with integer numbers.  The diff counts the leaf
    paths at which two documents differ, the way [singer.statediff] lists
    them.  The buffered stream counts its rows against [max_rows]; the
    target is the one of [tests/test_target_tools.py], which records the
    row count of every batch it is given, here together with whether it
    wrote the batch: it refuses a buffer marked [broken]. *)
Module Example.

#[local] Unset Elimination Schemes.
Inductive json :=
  | JNull
  | JBool (b : bool)
  | JNum (n : Z)
  | JStr (s : string)
  | JList (items : list json)
  | JDict (items : list (string * json)).

Definition json_truthy (j : json) : bool :=
  match j with
  | JNull => false
  | JBool b => b
  | JNum n => negb (n =? 0)
  | JStr s => negb (String.eqb s EmptyString)
  | JList items => negb (bool_decide (length items = 0%nat))
  | JDict items => negb (bool_decide (length items = 0%nat))
  end.

Fixpoint assoc (key : string) (items : list (string * json)) : option json :=
  match items with
  | [] => None
  | (k, v) :: items' => if String.eqb k key then Some v else assoc key items'
  end.

Definition json_getitem (j : json) (key : string) : subscript json :=
  match j with
  | JDict items =>
      match assoc key items with
      | Some v => Found v
      | None => Missing
      end
  | _ => NotSubscriptable
  end.

#[local] Set Elimination Schemes.

(** A step of a path: a dictionary key or a list index. *)
Inductive step := Key (k : string) | Index (i : nat).

Inductive leaf := LNull | LInt (n : Z) | LStr (s : string).

Definition leaf_eqb (a b : leaf) : bool :=
  match a, b with
  | LNull, LNull => true
  | LInt n, LInt m => n =? m
  | LStr s, LStr t => String.eqb s t
  | _, _ => false
  end.

Definition step_eqb (a b : step) : bool :=
  match a, b with
  | Key k, Key l => String.eqb k l
  | Index i, Index j => Nat.eqb i j
  | _, _ => false
  end.

Fixpoint path_eqb (p q : list step) : bool :=
  match p, q with
  | [], [] => true
  | a :: p', b :: q' => step_eqb a b && path_eqb p' q'
  | _, _ => false
  end.

(** [statediff.paths]: the leaves of a document with the paths to them;
    a document that is itself a leaf has none. *)
Definition leaf_at (base : list step) (x : leaf) : list (list step * leaf) :=
  match base with
  | [] => []
  | _ => [(base, x)]
  end.

Fixpoint paths (base : list step) (j : json) : list (list step * leaf) :=
  match j with
  | JNull => leaf_at base LNull
  | JBool b => leaf_at base (LInt (if b then 1 else 0))
  | JNum n => leaf_at base (LInt n)
  | JStr s => leaf_at base (LStr s)
  | JList items =>
      (fix go (i : nat) (items : list json) :=
         match items with
         | [] => []
         | v :: items' => paths (base ++ [Index i]) v ++ go (S i) items'
         end) 0%nat items
  | JDict items =>
      (fix go (items : list (string * json)) :=
         match items with
         | [] => []
         | (k, v) :: items' => paths (base ++ [Key k]) v ++ go items'
         end) items
  end.

Fixpoint path_lookup (p : list step) (d : list (list step * leaf)) : option leaf :=
  match d with
  | [] => None
  | (q, x) :: d' => if path_eqb p q then Some x else path_lookup p d'
  end.

Definition same_at (p : list step) (a b : list (list step * leaf)) : bool :=
  match path_lookup p a, path_lookup p b with
  | Some x, Some y => leaf_eqb x y
  | _, _ => false
  end.

Fixpoint dedup_paths (ps : list (list step)) : list (list step) :=
  match ps with
  | [] => []
  | p :: ps' =>
      if existsb (path_eqb p) ps' then dedup_paths ps' else p :: dedup_paths ps'
  end.

(** Two tuples can be compared unless they first differ where one has a
    list index and the other a dictionary key. *)
Fixpoint orderable (p q : list step) : bool :=
  match p, q with
  | Key k :: p', Key l :: q' => if String.eqb k l then orderable p' q' else true
  | Index i :: p', Index j :: q' => if Nat.eqb i j then orderable p' q' else true
  | Key _ :: _, Index _ :: _ | Index _ :: _, Key _ :: _ => false
  | _, _ => true
  end.

(** [len(statediff.diff(oldstate, newstate))].  [sorted(all_paths)] is
    taken to raise when two of the paths cannot be compared; sorting two
    paths compares them. *)
Definition json_diff_len (oldstate newstate : json) : option nat :=
  let olddict := paths [] oldstate in
  let newdict := paths [] newstate in
  let all_paths := dedup_paths (olddict.*1 ++ newdict.*1) in
  if forallb (λ p, forallb (orderable p) all_paths) all_paths
  then Some (length (filter (λ p, negb (same_at p olddict newdict)) all_paths))
  else None.

Definition quote : string := String (Ascii.ascii_of_nat 34) EmptyString.
Definition backslash : string := String (Ascii.ascii_of_nat 92) EmptyString.

Definition hex_digit (n : nat) : string :=
  String (Ascii.ascii_of_nat (if (n <? 10)%nat then 48 + n else 87 + n))
         EmptyString.

(** The replacement of a character by [json.dumps], which keeps the
    characters from the space to the tilde but for the quote and the
    backslash; a character is a code point below 256. *)
Definition escape (c : Ascii.ascii) : string :=
  let n := Ascii.nat_of_ascii c in
  if (n =? 34)%nat then backslash +:+ quote
  else if (n =? 92)%nat then backslash +:+ backslash
  else if (n =? 10)%nat then backslash +:+ "n"
  else if (n =? 13)%nat then backslash +:+ "r"
  else if (n =? 9)%nat then backslash +:+ "t"
  else if (n =? 8)%nat then backslash +:+ "b"
  else if (n =? 12)%nat then backslash +:+ "f"
  else if ((32 <=? n) && (n <=? 126))%nat then String c EmptyString
  else backslash +:+ "u00" +:+ hex_digit (n / 16) +:+ hex_digit (n mod 16).

Fixpoint escaped (s : string) : string :=
  match s with
  | EmptyString => EmptyString
  | String c s' => escape c +:+ escaped s'
  end.

Definition quoted (s : string) : string := quote +:+ escaped s +:+ quote.

(** [json.dumps] with its default separators. *)
Fixpoint json_text (j : json) : string :=
  match j with
  | JNull => "null"
  | JBool b => if b then "true" else "false"
  | JNum n => pretty n
  | JStr s => quoted s
  | JList items =>
      "[" +:+ (fix go (items : list json) :=
                 match items with
                 | [] => EmptyString
                 | [v] => json_text v
                 | v :: items' => json_text v +:+ ", " +:+ go items'
                 end) items +:+ "]"
  | JDict items =>
      "{" +:+ (fix go (items : list (string * json)) :=
                 match items with
                 | [] => EmptyString
                 | [(k, v)] => quoted k +:+ ": " +:+ json_text v
                 | (k, v) :: items' =>
                     quoted k +:+ ": " +:+ json_text v +:+ ", " +:+ go items'
                 end) items +:+ "}"
  end.

#[export] Instance json_objects : PyObjects := {|
  value := json;
  truthy := json_truthy;
  empty_dict := JDict [];
  getitem := json_getitem;
  statediff_diff_len := json_diff_len;
  json_dumps := json_text;
|}.

Record buffer := Buffer { rows : list json; max_rows : nat; broken : bool }.

#[export] Instance doubles : Collaborators := {|
  buffered_stream := buffer;
  target_t := list (nat * bool);
  buffer_full := λ b, bool_decide (max_rows b ≤ length (rows b))%nat;
  add_record_message := λ b r,
    Some (Buffer (rows b ++ [r]) (max_rows b) (broken b));
  flush_buffer := λ b, Buffer [] (max_rows b) (broken b);
  write_batch := λ tgt b,
    (negb (broken b), tgt ++ [(length (rows b), negb (broken b))]);
|}.

Definition no_batches : target_t := ([] : list (nat * bool)).

Definition tracker0 (max_lag : Z) : StreamTracker :=
  init no_batches true max_lag.

Definition state_message (v : json) : json :=
  JDict [("type", JStr "STATE"); ("value", v)].

Definition record_message (stream : string) (n : Z) : json :=
  JDict [("type", JStr "RECORD"); ("stream", JStr stream);
         ("record", JDict [("id", JNum n)])].

(** The runs the properties are tried on. *)
Definition state_1 : json := JDict [("test", JStr "state-1")].
Definition state_2 : json := JDict [("test", JStr "state-2")].
Definition state_3 : json := JDict [("test", JStr "state-3")].
Definition roomy : buffer := Buffer [] 20 false.
Definition refused : buffer := Buffer [] 20 true.

Definition record_call (stream : string) (n : Z) : call :=
  HandleRecordMessage stream (record_message stream n).

(** Two records, a state, and the flush that makes it safe. *)
Definition covered_run : list call :=
  [RegisterStream "cats" roomy; record_call "cats" 1; record_call "cats" 2;
   AppendState (state_message state_1);
   WriteBatchAndUpdateWatermarks "cats"].

(** Three streams, one of them never fed. *)
Definition three_streams_run : list call :=
  [RegisterStream "cats" roomy; RegisterStream "dogs" roomy;
   RegisterStream "birds" roomy;
   record_call "cats" 1; record_call "dogs" 2; record_call "cats" 3;
   WriteBatchAndUpdateWatermarks "cats"; WriteBatchAndUpdateWatermarks "dogs"].

Definition two_streams : list call :=
  [RegisterStream "cats" roomy; RegisterStream "dogs" roomy].

(** Three states that one flush makes safe together. *)
Definition three_states_run : list call :=
  [RegisterStream "cats" roomy;
   record_call "cats" 1; AppendState (state_message state_1);
   record_call "cats" 2; AppendState (state_message state_2);
   record_call "cats" 3; AppendState (state_message state_3);
   WriteBatchAndUpdateWatermarks "cats"].

(** A state emitted, and the same state queued again. *)
Definition repeated_state_run : list call :=
  [HandleStateMessage (state_message state_1);
   AppendState (state_message state_1)].

(** A state emitted, and the empty state queued after it. *)
Definition empty_state_run : list call :=
  [HandleStateMessage (state_message state_1);
   AppendState (state_message (JDict []))].

(** A state with a list emitted, and a state with a dictionary in the
    place of the list queued after it: the paths [('a', 0)] and
    [('a', 'b')] cannot be sorted. *)
Definition state_list : json := JDict [("a", JList [JNum 1])].
Definition state_dict : json := JDict [("a", JDict [("b", JNum 1)])].

Definition unsortable_run : list call :=
  [HandleStateMessage (state_message state_list);
   AppendState (state_message state_dict)].

(** A true state without a leaf, queued on a new tracker. *)
Definition state_hollow : json := JDict [("a", JDict [])].

Definition hollow_run : list call :=
  [AppendState (state_message state_hollow)].

(** A first state queued on a new tracker. *)
Definition first_state_run : list call :=
  [AppendState (state_message state_1)].

(** A stream flushed after its two records. *)
Definition flushed_run : list call :=
  [RegisterStream "cats" roomy; record_call "cats" 1; record_call "cats" 2;
   WriteBatchAndUpdateWatermarks "cats"].

(** One record, no state, and a lag limit of 0. *)
Definition lagging_without_state : StreamTracker :=
  run [RegisterStream "cats" roomy; record_call "cats" 1] (tracker0 0).

(** Three records, a state, and a lag limit of 1. *)
Definition lagging_with_state : StreamTracker :=
  run (two_streams ++ [record_call "cats" 1; record_call "cats" 2;
                       record_call "dogs" 3;
                       AppendState (state_message state_1)]) (tracker0 1).

(** The target refuses the batch of [dogs]. *)
Definition refusing : StreamTracker :=
  run [RegisterStream "cats" roomy; RegisterStream "dogs" refused;
       record_call "cats" 1; record_call "dogs" 2;
       AppendState (state_message state_1)] (tracker0 1000000).

End Example.

(** More runs, of both trackers. *)
Module Scenarios.
Import Example.

(** A state queued after a record of each of two streams. *)
Definition stalled_run : list call :=
  two_streams ++ [record_call "cats" 1; record_call "dogs" 2;
                  AppendState (state_message state_1)].

(** The public methods, on a tracker with states off. *)
Definition silent_run : list call :=
  [RegisterStream "cats" roomy; record_call "cats" 1;
   HandleStateMessage (state_message state_1); FlushStream "cats";
   HandleStateMessage (state_message state_2);
   FlushStreamsIfRequired true []].

(** A buffer that one record fills. *)
Definition tiny : buffer := Buffer [] 1 false.

(** A state with a list was emitted, and a state with a dictionary in its
    place waits behind a record. *)
Definition unsortable_pending : StreamTracker :=
  run [RegisterStream "cats" roomy;
       HandleStateMessage (state_message state_list);
       record_call "cats" 1;
       AppendState (state_message state_dict)] (tracker0 1000000).

(** A state with a list was emitted and nothing else happened. *)
Definition list_emitted_run : list call :=
  [HandleStateMessage (state_message state_list)].

(** [dogs] has a full buffer, [cats] has not, and no state is queued. *)
Definition one_full : StreamTracker :=
  run [RegisterStream "cats" roomy; RegisterStream "dogs" tiny;
       record_call "cats" 1; record_call "dogs" 2] (tracker0 1000000).

Definition older0 : StateTracker.StreamTracker :=
  StateTracker.init no_batches true.

Definition older_record (stream : string) (n : Z) : StateTracker.call :=
  StateTracker.HandleRecordMessage stream (record_message stream n).

(** Three streams, one never fed, all flushed by force. *)
Definition older_flushed_run : list StateTracker.call :=
  [StateTracker.RegisterStream "cats" roomy;
   StateTracker.RegisterStream "dogs" roomy;
   StateTracker.RegisterStream "birds" roomy;
   older_record "cats" 1; older_record "dogs" 2; older_record "cats" 3;
   StateTracker.FlushStreams true].

(** A state after the only record, with [dogs] never fed. *)
Definition older_blocked_run : list StateTracker.call :=
  [StateTracker.RegisterStream "cats" roomy;
   StateTracker.RegisterStream "dogs" roomy;
   older_record "cats" 1;
   StateTracker.HandleStateMessage state_1].

(** Two records, a state, and the loop of the flush that makes it safe. *)
Definition older_covered_run : list StateTracker.call :=
  [StateTracker.RegisterStream "cats" roomy;
   older_record "cats" 1; older_record "cats" 2;
   StateTracker.AppendState state_1;
   StateTracker.FlushLoop true].

(** The batch of [dogs], registered second of three, is refused. *)
Definition older_refusing_run : list StateTracker.call :=
  [StateTracker.RegisterStream "cats" roomy;
   StateTracker.RegisterStream "dogs" refused;
   StateTracker.RegisterStream "birds" roomy;
   older_record "cats" 1; older_record "dogs" 2; older_record "birds" 3;
   StateTracker.HandleStateMessage state_1].

(** Two streams with a record each and a state waiting. *)
Definition older_pending_run : list StateTracker.call :=
  [StateTracker.RegisterStream "cats" roomy;
   StateTracker.RegisterStream "dogs" roomy;
   older_record "cats" 1; older_record "dogs" 2;
   StateTracker.HandleStateMessage state_1].

End Scenarios.

(** ** Properties *)

(* [set_solver] clears hypotheses that are gone by the time it runs. *)
#[local] Set Warnings "-clear-no-such-hyp".

Section Properties.
Context `{Collaborators}.

Implicit Types (st : StreamTracker) (stream s : string) (q queue : list entry).

Ltac unfold_M :=
  unfold exec, result, mbind, M_bind, bind, mret, M_ret, ret, get, modify,
    raise, when in *; simpl in *.

(** *** [min] with a default *)

Lemma foldl_min_le (xs : list Z) (x : Z) : foldl Z.min x xs ≤ x.
Proof.
  revert x. induction xs as [|y xs IH]; intros x; simpl; [lia|].
  specialize (IH (Z.min x y)). lia.
Qed.

Lemma foldl_min_lower (xs : list Z) (x y : Z) : y ∈ xs → foldl Z.min x xs ≤ y.
Proof.
  revert x. induction xs as [|z xs IH]; intros x Hy; simpl.
  - by apply elem_of_nil in Hy.
  - apply elem_of_cons in Hy as [->|Hy].
    + pose proof (foldl_min_le xs (Z.min x z)). lia.
    + by apply IH.
Qed.

Lemma foldl_min_attained (xs : list Z) (x : Z) :
  foldl Z.min x xs = x ∨ foldl Z.min x xs ∈ xs.
Proof.
  revert x. induction xs as [|z xs IH]; intros x; simpl; [by left|].
  destruct (IH (Z.min x z)) as [Heq|Hin].
  - rewrite Heq. destruct (Z.min_spec x z) as [[_ ->]|[_ ->]].
    + by left.
    + right. apply list_elem_of_here.
  - right. by apply list_elem_of_further.
Qed.

Lemma py_min_lower (xs : list Z) (d y : Z) : y ∈ xs → py_min xs d ≤ y.
Proof.
  destruct xs as [|x xs]; simpl; intros Hy.
  - by apply elem_of_nil in Hy.
  - apply elem_of_cons in Hy as [->|Hy].
    + apply foldl_min_le.
    + by apply foldl_min_lower.
Qed.

Lemma py_min_attained (xs : list Z) (d : Z) : xs ≠ [] → py_min xs d ∈ xs.
Proof.
  destruct xs as [|x xs]; [done|]. intros _. simpl.
  destruct (foldl_min_attained xs x) as [->|Hin].
  - apply list_elem_of_here.
  - by apply list_elem_of_further.
Qed.

(** *** The threshold *)

Lemma elem_of_valid_flush_watermarks st (w : Z) :
  w ∈ valid_flush_watermarks st ↔
  ∃ s, s ∈ streams_added_to st ∧ stream_flush_watermarks st !! s = Some w.
Proof.
  unfold valid_flush_watermarks. rewrite list_elem_of_fmap. split.
  - intros [[s w'] [-> Hin]]. apply list_elem_of_filter in Hin as [Hadd Hin].
    apply elem_of_map_to_list in Hin. by exists s.
  - intros (s & Hadd & Hs). exists (s, w). split; [done|].
    apply list_elem_of_filter. split; [done|]. by apply elem_of_map_to_list.
Qed.

Lemma threshold_lower st s (w : Z) :
  s ∈ streams_added_to st → stream_flush_watermarks st !! s = Some w →
  _safe_flush_threshold st ≤ w.
Proof.
  intros Hadd Hs. apply py_min_lower, elem_of_valid_flush_watermarks. eauto.
Qed.

Lemma threshold_attained st s (w : Z) :
  s ∈ streams_added_to st → stream_flush_watermarks st !! s = Some w →
  ∃ s', s' ∈ streams_added_to st
        ∧ stream_flush_watermarks st !! s' = Some (_safe_flush_threshold st).
Proof.
  intros Hadd Hs. apply elem_of_valid_flush_watermarks, py_min_attained.
  intros Hnil.
  assert (w ∈ valid_flush_watermarks st) as Hw
    by (apply elem_of_valid_flush_watermarks; eauto).
  rewrite Hnil in Hw. by apply elem_of_nil in Hw.
Qed.

Lemma threshold_default st :
  (∀ s, s ∈ streams_added_to st → stream_flush_watermarks st !! s = None) →
  _safe_flush_threshold st = 0.
Proof.
  intros Hnone. unfold _safe_flush_threshold.
  destruct (valid_flush_watermarks st) as [|w ws] eqn:Hv; [done|].
  assert (w ∈ valid_flush_watermarks st) as Hw
    by (rewrite Hv; apply list_elem_of_here).
  apply elem_of_valid_flush_watermarks in Hw as (s & Hadd & Hs).
  rewrite (Hnone s Hadd) in Hs. done.
Qed.

(** The threshold reads [stream_flush_watermarks] and [streams_added_to]
    and nothing else. *)
Lemma threshold_ext st st' :
  stream_flush_watermarks st' = stream_flush_watermarks st →
  streams_added_to st' = streams_added_to st →
  _safe_flush_threshold st' = _safe_flush_threshold st.
Proof.
  intros Hf Ha. unfold _safe_flush_threshold, valid_flush_watermarks.
  by rewrite Hf, Ha.
Qed.

(** *** The loop of the emission gate *)

Lemma pop_safe_spec force (thr : Z) queue (em : option value) :
  ∃ popped,
    queue = popped ++ (pop_safe force thr queue em).2
    ∧ Forall (safe force thr) popped
    ∧ (pop_safe force thr queue em).1
      = match last popped with Some e => Some (state e) | None => em end
    ∧ match (pop_safe force thr queue em).2 with
      | [] => True
      | e :: _ => ¬ safe force thr e
      end.
Proof.
  revert em. induction queue as [|e queue IH]; intros em; simpl.
  - exists []. by repeat split.
  - destruct (force || bool_decide (watermark e ≤ thr)) eqn:Hsafe.
    + destruct (IH (Some (state e))) as (popped & Hq & Hall & Hlast & Hrest).
      exists (e :: popped). repeat split.
      * simpl. by rewrite <- Hq.
      * constructor; [|done]. unfold safe.
        apply orb_true_iff in Hsafe as [->|Hle]; [by left|].
        right. by apply bool_decide_eq_true in Hle.
      * rewrite Hlast. destruct popped as [|e' popped']; [done|].
        rewrite last_cons_cons.
        destruct (last (e' :: popped')) eqn:E; [done|].
        by apply last_None in E.
      * done.
    + exists []. repeat split; [constructor|].
      simpl. unfold safe. apply orb_false_iff in Hsafe as [-> Hgt].
      apply bool_decide_eq_false in Hgt. intros [?|?]; [done|lia].
Qed.

Lemma pop_safe_length force (thr : Z) queue (em : option value) :
  (length (pop_safe force thr queue em).2 ≤ length queue)%nat.
Proof.
  destruct (pop_safe_spec force thr queue em) as (popped & Hq & _).
  rewrite Hq at 2. rewrite length_app. lia.
Qed.

(** *** What each method changes *)

Lemma emit_queue force st :
  state_queue (exec (_emit_safe_queued_states force) st)
  = (pop_safe force (_safe_flush_threshold st) (state_queue st) None).2.
Proof.
  unfold _emit_safe_queued_states. unfold_M.
  destruct (pop_safe _ _ _ _) as [[v|] rest]; simpl; [|done].
  destruct (truthy v); [|done].
  destruct (statediff_diff_len _ _) as [n|]; simpl; [|done].
  by destruct (bool_decide _).
Qed.

Lemma emit_frame force st :
  let st' := exec (_emit_safe_queued_states force) st in
  target st' = target st ∧ emit_states st' = emit_states st
  ∧ max_watermark_lag st' = max_watermark_lag st ∧ streams st' = streams st
  ∧ stream_add_watermarks st' = stream_add_watermarks st
  ∧ stream_flush_watermarks st' = stream_flush_watermarks st
  ∧ streams_added_to st' = streams_added_to st
  ∧ message_counter st' = message_counter st.
Proof.
  unfold _emit_safe_queued_states. unfold_M.
  destruct (pop_safe _ _ _ _) as [[v|] rest]; simpl; [|done].
  destruct (truthy v); [|done].
  destruct (statediff_diff_len _ _) as [n|]; simpl; [|done].
  by destruct (bool_decide _).
Qed.

Lemma emit_result force st :
  result (_emit_safe_queued_states force) st
  = match (pop_safe force (_safe_flush_threshold st) (state_queue st) None).1 with
    | Some v =>
        if truthy v then
          match statediff_diff_len v (or_empty_dict (last_emitted_state st)) with
          | Some _ => Returned tt
          | None => Raised TypeError
          end
        else Returned tt
    | None => Returned tt
    end.
Proof.
  unfold _emit_safe_queued_states. unfold_M.
  destruct (pop_safe _ _ _ _) as [[v|] rest]; simpl; [|done].
  destruct (truthy v); [|done].
  destruct (statediff_diff_len _ _) as [n|]; simpl; [|done].
  by destruct (bool_decide _).
Qed.

Lemma popped_entries_spec force st :
  state_queue st
  = popped_entries force st
      ++ state_queue (exec (_emit_safe_queued_states force) st).
Proof.
  unfold popped_entries. rewrite emit_queue.
  destruct (pop_safe_spec force (_safe_flush_threshold st) (state_queue st) None)
    as (popped & Hq & _).
  remember (pop_safe force (_safe_flush_threshold st) (state_queue st) None).2
    as rest eqn:Hrest.
  rewrite Hq, length_app.
  replace (length popped + length rest - length rest)%nat
    with (length popped) by lia.
  by rewrite take_app_length.
Qed.

Lemma popped_entries_unique force st popped :
  state_queue st
  = popped ++ state_queue (exec (_emit_safe_queued_states force) st) →
  popped = popped_entries force st.
Proof.
  intros Hq. pose proof (popped_entries_spec force st) as Hp.
  rewrite Hq in Hp at 1. by apply app_inv_tail in Hp.
Qed.

(** *** Sequencing *)

Lemma exec_seq {A B} (m : M A) (k : M B) st a :
  result m st = Returned a → exec (m ;; k) st = exec k (exec m st).
Proof. unfold_M. destruct (m st) as [[a'|e] st']; simpl; by intros. Qed.

Lemma result_seq {A B} (m : M A) (k : M B) st a :
  result m st = Returned a → result (m ;; k) st = result k (exec m st).
Proof. unfold_M. destruct (m st) as [[a'|e] st']; simpl; by intros. Qed.

Lemma exec_seq_raised {A B} (m : M A) (k : M B) st e :
  result m st = Raised e → exec (m ;; k) st = exec m st.
Proof. unfold_M. destruct (m st) as [[a'|e'] st']; simpl; by intros. Qed.

Lemma result_seq_raised {A B} (m : M A) (k : M B) st e :
  result m st = Raised e → result (m ;; k) st = Raised e.
Proof. unfold_M. destruct (m st) as [[a'|e'] st']; simpl; congruence. Qed.

Lemma run_app (calls calls' : list call) st :
  run (calls ++ calls') st = run calls' (run calls st).
Proof. revert st. induction calls as [|c calls IH]; intros st; simpl; auto. Qed.

(** *** A successful batch write *)

Lemma write_raised stream st e :
  result (_write_batch_and_update_watermarks stream) st = Raised e →
  ∃ tgt, exec (_write_batch_and_update_watermarks stream) st = set_target tgt st.
Proof.
  unfold _write_batch_and_update_watermarks. unfold_M.
  destruct (streams st !! stream) as [b|].
  - destruct (write_batch (target st) b) as [[] tgt]; simpl; [done|].
    intros _. by exists tgt.
  - intros _. exists (target st). by destruct st.
Qed.

Lemma write_returned stream st :
  result (_write_batch_and_update_watermarks stream) st = Returned tt →
  ∃ b tgt,
    streams st !! stream = Some b ∧ write_batch (target st) b = (true, tgt)
    ∧ exec (_write_batch_and_update_watermarks stream) st
      = set_stream_flush_watermarks
          (<[stream := add_watermark st stream]> (stream_flush_watermarks st))
          (set_streams (<[stream := flush_buffer b]> (streams st))
             (set_target tgt st)).
Proof.
  unfold _write_batch_and_update_watermarks. unfold_M.
  destruct (streams st !! stream) as [b|]; [|done].
  destruct (write_batch (target st) b) as [[] tgt] eqn:Hw; simpl; [|done].
  intros _. by exists b, tgt.
Qed.

Lemma write_result stream st :
  result (_write_batch_and_update_watermarks stream) st
  = match streams st !! stream with
    | None => Raised (KeyError stream)
    | Some b => if (write_batch (target st) b).1
                then Returned tt else Raised WriteBatchError
    end.
Proof.
  unfold _write_batch_and_update_watermarks. unfold_M.
  destruct (streams st !! stream) as [b|]; [|done].
  by destruct (write_batch (target st) b) as [[] tgt].
Qed.

(** A refused batch leaves the tracker as it was, the target apart. *)
Lemma write_refused stream st b tgt :
  streams st !! stream = Some b → write_batch (target st) b = (false, tgt) →
  result (_write_batch_and_update_watermarks stream) st = Raised WriteBatchError
  ∧ exec (_write_batch_and_update_watermarks stream) st = set_target tgt st.
Proof.
  intros Hb Hw. unfold _write_batch_and_update_watermarks. unfold_M.
  by rewrite Hb, Hw.
Qed.

Lemma target_consistent tgt st : consistent st → consistent (set_target tgt st).
Proof. intros []. by constructor. Qed.

(** *** The methods keep the tracker consistent *)

Lemma init_consistent tgt emit max_lag : consistent (init tgt emit max_lag).
Proof.
  constructor; simpl; try done. constructor.
Qed.

Lemma register_consistent stream b st :
  consistent st → consistent (exec (register_stream stream b) st).
Proof.
  intros [Hdom Hadd Hc Hab Hfa Hqb Hqs].
  unfold register_stream. unfold_M. constructor; simpl; try done.
  - rewrite !dom_insert_L. by rewrite Hdom.
  - rewrite dom_insert_L. set_solver.
  - intros s f. unfold add_watermark in *. simpl.
    destruct (decide (s = stream)) as [->|Hne].
    + rewrite lookup_insert_eq. intros [= <-].
      destruct (stream_add_watermarks st !! stream) as [a|] eqn:Ha; simpl; [|lia].
      apply Hab in Ha. lia.
    + rewrite lookup_insert_ne by done. apply Hfa.
Qed.

Lemma record_consistent stream line_data st :
  consistent st → consistent (exec (handle_record_message stream line_data) st).
Proof.
  intros [Hdom Hadd Hc Hab Hfa Hqb Hqs].
  unfold handle_record_message. unfold_M.
  destruct (streams st !! stream) as [b|] eqn:Hb; simpl; [|by constructor].
  assert (stream ∈ dom (streams st)) as Hin by (apply elem_of_dom; eauto).
  assert (∀ s, add_watermark st s ≤ message_counter st) as Hle.
  { intros s. unfold add_watermark.
    destruct (stream_add_watermarks st !! s) as [a|] eqn:Ha; simpl; [|lia].
    apply Hab in Ha. lia. }
  assert (∀ s f,
    stream_flush_watermarks st !! s = Some f →
    f ≤ default 0 (<[stream := message_counter st + 1]>
                     (stream_add_watermarks st) !! s)) as Hfa'.
  { intros s f Hf. destruct (decide (s = stream)) as [->|Hne].
    - rewrite lookup_insert_eq. simpl. specialize (Hfa _ _ Hf).
      specialize (Hle stream). lia.
    - rewrite lookup_insert_ne by done. by apply Hfa. }
  assert (∀ s a,
    <[stream := message_counter st + 1]> (stream_add_watermarks st) !! s = Some a →
    0 ≤ a ≤ message_counter st + 1) as Hab'.
  { intros s a. destruct (decide (s = stream)) as [->|Hne].
    - rewrite lookup_insert_eq. intros [= <-]. lia.
    - rewrite lookup_insert_ne by done. intros Ha. apply Hab in Ha. lia. }
  assert (Forall (λ e, watermark e ≤ message_counter st + 1) (state_queue st))
    as Hqb'.
  { eapply Forall_impl; [exact Hqb|]. simpl. intros. lia. }
  destruct (add_record_message b line_data) as [b'|]; simpl;
    constructor; simpl; try done; try lia; try set_solver.
Qed.

Lemma write_consistent stream st :
  consistent st →
  consistent (exec (_write_batch_and_update_watermarks stream) st).
Proof.
  intros Hcons.
  destruct (result (_write_batch_and_update_watermarks stream) st)
    as [[]|e] eqn:Hres.
  - apply write_returned in Hres as (b & tgt & Hb & Hw & ->).
    destruct Hcons as [Hdom Hadd Hc Hab Hfa Hqb Hqs].
    assert (stream ∈ dom (streams st)) as Hin by (apply elem_of_dom; eauto).
    constructor; simpl; try done.
    + rewrite !dom_insert_L. rewrite Hdom. done.
    + rewrite dom_insert_L. set_solver.
    + intros s f. unfold add_watermark in *. simpl.
      destruct (decide (s = stream)) as [->|Hne].
      * rewrite lookup_insert_eq. intros [= <-]. lia.
      * rewrite lookup_insert_ne by done. apply Hfa.
  - destruct (write_raised _ _ _ Hres) as [tgt ->]. by apply target_consistent.
Qed.

Lemma sorted_suffix (popped rest : list entry) :
  queue_sorted (popped ++ rest) → queue_sorted rest.
Proof. unfold queue_sorted. intros Hs. by apply StronglySorted_app_1_r in Hs. Qed.

Lemma emit_consistent force st :
  consistent st → consistent (exec (_emit_safe_queued_states force) st).
Proof.
  intros [Hdom Hadd Hc Hab Hfa Hqb Hqs].
  pose proof (emit_frame force st) as (Ht & He & Hm & Hs & Ha & Hf & Had & Hmc).
  pose proof (popped_entries_spec force st) as Hq.
  simpl in *. rewrite Hq in Hqb, Hqs.
  constructor; unfold add_watermark; rewrite ?Ht, ?He, ?Hm, ?Hs, ?Ha, ?Hf, ?Had, ?Hmc;
    try done.
  - by apply Forall_app in Hqb as [_ ?].
  - by apply sorted_suffix in Hqs.
Qed.

Lemma append_consistent line_data st :
  consistent st → consistent (exec (append_state line_data) st).
Proof.
  intros [Hdom Hadd Hc Hab Hfa Hqb Hqs].
  unfold append_state. unfold_M.
  destruct (getitem line_data "value") as [v| |]; simpl; [|by constructor..].
  constructor; simpl; try done.
  - apply Forall_app. split; [done|]. constructor; [simpl; lia|constructor].
  - unfold queue_sorted in *. apply StronglySorted_app_2; [|done|].
    + intros a b' Ha Hb. apply list_elem_of_singleton in Hb as ->. simpl.
      rewrite Forall_forall in Hqb. by apply Hqb.
    + repeat constructor.
Qed.

Lemma primitive_consistent c st :
  primitive c = true → consistent st → consistent (exec (perform c) st).
Proof.
  destruct c; simpl; try done; intros _.
  - apply register_consistent.
  - apply record_consistent.
  - apply write_consistent.
  - apply emit_consistent.
  - apply append_consistent.
Qed.

(** *** Every method is a run of primitive calls *)

Lemma for_each_write_decompose (xs : list string) st :
  ∃ done_ : list string,
    exec (for_each xs _write_batch_and_update_watermarks) st
    = run (WriteBatchAndUpdateWatermarks <$> done_) st.
Proof.
  revert st. induction xs as [|x xs IH]; intros st.
  - by exists [].
  - simpl.
    destruct (result (_write_batch_and_update_watermarks x) st) as [[]|e] eqn:Hres.
    + destruct (IH (exec (_write_batch_and_update_watermarks x) st)) as [l Hl].
      exists (x :: l). simpl. by rewrite (exec_seq _ _ _ _ Hres).
    + exists [x]. simpl. by rewrite (exec_seq_raised _ _ _ _ Hres).
Qed.

Lemma perform_decompose c st :
  ∃ prims, exec (perform c) st = run prims st ∧ Forall (part_of c) prims.
Proof.
  destruct c as [stream b|stream|force order|line_data|stream line_data
                 |stream|force|line_data]; simpl.
  - exists [RegisterStream stream b]. split; [done|]. by repeat constructor.
  - unfold flush_stream.
    destruct (result (_write_batch_and_update_watermarks stream) st)
      as [[]|e] eqn:Hres.
    + exists [WriteBatchAndUpdateWatermarks stream; EmitSafeQueuedStates false].
      split; [|by repeat constructor].
      simpl. by rewrite (exec_seq _ _ _ _ Hres).
    + exists [WriteBatchAndUpdateWatermarks stream].
      split; [|by repeat constructor].
      simpl. by rewrite (exec_seq_raised _ _ _ _ Hres).
  - unfold flush_streams_if_required.
    set (xs := iter_set order (streams_to_flush force st)).
    set (f := force_after_guard force st).
    destruct (for_each_write_decompose xs st) as [l Hl].
    assert (Forall (part_of (FlushStreamsIfRequired force order))
                   (WriteBatchAndUpdateWatermarks <$> l)) as Hparts.
    { apply Forall_fmap, Forall_forall. intros x _. by split. }
    destruct (result (for_each xs _write_batch_and_update_watermarks) st)
      as [[]|e] eqn:Hres.
    + exists ((WriteBatchAndUpdateWatermarks <$> l) ++ [EmitSafeQueuedStates f]).
      split.
      * rewrite run_app. simpl. rewrite <- Hl.
        change (exec (for_each xs _write_batch_and_update_watermarks ;;
                      _emit_safe_queued_states f) st = 
                exec (_emit_safe_queued_states f)
                  (exec (for_each xs _write_batch_and_update_watermarks) st)).
        by rewrite (exec_seq _ _ _ _ Hres).
      * apply Forall_app. split; [done|]. by repeat constructor.
    + exists (WriteBatchAndUpdateWatermarks <$> l). split; [|done].
      rewrite <- Hl.
      change (exec (for_each xs _write_batch_and_update_watermarks ;;
                    _emit_safe_queued_states f) st = 
              exec (for_each xs _write_batch_and_update_watermarks) st).
      by rewrite (exec_seq_raised _ _ _ _ Hres).
  - unfold handle_state_message.
    change (exec (st' ← get; when (emit_states st')
                    (append_state line_data ;; _emit_safe_queued_states false)) st)
      with (exec (when (emit_states st)
                    (append_state line_data ;; _emit_safe_queued_states false)) st).
    destruct (emit_states st); simpl.
    + destruct (result (append_state line_data) st) as [[]|e] eqn:Hres.
      * exists [AppendState line_data; EmitSafeQueuedStates false].
        split; [|by repeat constructor].
        simpl. by rewrite (exec_seq _ _ _ _ Hres).
      * exists [AppendState line_data]. split; [|by repeat constructor].
        simpl. by rewrite (exec_seq_raised _ _ _ _ Hres).
    + exists []. split; [done|constructor].
  - exists [HandleRecordMessage stream line_data]. split; [done|].
    by repeat constructor.
  - exists [WriteBatchAndUpdateWatermarks stream]. split; [done|].
    by repeat constructor.
  - exists [EmitSafeQueuedStates force]. split; [done|]. by repeat constructor.
  - exists [AppendState line_data]. split; [done|]. by repeat constructor.
Qed.

Lemma run_decompose calls st :
  ∃ prims,
    run calls st = run prims st
    ∧ Forall (λ c, primitive c = true) prims
    ∧ (Forall (λ c, registers c = false) calls →
       Forall (λ c, registers c = false) prims).
Proof.
  revert st. induction calls as [|c calls IH]; intros st.
  - exists []. by repeat split.
  - simpl. destruct (perform_decompose c st) as (p1 & -> & Hp1).
    destruct (IH (run p1 st)) as (p2 & -> & Hp2 & Hr2).
    exists (p1 ++ p2). rewrite run_app. split; [done|]. split.
    + apply Forall_app. split; [|done].
      eapply Forall_impl; [exact Hp1|]. by intros c' [? _].
    + intros Hcalls. apply Forall_cons in Hcalls as [Hc Hcalls].
      apply Forall_app. split; [|by apply Hr2].
      eapply Forall_impl; [exact Hp1|]. intros c' [_ Hreg].
      destruct (registers c') eqn:Hc'; [|done].
      rewrite Hreg in Hc; done.
Qed.

Lemma primitives_consistent prims st :
  Forall (λ c, primitive c = true) prims →
  consistent st → consistent (run prims st).
Proof.
  revert st. induction prims as [|c prims IH]; intros st Hp Hc; simpl; [done|].
  apply Forall_cons in Hp as [Hc1 Hp].
  apply IH; [done|]. by apply primitive_consistent.
Qed.

Lemma run_consistent calls st : consistent st → consistent (run calls st).
Proof.
  intros Hc. destruct (run_decompose calls st) as (prims & -> & Hp & _).
  by apply primitives_consistent.
Qed.

Lemma reachable_consistent tgt emit max_lag calls :
  consistent (run calls (init tgt emit max_lag)).
Proof. apply run_consistent, init_consistent. Qed.

(** *** The threshold is a minimum, and the invariant *)

Lemma py_min_ext (xs ys : list Z) (d : Z) :
  (∀ w, w ∈ xs ↔ w ∈ ys) → py_min xs d = py_min ys d.
Proof.
  intros Hiff. destruct xs as [|x xs], ys as [|y ys]; [done|..].
  - exfalso. eapply elem_of_nil, Hiff, list_elem_of_here.
  - exfalso. eapply elem_of_nil, Hiff, list_elem_of_here.
  - assert (py_min (x :: xs) d ∈ y :: ys) as H1
      by (apply Hiff, py_min_attained; done).
    assert (py_min (y :: ys) d ∈ x :: xs) as H2
      by (apply Hiff, py_min_attained; done).
    apply (py_min_lower _ d) in H1, H2. lia.
Qed.

Lemma elem_of_active st s :
  consistent st →
  s ∈ active st ↔
  s ∈ streams_added_to st ∧ is_Some (stream_flush_watermarks st !! s).
Proof.
  intros Hc. unfold active. rewrite elem_of_intersection.
  rewrite <- (flush_dom st Hc), elem_of_dom. tauto.
Qed.

(** C2. At the end of every run, [_safe_flush_threshold] is 0 when no
    registered stream has received a record (in particular when no stream
    has), and otherwise it is the least flush watermark of the registered
    streams that have: a lower bound of them and one of them.  The flush
    watermark of a stream that has received no record does not enter it. *)
Theorem safe_threshold_is_min_over_active tgt emit max_lag calls :
  let st := run calls (init tgt emit max_lag) in
  (active st = ∅ → _safe_flush_threshold st = 0)
  ∧ (streams_added_to st = ∅ → _safe_flush_threshold st = 0)
  ∧ (∀ s, s ∈ active st →
       ∃ w, stream_flush_watermarks st !! s = Some w
            ∧ _safe_flush_threshold st ≤ w)
  ∧ (active st ≠ ∅ →
       ∃ s, s ∈ active st
            ∧ stream_flush_watermarks st !! s = Some (_safe_flush_threshold st))
  ∧ (∀ s w, s ∈ dom (streams st) → s ∉ streams_added_to st →
       _safe_flush_threshold
         (set_stream_flush_watermarks
            (<[s := w]> (stream_flush_watermarks st)) st)
       = _safe_flush_threshold st).
Proof.
  intros st. pose proof (reachable_consistent tgt emit max_lag calls) as Hc.
  fold st in Hc.
  assert (active st = ∅ → _safe_flush_threshold st = 0) as Hzero.
  { intros Hempty. apply threshold_default. intros s Hs.
    destruct (stream_flush_watermarks st !! s) as [w|] eqn:Hw; [|done].
    assert (s ∈ active st) as Hin by (apply elem_of_active; eauto).
    rewrite Hempty in Hin. set_solver. }
  split; [done|]. split; [|split; [|split]].
  - intros Hnone. apply Hzero. unfold active. rewrite Hnone. set_solver.
  - intros s Hs. apply elem_of_active in Hs as [Hadd [w Hw]]; [|done].
    exists w. split; [done|]. by eapply threshold_lower.
  - intros Hne. apply set_choose_L in Hne as [s Hs].
    apply elem_of_active in Hs as [Hadd [w Hw]]; [|done].
    destruct (threshold_attained st s w Hadd Hw) as (s' & Hadd' & Hs').
    exists s'. split; [|done]. apply elem_of_active; eauto.
  - intros s w _ Hs. apply py_min_ext. intros w'.
    rewrite !elem_of_valid_flush_watermarks. simpl.
    split; intros (s' & Hadd & Hs'); exists s'; (split; [done|]).
    + rewrite lookup_insert_ne in Hs'; [done|]. by intros ->.
    + rewrite lookup_insert_ne; [done|]. by intros ->.
Qed.

(** C4. At the end of every run of [register_stream], [handle_record_message],
    [handle_state_message] and flush calls, the flush watermark of every
    registered stream is at most its add watermark, an absent add watermark
    counting as 0. *)
Theorem flush_watermark_le_add_watermark tgt emit max_lag calls s :
  let st := run calls (init tgt emit max_lag) in
  s ∈ dom (streams st) →
  ∃ f, stream_flush_watermarks st !! s = Some f
       ∧ f ≤ default 0 (stream_add_watermarks st !! s).
Proof.
  intros st Hs. pose proof (reachable_consistent tgt emit max_lag calls) as Hc.
  fold st in Hc. rewrite <- (flush_dom st Hc) in Hs.
  apply elem_of_dom in Hs as [f Hf]. exists f. split; [done|].
  by apply (flush_le_add st Hc).
Qed.

(** C10. [handle_record_message] raises [TargetError] exactly when the
    stream is not registered, and then leaves the tracker as it was.  For a
    registered stream it adds one to the message counter, sets the add
    watermark of the stream to the new counter and marks the stream as
    having received records; the other watermarks, the queue and the output
    stay as they were. *)
Theorem handle_record_message_spec st stream line_data :
  let st' := exec (handle_record_message stream line_data) st in
  ((∃ name, result (handle_record_message stream line_data) st
            = Raised (TargetError name))
   ↔ stream ∉ dom (streams st))
  ∧ (stream ∉ dom (streams st) → st' = st)
  ∧ (stream ∈ dom (streams st) →
       message_counter st' = message_counter st + 1
       ∧ stream_add_watermarks st'
         = <[stream := message_counter st + 1]> (stream_add_watermarks st)
       ∧ streams_added_to st' = {[stream]} ∪ streams_added_to st
       ∧ stream_flush_watermarks st' = stream_flush_watermarks st
       ∧ dom (streams st') = dom (streams st)
       ∧ state_queue st' = state_queue st
       ∧ last_emitted_state st' = last_emitted_state st
       ∧ stdout st' = stdout st).
Proof.
  intros st'. subst st'. rewrite not_elem_of_dom, elem_of_dom.
  unfold handle_record_message. unfold_M.
  destruct (streams st !! stream) as [b|] eqn:Hb; simpl.
  - split; [|split].
    + split; [|done]. intros [name Hr].
      by destruct (add_record_message b line_data).
    + done.
    + intros _. destruct (add_record_message b line_data); simpl;
        repeat split; try done.
      rewrite dom_insert_L. apply elem_of_dom_2 in Hb. set_solver.
  - split; [|split].
    + split; [done|]. intros _. by exists stream.
    + done.
    + by intros [? ?].
Qed.

(** C7, as the code has it.  [register_stream] for a stream (registered
    before or not) stores the new buffered stream and sets the flush
    watermark of the stream to 0; it leaves the add watermarks, the set of
    streams that have received records, the counter, the queue and the
    other streams as they were. *)
Theorem register_stream_spec st stream b :
  let st' := exec (register_stream stream b) st in
  streams st' = <[stream := b]> (streams st)
  ∧ stream_flush_watermarks st' !! stream = Some 0
  ∧ stream_add_watermarks st' = stream_add_watermarks st
  ∧ streams_added_to st' = streams_added_to st
  ∧ message_counter st' = message_counter st
  ∧ state_queue st' = state_queue st
  ∧ (∀ s, s ≠ stream →
       stream_flush_watermarks st' !! s = stream_flush_watermarks st !! s).
Proof.
  unfold register_stream. unfold_M. repeat split; try done.
  - apply lookup_insert_eq.
  - intros s Hs. by rewrite lookup_insert_ne.
Qed.

(** *** What the emission gate writes *)

Lemma emit_output force st :
  let st' := exec (_emit_safe_queued_states force) st in
  match (pop_safe force (_safe_flush_threshold st) (state_queue st) None).1 with
  | Some v =>
      if truthy v then
        match statediff_diff_len v (or_empty_dict (last_emitted_state st)) with
        | Some diff_len =>
            stdout st'
            = stdout st
                ++ (if bool_decide (0 < diff_len)%nat then [json_dumps v] else [])
            ∧ last_emitted_state st' = Some v
        | None => stdout st' = stdout st
                  ∧ last_emitted_state st' = last_emitted_state st
        end
      else stdout st' = stdout st
           ∧ last_emitted_state st' = last_emitted_state st
  | None => stdout st' = stdout st
            ∧ last_emitted_state st' = last_emitted_state st
  end.
Proof.
  unfold _emit_safe_queued_states. unfold_M.
  destruct (pop_safe _ _ _ _) as [[v|] rest]; simpl; [|done].
  destruct (truthy v); [|done].
  destruct (statediff_diff_len _ _) as [n|]; simpl; [|done].
  destruct (bool_decide _); simpl; [done|]. by rewrite app_nil_r.
Qed.

Lemma emit_chosen force st popped :
  state_queue st
  = popped ++ state_queue (exec (_emit_safe_queued_states force) st) →
  (pop_safe force (_safe_flush_threshold st) (state_queue st) None).1
  = state <$> last popped.
Proof.
  intros Hq. rewrite emit_queue in Hq.
  destruct (pop_safe_spec force (_safe_flush_threshold st) (state_queue st) None)
    as (popped' & Hq' & _ & Hlast & _).
  rewrite Hq' in Hq at 1. apply app_inv_tail in Hq as <-.
  rewrite Hlast. by destruct (last popped').
Qed.

Lemma sorted_head_bound (e : entry) (rest : list entry) :
  queue_sorted (e :: rest) →
  Forall (λ e', watermark e ≤ watermark e') (e :: rest).
Proof.
  unfold queue_sorted. intros Hs. apply StronglySorted_inv in Hs as [_ Hall].
  constructor; [lia|done].
Qed.

Lemma emit_pass force st :
  queue_sorted (state_queue st) →
  ∃ popped,
    state_queue st
    = popped ++ state_queue (exec (_emit_safe_queued_states force) st)
    ∧ Forall (safe force (_safe_flush_threshold st)) popped
    ∧ Forall (λ e, ¬ safe force (_safe_flush_threshold st) e)
             (state_queue (exec (_emit_safe_queued_states force) st))
    ∧ (stdout (exec (_emit_safe_queued_states force) st) = stdout st
       ∨ ∃ e, last popped = Some e
              ∧ stdout (exec (_emit_safe_queued_states force) st)
                = stdout st ++ [json_dumps (state e)]).
Proof.
  intros Hs.
  pose proof (emit_output force st) as Hout. simpl in Hout.
  destruct (pop_safe_spec force (_safe_flush_threshold st) (state_queue st) None)
    as (popped & Hq & Hsafe & _ & Hhead).
  rewrite <- emit_queue in Hq, Hhead.
  rewrite (emit_chosen force st popped Hq) in Hout.
  exists popped. split; [done|]. split; [done|]. split.
  - rewrite Hq in Hs. apply sorted_suffix in Hs.
    destruct (state_queue (exec (_emit_safe_queued_states force) st))
      as [|e rest]; [constructor|].
    apply sorted_head_bound in Hs.
    eapply Forall_impl; [exact Hs|]. simpl. intros e' Hle [Hf|Hw].
    + apply Hhead. by left.
    + apply Hhead. right. lia.
  - destruct (last popped) as [e|]; simpl in Hout.
    + destruct (truthy (state e)); [|by left; apply Hout].
      destruct (statediff_diff_len _ _) as [n|]; [|by left; apply Hout].
      destruct Hout as [Hout _]. destruct (bool_decide _).
      * right. by exists e.
      * left. by rewrite app_nil_r in Hout.
    + left. apply Hout.
Qed.

(** C5. In one pass at the end of any run, the gate takes a prefix off the
    queue: every entry taken is safe (its watermark is at most the
    threshold, or [force] is set) and no entry left is, so the pass takes
    every safe entry.  The output grows by nothing or by one line, the
    state of the last entry taken; no earlier entry taken is written. *)
Theorem only_latest_wins tgt emit max_lag calls force :
  let st := run calls (init tgt emit max_lag) in
  let st' := exec (_emit_safe_queued_states force) st in
  let threshold := _safe_flush_threshold st in
  ∃ popped,
    state_queue st = popped ++ state_queue st'
    ∧ Forall (safe force threshold) popped
    ∧ Forall (λ e, ¬ safe force threshold e) (state_queue st')
    ∧ (stdout st' = stdout st
       ∨ ∃ e, last popped = Some e
              ∧ stdout st' = stdout st ++ [json_dumps (state e)]).
Proof.
  simpl. apply emit_pass, queue_ascending, reachable_consistent.
Qed.

(** C6, as the code has it.  When a pass takes at least one entry, the
    state of the last one taken is a true value (not [None], an empty
    dictionary or the like) and [statediff.diff] of it against
    [last_emitted_state or {}] returns, the pass returns, the state is
    written exactly when that diff is not empty, and [last_emitted_state]
    becomes that state whether it was written or not.  In particular a
    pass that next chooses a true state whose diff against it is empty
    returns and writes nothing, so that the two passes wrote exactly one
    line, that state, when the first diff was not empty. *)
Theorem dedup_against_last_emitted st force popped e diff_len :
  let st' := exec (_emit_safe_queued_states force) st in
  state_queue st = popped ++ state_queue st' →
  last popped = Some e →
  truthy (state e) = true →
  statediff_diff_len (state e) (or_empty_dict (last_emitted_state st))
  = Some diff_len →
  result (_emit_safe_queued_states force) st = Returned tt
  ∧ (stdout st' = stdout st ++ [json_dumps (state e)] ↔ (0 < diff_len)%nat)
  ∧ (stdout st' = stdout st ↔ diff_len = 0%nat)
  ∧ last_emitted_state st' = Some (state e)
  ∧ ∀ st2 force2 popped2 e2,
      let st2' := exec (_emit_safe_queued_states force2) st2 in
      last_emitted_state st2 = last_emitted_state st' →
      state_queue st2 = popped2 ++ state_queue st2' →
      last popped2 = Some e2 →
      truthy (state e2) = true →
      statediff_diff_len (state e2) (state e) = Some 0%nat →
      result (_emit_safe_queued_states force2) st2 = Returned tt
      ∧ stdout st2' = stdout st2
      ∧ last_emitted_state st2' = Some (state e2)
      ∧ (stdout st2 = stdout st' → (0 < diff_len)%nat →
         stdout st2' = stdout st ++ [json_dumps (state e)]).
Proof.
  intros st' Hq Hlast Htrue Hdiff.
  pose proof (emit_output force st) as Hout. simpl in Hout. fold st' in Hout.
  pose proof (emit_result force st) as Hres.
  rewrite (emit_chosen force st popped Hq), Hlast in Hout, Hres.
  simpl in Hout, Hres. rewrite Htrue, Hdiff in Hout, Hres.
  destruct Hout as [Hout Hlast'].
  assert (stdout st' = stdout st ++ [json_dumps (state e)] ↔ (0 < diff_len)%nat)
    as Hwritten.
  { rewrite Hout. case_bool_decide as Hn; split; try done; try lia.
    intros Heq. apply (f_equal length) in Heq.
    rewrite app_nil_r, length_app in Heq. simpl in Heq. lia. }
  split; [done|]. split; [done|]. split.
  { rewrite Hout. case_bool_decide as Hn; split; try lia.
    - intros Heq. apply (f_equal length) in Heq.
      rewrite length_app in Heq. simpl in Heq. lia.
    - intros _. by rewrite app_nil_r. }
  split; [done|].
  intros st2 force2 popped2 e2 st2' Hl2 Hq2 Hlast2 Htrue2 Hdiff2.
  pose proof (emit_output force2 st2) as Hout2. simpl in Hout2.
  fold st2' in Hout2.
  pose proof (emit_result force2 st2) as Hres2.
  rewrite (emit_chosen force2 st2 popped2 Hq2), Hlast2 in Hout2, Hres2.
  simpl in Hout2, Hres2. rewrite Htrue2 in Hout2, Hres2.
  rewrite Hl2, Hlast' in Hout2, Hres2. simpl in Hout2, Hres2.
  rewrite Htrue, Hdiff2 in Hout2, Hres2. simpl in Hout2.
  rewrite app_nil_r in Hout2. destruct Hout2 as [Hout2 Hlast2'].
  split; [done|]. split; [done|]. split; [done|].
  intros Hsame Hpos. rewrite Hout2, Hsame. by apply Hwritten.
Qed.

(** *** Records and the streams that received them *)

Lemma record_added stream line_data st :
  stream ∈ dom (streams st) →
  streams_added_to (exec (handle_record_message stream line_data) st)
  = {[stream]} ∪ streams_added_to st.
Proof.
  rewrite elem_of_dom. intros [b Hb].
  unfold handle_record_message. unfold_M. rewrite Hb. simpl.
  by destruct (add_record_message b line_data).
Qed.

Lemma primitive_added_mono c st :
  primitive c = true →
  streams_added_to st ⊆ streams_added_to (exec (perform c) st).
Proof.
  destruct c as [stream b|stream|force order|line_data|stream line_data
                 |stream|force|line_data]; simpl; try done; intros _.
  - unfold handle_record_message. unfold_M.
    destruct (streams st !! stream) as [b|]; simpl; [|done].
    destruct (add_record_message b line_data); simpl; set_solver.
  - destruct (result (_write_batch_and_update_watermarks stream) st)
      as [[]|e] eqn:Hres.
    + by apply write_returned in Hres as (b & tgt & _ & _ & ->).
    + by destruct (write_raised _ _ _ Hres) as [tgt ->].
  - pose proof (emit_frame force st) as (_ & _ & _ & _ & _ & _ & -> & _). done.
  - unfold append_state. unfold_M.
    by destruct (getitem line_data "value").
Qed.

Lemma primitives_added_mono prims st :
  Forall (λ c, primitive c = true) prims →
  streams_added_to st ⊆ streams_added_to (run prims st).
Proof.
  revert st. induction prims as [|c prims IH]; intros st Hp; simpl; [done|].
  apply Forall_cons in Hp as [Hc Hp].
  etrans; [by apply primitive_added_mono|]. by apply IH.
Qed.

Lemma run_added_mono calls st :
  streams_added_to st ⊆ streams_added_to (run calls st).
Proof.
  destruct (run_decompose calls st) as (prims & -> & Hp & _).
  by apply primitives_added_mono.
Qed.

Lemma records_added calls st s (n : Z) :
  (s, n) ∈ records calls st → s ∈ streams_added_to (run calls st).
Proof.
  revert st. induction calls as [|c calls IH]; intros st; simpl.
  - by intros ?%elem_of_nil.
  - intros [Hin|Hin]%elem_of_app; [|by apply IH].
    apply run_added_mono. destruct c; simpl in Hin; try by apply elem_of_nil in Hin.
    case_bool_decide as Hreg; [|by apply elem_of_nil in Hin].
    apply list_elem_of_singleton in Hin as [= -> ->].
    simpl. rewrite record_added by done. set_solver.
Qed.

(** C1. Take any run, an entry that a pass of the gate without [force]
    takes off the queue at its end, and a record the run accepted whose
    counter value is at most the watermark of the entry.  Then the flush
    watermark of the stream of that record is, at that moment, at least the
    counter value of the record. *)
Theorem no_premature_emission tgt emit max_lag calls e s (n : Z) :
  let st := run calls (init tgt emit max_lag) in
  e ∈ popped_entries false st →
  (s, n) ∈ records calls (init tgt emit max_lag) →
  n ≤ watermark e →
  ∃ f, stream_flush_watermarks st !! s = Some f ∧ n ≤ f.
Proof.
  intros st He Hrec Hle.
  pose proof (reachable_consistent tgt emit max_lag calls) as Hc. fold st in Hc.
  apply records_added in Hrec. fold st in Hrec.
  assert (is_Some (stream_flush_watermarks st !! s)) as [f Hf].
  { apply elem_of_dom. rewrite (flush_dom st Hc).
    by apply (added_registered st Hc). }
  exists f. split; [done|].
  pose proof (threshold_lower st s f Hrec Hf) as Hthr.
  destruct (pop_safe_spec false (_safe_flush_threshold st) (state_queue st) None)
    as (popped & Hq & Hsafe & _).
  rewrite <- emit_queue in Hq. apply popped_entries_unique in Hq. subst popped.
  rewrite Forall_forall in Hsafe. destruct (Hsafe e He) as [?|Hw]; [done|]. lia.
Qed.

(** *** Threshold and flush watermarks that only grow *)

Lemma advanced_refl st : advanced st st.
Proof. constructor; [done|done|]. intros s f f' Hf Hf'. simplify_eq. lia. Qed.

Lemma advanced_trans st1 st2 st3 :
  advanced st1 st2 → advanced st2 st3 → advanced st1 st3.
Proof.
  intros [Ha1 Hd1 Hf1] [Ha2 Hd2 Hf2]. constructor.
  - by rewrite Ha2.
  - by rewrite Hd2.
  - intros s f f'' Hf Hf''.
    assert (is_Some (stream_flush_watermarks st2 !! s)) as [f' Hf'].
    { apply elem_of_dom. rewrite Hd1. apply elem_of_dom. eauto. }
    specialize (Hf1 _ _ _ Hf Hf'). specialize (Hf2 _ _ _ Hf' Hf''). lia.
Qed.

Lemma advanced_threshold st st' :
  advanced st st' → _safe_flush_threshold st ≤ _safe_flush_threshold st'.
Proof.
  intros [Ha Hd Hf].
  destruct (valid_flush_watermarks st') as [|w ws] eqn:Hv.
  - assert (_safe_flush_threshold st' = 0) as ->
      by (unfold _safe_flush_threshold; by rewrite Hv).
    rewrite threshold_default; [done|]. intros s Hs.
    destruct (stream_flush_watermarks st !! s) as [f|] eqn:Hfs; [|done].
    assert (is_Some (stream_flush_watermarks st' !! s)) as [f' Hf'].
    { apply elem_of_dom. rewrite Hd. apply elem_of_dom. eauto. }
    assert (f' ∈ valid_flush_watermarks st') as Hin.
    { apply elem_of_valid_flush_watermarks. exists s. by rewrite Ha. }
    rewrite Hv in Hin. by apply elem_of_nil in Hin.
  - assert (w ∈ valid_flush_watermarks st') as Hw
      by (rewrite Hv; apply list_elem_of_here).
    apply elem_of_valid_flush_watermarks in Hw as (s & Hs & Hws).
    destruct (threshold_attained st' s w Hs Hws) as (s' & Hs' & Hthr).
    assert (is_Some (stream_flush_watermarks st !! s')) as [f Hfs].
    { apply elem_of_dom. rewrite <- Hd. apply elem_of_dom. eauto. }
    rewrite Ha in Hs'. pose proof (threshold_lower st s' f Hs' Hfs).
    specialize (Hf _ _ _ Hfs Hthr). lia.
Qed.

Lemma primitive_advanced c st :
  consistent st → primitive c = true → registers c = false →
  streams_added_to (exec (perform c) st) = streams_added_to st →
  advanced st (exec (perform c) st).
Proof.
  intros Hc Hp Hr Hadd.
  destruct c as [stream b|stream|force order|line_data|stream line_data
                 |stream|force|line_data]; simpl in *; try done.
  - constructor; [done|..].
    + unfold handle_record_message. unfold_M.
      destruct (streams st !! stream) as [b|]; simpl; [|done].
      by destruct (add_record_message b line_data).
    + unfold handle_record_message. unfold_M.
      destruct (streams st !! stream) as [b|]; simpl.
      * destruct (add_record_message b line_data); simpl;
          intros s f f' Hf Hf'; simplify_eq; lia.
      * intros s f f' Hf Hf'; simplify_eq; lia.
  - destruct (result (_write_batch_and_update_watermarks stream) st)
      as [[]|e] eqn:Hres.
    + apply write_returned in Hres as (b & tgt & Hb & _ & ->).
      constructor; simpl; [done|..].
      * rewrite dom_insert_L, (flush_dom st Hc).
        apply elem_of_dom_2 in Hb. set_solver.
      * intros s f f' Hf. destruct (decide (s = stream)) as [->|Hne].
        -- rewrite lookup_insert_eq. intros [= <-].
           by apply (flush_le_add st Hc).
        -- rewrite lookup_insert_ne by done. intros Hf'. simplify_eq. lia.
    + destruct (write_raised _ _ _ Hres) as [tgt ->].
      constructor; simpl; [done|done|intros s f f' ? ?; simplify_eq; lia].
  - pose proof (emit_frame force st) as (_ & _ & _ & _ & _ & Hf & Ha & _).
    simpl in *. constructor; [done|by rewrite Hf|].
    rewrite Hf. intros s f f' ? ?. simplify_eq. lia.
  - unfold append_state. unfold_M.
    destruct (getitem line_data "value"); simpl; apply advanced_refl
      || (constructor; simpl; [done|done|intros s f f' ? ?; simplify_eq; lia]).
Qed.

Lemma primitives_advanced prims st :
  consistent st →
  Forall (λ c, primitive c = true) prims →
  Forall (λ c, registers c = false) prims →
  streams_added_to (run prims st) = streams_added_to st →
  advanced st (run prims st).
Proof.
  revert st. induction prims as [|c prims IH]; intros st Hc Hp Hr Hadd; simpl.
  - apply advanced_refl.
  - apply Forall_cons in Hp as [Hp1 Hp]. apply Forall_cons in Hr as [Hr1 Hr].
    simpl in Hadd.
    pose proof (primitive_added_mono c st Hp1) as Hm1.
    pose proof (primitives_added_mono prims (exec (perform c) st) Hp) as Hm2.
    rewrite Hadd in Hm2.
    assert (streams_added_to (exec (perform c) st) = streams_added_to st) as Heq
      by set_solver.
    eapply advanced_trans; [by apply primitive_advanced|].
    apply IH; [by apply primitive_consistent|done|done|].
    by rewrite Hadd, Heq.
Qed.

(** C3, as the code has it.  Over any sequence of record and flush calls
    during which no stream receives its first record, made at the end of
    any run, [_safe_flush_threshold] does not decrease. *)
Theorem threshold_monotone_without_first_record tgt emit max_lag before ops :
  let st := run before (init tgt emit max_lag) in
  let st' := run ops st in
  Forall (λ c, record_or_flush c = true) ops →
  streams_added_to st' = streams_added_to st →
  _safe_flush_threshold st ≤ _safe_flush_threshold st'.
Proof.
  simpl. intros Hops Hadd.
  pose proof (reachable_consistent tgt emit max_lag before) as Hc.
  destruct (run_decompose ops (run before (init tgt emit max_lag)))
    as (prims & Hrun & Hp & Hr).
  rewrite Hrun in *. apply advanced_threshold, primitives_advanced; try done.
  apply Hr. eapply Forall_impl; [exact Hops|]. by intros [].
Qed.

(** *** Visiting a set *)

Lemma elem_of_iter_set order (X : gset string) s :
  s ∈ iter_set order X ↔ s ∈ X.
Proof.
  unfold iter_set. rewrite elem_of_app, !list_elem_of_filter,
    elem_of_remove_dups, elem_of_elements.
  destruct (decide (s ∈ order)); tauto.
Qed.

Lemma NoDup_iter_set order (X : gset string) : NoDup (iter_set order X).
Proof.
  unfold iter_set. apply NoDup_app. split; [|split].
  - apply NoDup_filter, NoDup_remove_dups.
  - intros x [_ Hx]%list_elem_of_filter [Hn _]%list_elem_of_filter.
    rewrite elem_of_remove_dups in Hx. by apply Hn.
  - apply NoDup_filter, NoDup_elements.
Qed.

Lemma remove_dups_NoDup (l : list string) : NoDup l → remove_dups l = l.
Proof.
  induction 1 as [|x l Hx Hl IH]; simpl; [done|].
  destruct (decide_rel elem_of x l); [done|]. by rewrite IH.
Qed.

Lemma filter_all {A} (P : A → Prop) `{∀ x, Decision (P x)} (l : list A) :
  Forall P l → filter P l = l.
Proof.
  induction 1 as [|x l Hx Hl IH]; [done|].
  rewrite filter_cons_True by done. by rewrite IH.
Qed.

Lemma filter_none {A} (P : A → Prop) `{∀ x, Decision (P x)} (l : list A) :
  Forall (λ x, ¬ P x) l → filter P l = [].
Proof.
  induction 1 as [|x l Hx Hl IH]; [done|].
  by rewrite filter_cons_False.
Qed.

(** Every enumeration of a set is the order of some visit. *)
Lemma iter_set_enumeration order (X : gset string) :
  NoDup order → (∀ s, s ∈ order ↔ s ∈ X) → iter_set order X = order.
Proof.
  intros Hnd Hiff. unfold iter_set.
  rewrite remove_dups_NoDup by done.
  rewrite filter_all by (apply Forall_forall; intros x Hx; by apply Hiff).
  rewrite filter_none; [by rewrite app_nil_r|].
  apply Forall_forall. intros x Hx%elem_of_elements Hn. by apply Hn, Hiff.
Qed.

(** *** Flushing a list of streams *)

Lemma write_frame stream st :
  let st' := exec (_write_batch_and_update_watermarks stream) st in
  emit_states st' = emit_states st
  ∧ max_watermark_lag st' = max_watermark_lag st
  ∧ stream_add_watermarks st' = stream_add_watermarks st
  ∧ streams_added_to st' = streams_added_to st
  ∧ state_queue st' = state_queue st
  ∧ message_counter st' = message_counter st
  ∧ last_emitted_state st' = last_emitted_state st
  ∧ stdout st' = stdout st
  ∧ ∀ s, s ≠ stream →
      stream_flush_watermarks st' !! s = stream_flush_watermarks st !! s
      ∧ streams st' !! s = streams st !! s.
Proof.
  simpl.
  destruct (result (_write_batch_and_update_watermarks stream) st)
    as [[]|e] eqn:Hres.
  - apply write_returned in Hres as (b & tgt & _ & _ & ->). simpl.
    repeat split; try done; by rewrite lookup_insert_ne.
  - by destruct (write_raised _ _ _ Hres) as [tgt ->].
Qed.

Lemma for_each_app (xs ys : list string) (body : string → M unit) st :
  result (for_each xs body) st = Returned tt →
  for_each (xs ++ ys) body st = for_each ys body (exec (for_each xs body) st).
Proof.
  revert st. induction xs as [|x xs IH]; intros st; simpl; [done|].
  unfold_M. destruct (body x st) as [[[]|e] st1]; simpl; [|done].
  apply IH.
Qed.

Lemma for_each_write_returned (xs : list string) st :
  NoDup xs →
  result (for_each xs _write_batch_and_update_watermarks) st = Returned tt →
  let st' := exec (for_each xs _write_batch_and_update_watermarks) st in
  stream_add_watermarks st' = stream_add_watermarks st
  ∧ streams_added_to st' = streams_added_to st
  ∧ state_queue st' = state_queue st
  ∧ message_counter st' = message_counter st
  ∧ last_emitted_state st' = last_emitted_state st
  ∧ stdout st' = stdout st
  ∧ (∀ s, s ∈ xs →
       stream_flush_watermarks st' !! s = Some (add_watermark st s)
       ∧ streams st' !! s = flush_buffer <$> streams st !! s)
  ∧ (∀ s, s ∉ xs →
       stream_flush_watermarks st' !! s = stream_flush_watermarks st !! s
       ∧ streams st' !! s = streams st !! s).
Proof.
  revert st. induction xs as [|x xs IH]; intros st Hnd Hres; simpl.
  - split_and!; try done. intros s Hs. by apply elem_of_nil in Hs.
  - apply NoDup_cons in Hnd as [Hx Hnd]. simpl in Hres.
    destruct (result (_write_batch_and_update_watermarks x) st)
      as [[]|e] eqn:Hw.
    2:{ by rewrite (result_seq_raised _ _ _ _ Hw) in Hres. }
    rewrite (result_seq _ _ _ _ Hw) in Hres.
    rewrite (exec_seq _ _ _ _ Hw).
    specialize (IH _ Hnd Hres). simpl in IH.
    destruct IH as (Ha & Hadd & Hq & Hm & Hl & Ho & Hin & Hout).
    pose proof (write_frame x st) as (_ & _ & Ha1 & Hadd1 & Hq1 & Hm1 & Hl1 & Ho1 & Hf1).
    simpl in *.
    rewrite Ha, Hadd, Hq, Hm, Hl, Ho. split_and!; try done.
    + intros s [->|Hs]%elem_of_cons.
      * destruct (Hout _ Hx) as [-> ->].
        apply write_returned in Hw as (b & tgt & Hb & _ & ->). simpl.
        rewrite !lookup_insert_eq. by rewrite Hb.
      * destruct (Hin _ Hs) as [-> ->]. unfold add_watermark. rewrite Ha1.
        split; [done|]. f_equal. apply Hf1. by intros ->.
    + intros s Hs. apply not_elem_of_cons in Hs as [Hne Hs].
      destruct (Hout _ Hs) as [-> ->]. by apply Hf1.
Qed.

Lemma emit_forced_empties st :
  state_queue (exec (_emit_safe_queued_states true) st) = [].
Proof.
  rewrite emit_queue.
  destruct (pop_safe_spec true (_safe_flush_threshold st) (state_queue st) None)
    as (_ & _ & _ & _ & Hhead).
  destruct (pop_safe _ _ _ _).2 as [|e rest]; [done|].
  exfalso. apply Hhead. by left.
Qed.

Lemma lag_guard_true st :
  state_queue st ≠ [] →
  message_counter st - _safe_flush_threshold st > max_watermark_lag st →
  lag_guard st = true.
Proof.
  intros Hq Hlag. unfold lag_guard. apply andb_true_iff. split.
  - apply bool_decide_eq_true. destruct (state_queue st); [done|simpl; lia].
  - by apply bool_decide_eq_true.
Qed.

Lemma full_or_forced_registered force st :
  full_or_forced force st ⊆ dom (streams st).
Proof.
  unfold full_or_forced. intros s [b Hb]%elem_of_dom.
  apply map_lookup_filter_Some in Hb as [Hb _]. by apply elem_of_dom_2 in Hb.
Qed.

(** C8, as the code has it.  When the queue is not empty and the message
    counter exceeds the threshold by more than [max_watermark_lag],
    [flush_streams_if_required] visits every registered stream once,
    whatever [force] and [buffer_full] say, writes and flushes each one
    until a write raises, and then runs the gate with [force] set.  When
    no write raises, every registered stream ends with a flushed buffer and
    a flush watermark equal to its add watermark, and the queue is empty,
    whether the call then returns or the diff of the gate raises. *)
Theorem eager_flush_on_lag st force order :
  state_queue st ≠ [] →
  message_counter st - _safe_flush_threshold st > max_watermark_lag st →
  let xs := iter_set order (streams_to_flush force st) in
  let st' := exec (flush_streams_if_required force order) st in
  NoDup xs
  ∧ (∀ s, s ∈ xs ↔ s ∈ dom (streams st))
  ∧ flush_streams_if_required force order st
    = (for_each xs _write_batch_and_update_watermarks ;;
       _emit_safe_queued_states true) st
  ∧ (result (flush_streams_if_required force order) st = Returned tt →
       (∀ s b, streams st !! s = Some b →
          streams st' !! s = Some (flush_buffer b)
          ∧ stream_flush_watermarks st' !! s = Some (add_watermark st s))
       ∧ state_queue st' = [])
  ∧ (result (for_each xs _write_batch_and_update_watermarks) st = Returned tt →
       (∀ s b, streams st !! s = Some b →
          streams st' !! s = Some (flush_buffer b)
          ∧ stream_flush_watermarks st' !! s = Some (add_watermark st s))
       ∧ state_queue st' = []).
Proof.
  intros Hq Hlag xs st'.
  pose proof (lag_guard_true st Hq Hlag) as Hguard.
  assert (streams_to_flush force st = dom (streams st)) as Hset.
  { unfold streams_to_flush. rewrite Hguard.
    pose proof (full_or_forced_registered force st). set_solver. }
  assert (flush_streams_if_required force order st
          = (for_each xs _write_batch_and_update_watermarks ;;
             _emit_safe_queued_states true) st) as Heq.
  { unfold flush_streams_if_required, force_after_guard. unfold_M.
    by rewrite Hguard. }
  assert (result (for_each xs _write_batch_and_update_watermarks) st
          = Returned tt →
          (∀ s b, streams st !! s = Some b →
             streams st' !! s = Some (flush_buffer b)
             ∧ stream_flush_watermarks st' !! s = Some (add_watermark st s))
          ∧ state_queue st' = []) as Hwritten; [|split_and!].
  - subst st'. unfold exec. rewrite Heq.
    fold (exec (for_each xs _write_batch_and_update_watermarks ;;
                _emit_safe_queued_states true) st).
    intros Hloop.
    rewrite (exec_seq _ _ _ _ Hloop).
    pose proof (for_each_write_returned xs st (NoDup_iter_set _ _) Hloop)
      as (_ & _ & _ & _ & _ & _ & Hin & _). simpl in Hin.
    pose proof (emit_frame true
                  (exec (for_each xs _write_batch_and_update_watermarks) st))
      as (_ & _ & _ & Hs & _ & Hf & _). simpl in Hs, Hf.
    split; [|apply emit_forced_empties].
    intros s b Hb. rewrite Hs, Hf.
    assert (s ∈ xs) as Hsx.
    { subst xs. rewrite elem_of_iter_set, Hset. by apply elem_of_dom_2 in Hb. }
    destruct (Hin s Hsx) as [-> ->]. by rewrite Hb.
  - apply NoDup_iter_set.
  - intros s. subst xs. by rewrite elem_of_iter_set, Hset.
  - done.
  - unfold result. rewrite Heq.
    fold (result (for_each xs _write_batch_and_update_watermarks ;;
                  _emit_safe_queued_states true) st).
    intros Hres. apply Hwritten.
    destruct (result (for_each xs _write_batch_and_update_watermarks) st)
      as [[]|e] eqn:Hloop; [done|].
    by rewrite (result_seq_raised _ _ _ _ Hloop) in Hres.
  - done.
Qed.

(** C9. Let [flush_streams_if_required] visit the streams [done_], all of
    them written successfully, and then [failing], whose [write_batch]
    raises.  The call raises that error at once: the tracker is left as
    the writes of [done_] left it, but for the target, which is as that one
    failed attempt left it (no second attempt was made, and no later
    stream was written).  The buffer and the flush watermark of [failing]
    are as before the call, the flush watermark of each stream of [done_]
    is at its add watermark, and the queue, the output and
    [last_emitted_state] are untouched. *)
Theorem write_failure_aborts_flush st force order done_ failing rest b tgt :
  let st1 := exec (for_each done_ _write_batch_and_update_watermarks) st in
  let st' := exec (flush_streams_if_required force order) st in
  iter_set order (streams_to_flush force st) = done_ ++ failing :: rest →
  result (for_each done_ _write_batch_and_update_watermarks) st = Returned tt →
  streams st1 !! failing = Some b →
  write_batch (target st1) b = (false, tgt) →
  result (flush_streams_if_required force order) st = Raised WriteBatchError
  ∧ st' = set_target tgt st1
  ∧ target st' = tgt
  ∧ streams st' !! failing = streams st !! failing
  ∧ stream_flush_watermarks st' !! failing
    = stream_flush_watermarks st !! failing
  ∧ (∀ s, s ∈ done_ →
       stream_flush_watermarks st' !! s = Some (add_watermark st s))
  ∧ state_queue st' = state_queue st
  ∧ stdout st' = stdout st
  ∧ last_emitted_state st' = last_emitted_state st.
Proof.
  intros st1 st' Hxs Hdone Hb Hw.
  pose proof (NoDup_iter_set order (streams_to_flush force st)) as Hnd.
  rewrite Hxs in Hnd. apply NoDup_app in Hnd as (Hnd & Hdisj & Hnd2).
  assert (failing ∉ done_) as Hfail.
  { intros Hin. apply (Hdisj _ Hin). apply list_elem_of_here. }
  destruct (write_refused failing st1 b tgt Hb Hw) as [Hraise Hst].
  assert (flush_streams_if_required force order st
          = (Raised WriteBatchError, set_target tgt st1)) as Heq.
  { unfold flush_streams_if_required.
    change ((for_each (iter_set order (streams_to_flush force st))
               _write_batch_and_update_watermarks ;;
             _emit_safe_queued_states (force_after_guard force st)) st
            = (Raised WriteBatchError, set_target tgt st1)).
    rewrite Hxs. unfold mbind, M_bind, bind.
    rewrite (for_each_app _ _ _ _ Hdone). fold st1. simpl.
    unfold mbind, M_bind, bind.
    unfold result in Hraise. unfold exec in Hst.
    destruct (_write_batch_and_update_watermarks failing st1) as [r st2].
    simpl in *. by subst. }
  pose proof (for_each_write_returned done_ st Hnd Hdone)
    as (_ & _ & Hq & _ & Hl & Ho & Hin & Hout). simpl in *.
  fold st1 in Hq, Hl, Ho, Hin, Hout.
  assert (st' = set_target tgt st1) as ->
    by (subst st'; unfold exec; by rewrite Heq).
  split; [unfold result; by rewrite Heq|]. split; [done|]. simpl.
  split; [done|]. split; [by apply Hout|].
  split; [by apply Hout|]. split; [|done].
  intros s Hs. by apply Hin.
Qed.

End Properties.

(** ** The properties on concrete runs *)

Import Example.

Ltac by_compute := apply (bool_decide_unpack _); vm_compute; exact I.

(** C1 on a run: the state queued after two records of [cats] is popped once [cats] is flushed, and both records are covered. *)
Lemma no_premature_emission_witness :
  let st := run covered_run (tracker0 1000000) in
  Entry state_1 2 ∈ popped_entries false st
  ∧ ("cats", 2) ∈ records covered_run (tracker0 1000000)
  ∧ 2 ≤ watermark (Entry state_1 2)
  ∧ ∃ f, stream_flush_watermarks st !! "cats" = Some f ∧ 2 ≤ f.
Proof.
  assert (Entry state_1 2 ∈ popped_entries false (run covered_run (tracker0 1000000)))
    as H1 by (vm_compute; constructor).
  assert (("cats", 2) ∈ records covered_run (tracker0 1000000)) as H2
    by (vm_compute; repeat constructor).
  assert (2 ≤ watermark (Entry state_1 2)) as H3 by (simpl; lia).
  split; [exact H1|]. split; [exact H2|]. split; [exact H3|].
  exact (no_premature_emission no_batches true 1000000 covered_run
           (Entry state_1 2) "cats" 2 H1 H2 H3).
Defined.

(** C2 on a run: with [cats] flushed at 3, [dogs] at 2 and [birds] never fed, the threshold is 2, the flush watermark of [dogs]; the flush watermark of [birds] does not count. *)
Lemma safe_threshold_is_min_over_active_witness :
  let st := run three_streams_run (tracker0 1000000) in
  active st ≠ ∅
  ∧ "birds" ∈ dom (streams st) ∧ ("birds" ∉ streams_added_to st)
  ∧ _safe_flush_threshold st = 2
  ∧ (∃ s, s ∈ active st
          ∧ stream_flush_watermarks st !! s = Some (_safe_flush_threshold st))
  ∧ _safe_flush_threshold
      (set_stream_flush_watermarks
         (<["birds" := 7]> (stream_flush_watermarks st)) st)
    = _safe_flush_threshold st.
Proof.
  intros st.
  assert (active st ≠ ∅) as H1 by by_compute.
  assert ("birds" ∈ dom (streams st)) as H2 by by_compute.
  assert ("birds" ∉ streams_added_to st) as H3 by by_compute.
  destruct (safe_threshold_is_min_over_active no_batches true 1000000 three_streams_run)
    as (_ & _ & _ & Hmin & Hout).
  split; [exact H1|]. split; [exact H2|]. split; [exact H3|].
  split; [reflexivity|]. split; [exact (Hmin H1)|exact (Hout "birds" 7 H2 H3)].
Defined.

(** C3 fails as stated: a record, a flush and the first record of another stream take the threshold from 1 to 0. *)
Lemma first_record_lowers_threshold :
  let st := run two_streams (tracker0 1000000) in
  let ops := [record_call "cats" 1; WriteBatchAndUpdateWatermarks "cats"] in
  let ops' := ops ++ [record_call "dogs" 2] in
  Forall (λ c, record_or_flush c = true) ops'
  ∧ _safe_flush_threshold (run ops st) = 1
  ∧ _safe_flush_threshold (run ops' st) = 0.
Proof. split; [repeat constructor|]. split; reflexivity. Qed.

(** C3 on a run in which both streams already have records. *)
Lemma threshold_monotone_without_first_record_witness :
  let before := two_streams ++ [record_call "cats" 1; record_call "dogs" 2] in
  let ops := [WriteBatchAndUpdateWatermarks "cats"; record_call "cats" 3;
              FlushStream "dogs"; FlushStreamsIfRequired false []] in
  let st := run before (tracker0 1000000) in
  Forall (λ c, record_or_flush c = true) ops
  ∧ streams_added_to (run ops st) = streams_added_to st
  ∧ _safe_flush_threshold st ≤ _safe_flush_threshold (run ops st).
Proof.
  intros before ops st.
  assert (Forall (λ c, record_or_flush c = true) ops) as H1
    by (repeat constructor).
  assert (streams_added_to (run ops st) = streams_added_to st) as H2
    by (vm_compute; reflexivity).
  split; [exact H1|]. split; [exact H2|].
  exact (threshold_monotone_without_first_record no_batches true 1000000 before ops H1 H2).
Defined.

(** C4 on a run, for the stream [dogs]. *)
Lemma flush_watermark_le_add_watermark_witness :
  let st := run three_streams_run (tracker0 1000000) in
  "dogs" ∈ dom (streams st)
  ∧ ∃ f, stream_flush_watermarks st !! "dogs" = Some f
         ∧ f ≤ default 0 (stream_add_watermarks st !! "dogs").
Proof.
  intros st. assert ("dogs" ∈ dom (streams st)) as H1 by by_compute.
  split; [exact H1|].
  exact (flush_watermark_le_add_watermark no_batches true 1000000 three_streams_run
           "dogs" H1).
Defined.

(** C5 on a run: three states become safe together and only the third is written. *)
Lemma only_latest_wins_witness :
  let st := run three_states_run (tracker0 1000000) in
  let st' := exec (_emit_safe_queued_states false) st in
  state_queue st = [Entry state_1 1; Entry state_2 2; Entry state_3 3]
  ∧ stdout st = [] ∧ stdout st' = [json_dumps state_3]
  ∧ ∃ popped,
      state_queue st = popped ++ state_queue st'
      ∧ Forall (safe false (_safe_flush_threshold st)) popped
      ∧ Forall (λ e, ¬ safe false (_safe_flush_threshold st) e) (state_queue st')
      ∧ (stdout st' = stdout st
         ∨ ∃ e, last popped = Some e
                ∧ stdout st' = stdout st ++ [json_dumps (state e)]).
Proof.
  split; [reflexivity|]. split; [reflexivity|]. split; [reflexivity|].
  exact (only_latest_wins no_batches true 1000000 three_states_run false).
Defined.

(** C6 fails as stated, in three ways.  The state [{}] is popped after [state-1] was emitted; its diff against [state-1] has one element, yet nothing is written and [last_emitted_state] keeps [state-1].  The state [{'a': {'b': 1}}] is popped after [{'a': [1]}] was emitted: the diff raises [TypeError], nothing is written and [last_emitted_state] keeps the older state.  The true state [{'a': {}}] is chosen twice in a row on a new tracker, and no line is written at all. *)
Lemma states_neither_written_nor_recorded :
  (let st := run empty_state_run (tracker0 1000000) in
   let st' := exec (_emit_safe_queued_states false) st in
   popped_entries false st = [Entry (JDict []) 0]
   ∧ last_emitted_state st = Some state_1
   ∧ statediff_diff_len (JDict []) (or_empty_dict (last_emitted_state st))
     = Some 1%nat
   ∧ result (_emit_safe_queued_states false) st = Returned tt
   ∧ stdout st' = stdout st
   ∧ last_emitted_state st' = Some state_1)
  ∧ (let st := run unsortable_run (tracker0 1000000) in
     let st' := exec (_emit_safe_queued_states false) st in
     popped_entries false st = [Entry state_dict 0]
     ∧ last_emitted_state st = Some state_list
     ∧ truthy state_dict = true
     ∧ statediff_diff_len state_dict (or_empty_dict (last_emitted_state st))
       = None
     ∧ result (_emit_safe_queued_states false) st = Raised TypeError
     ∧ state_queue st' = []
     ∧ stdout st' = stdout st
     ∧ last_emitted_state st' = Some state_list)
  ∧ (let st := run hollow_run (tracker0 1000000) in
     let st' := exec (_emit_safe_queued_states false) st in
     let st2 := exec (append_state (state_message state_hollow)) st' in
     let st2' := exec (_emit_safe_queued_states false) st2 in
     popped_entries false st = [Entry state_hollow 0]
     ∧ popped_entries false st2 = [Entry state_hollow 0]
     ∧ truthy state_hollow = true
     ∧ statediff_diff_len state_hollow (or_empty_dict (last_emitted_state st))
       = Some 0%nat
     ∧ last_emitted_state st' = Some state_hollow
     ∧ last_emitted_state st2' = Some state_hollow
     ∧ stdout st = [] ∧ stdout st' = [] ∧ stdout st2' = []).
Proof. cbv zeta. split_and!; reflexivity. Qed.

(** C6 on a run: [state-1] is chosen on a new tracker and written, and [state-1] chosen right after it is not written again: one line in all. *)
Lemma dedup_against_last_emitted_witness :
  let st := run first_state_run (tracker0 1000000) in
  let st' := exec (_emit_safe_queued_states false) st in
  let st2 := exec (append_state (state_message state_1)) st' in
  let st2' := exec (_emit_safe_queued_states false) st2 in
  state_queue st = [Entry state_1 0] ++ state_queue st'
  ∧ last [Entry state_1 0] = Some (Entry state_1 0)
  ∧ truthy (state (Entry state_1 0)) = true
  ∧ statediff_diff_len state_1 (or_empty_dict (last_emitted_state st))
    = Some 1%nat
  ∧ state_queue st2 = [Entry state_1 0] ++ state_queue st2'
  ∧ statediff_diff_len state_1 state_1 = Some 0%nat
  ∧ stdout st = []
  ∧ stdout st' = stdout st ++ [json_dumps state_1]
  ∧ last_emitted_state st' = Some state_1
  ∧ result (_emit_safe_queued_states false) st2 = Returned tt
  ∧ last_emitted_state st2' = Some state_1
  ∧ stdout st2' = stdout st ++ [json_dumps state_1].
Proof.
  intros st st' st2 st2'.
  assert (state_queue st = [Entry state_1 0] ++ state_queue st') as H1
    by reflexivity.
  assert (last [Entry state_1 0] = Some (Entry state_1 0)) as H2 by reflexivity.
  assert (truthy (state (Entry state_1 0)) = true) as H3 by reflexivity.
  assert (statediff_diff_len (state (Entry state_1 0))
            (or_empty_dict (last_emitted_state st)) = Some 1%nat) as H4
    by reflexivity.
  assert (state_queue st2 = [Entry state_1 0] ++ state_queue st2') as H5
    by reflexivity.
  assert (statediff_diff_len (state (Entry state_1 0)) (state (Entry state_1 0))
          = Some 0%nat) as H6 by reflexivity.
  pose (e := Entry state_1 0).
  destruct (dedup_against_last_emitted st false [e] e 1%nat H1 H2 H3 H4)
    as (_ & Hout & _ & Hlast & Hnext).
  destruct (Hnext st2 false [e] e eq_refl H5 H2 H3 H6)
    as (Hres2 & _ & Hlast2 & Hone).
  split; [exact H1|]. split; [exact H2|]. split; [exact H3|].
  split; [exact H4|]. split; [exact H5|]. split; [exact H6|].
  split; [reflexivity|]. split; [apply Hout; lia|]. split; [exact Hlast|].
  split; [exact Hres2|]. split; [exact Hlast2|].
  apply Hone; [reflexivity|lia].
Defined.

(** C7 fails as stated: registering [cats] again takes its flush watermark from 2 to 0; the add watermark stays 2. *)
Lemma reregistration_resets_flush_watermark :
  let st := run flushed_run (tracker0 1000000) in
  let st' := exec (register_stream "cats" roomy) st in
  "cats" ∈ dom (streams st)
  ∧ stream_flush_watermarks st !! "cats" = Some 2
  ∧ stream_flush_watermarks st' !! "cats" = Some 0
  ∧ stream_add_watermarks st' !! "cats" = Some 2.
Proof. split; [by_compute|]. repeat split; reflexivity. Qed.

(** C7 on a run: [cats] registered again with another buffer. *)
Lemma register_stream_spec_witness :
  let st := run flushed_run (tracker0 1000000) in
  let st' := exec (register_stream "cats" refused) st in
  streams st' !! "cats" = Some refused
  ∧ stream_flush_watermarks st' !! "cats" = Some 0
  ∧ stream_add_watermarks st' = stream_add_watermarks st
  ∧ streams_added_to st' = streams_added_to st.
Proof.
  intros st st'.
  destruct (register_stream_spec st "cats" refused)
    as (Hs & Hf & Ha & Hadd & _).
  split; [|split; [exact Hf|split; [exact Ha|exact Hadd]]].
  reflexivity.
Defined.

(** C8 fails as stated: with a lag limit of 0, one record and no queued state, the lag is 1 and [flush_streams_if_required] flushes nothing. *)
Lemma no_eager_flush_with_empty_queue :
  let st := lagging_without_state in
  let st' := exec (flush_streams_if_required false []) st in
  message_counter st - _safe_flush_threshold st > max_watermark_lag st
  ∧ "cats" ∈ dom (streams st)
  ∧ result (flush_streams_if_required false []) st = Returned tt
  ∧ target st' = []
  ∧ stream_flush_watermarks st' !! "cats" = Some 0
  ∧ stream_add_watermarks st' !! "cats" = Some 1
  ∧ st' = st.
Proof.
  split; [by_compute|]. split; [by_compute|]. repeat split; reflexivity.
Qed.

(** C8 on a run: a queued state and a lag of 3 over a limit of 1 flush both streams, neither of them full. *)
Lemma eager_flush_on_lag_witness :
  let st := lagging_with_state in
  let st' := exec (flush_streams_if_required false []) st in
  state_queue st ≠ []
  ∧ message_counter st - _safe_flush_threshold st > max_watermark_lag st
  ∧ buffer_full roomy = false
  ∧ result (flush_streams_if_required false []) st = Returned tt
  ∧ (stream_flush_watermarks st' !! "dogs" = Some 3
     ∧ stream_flush_watermarks st' !! "cats" = Some 2)
  ∧ state_queue st' = [].
Proof.
  intros st st'.
  assert (state_queue st ≠ []) as H1 by (vm_compute; discriminate).
  assert (message_counter st - _safe_flush_threshold st > max_watermark_lag st)
    as H2 by by_compute.
  assert (result (flush_streams_if_required false []) st = Returned tt) as H3
    by reflexivity.
  destruct (eager_flush_on_lag st false [] H1 H2) as (_ & _ & _ & Hall & _).
  destruct (Hall H3) as [Hflush Hq].
  split; [exact H1|]. split; [exact H2|]. split; [reflexivity|].
  split; [exact H3|]. split; [|exact Hq]. split.
  - destruct (Hflush "dogs" (Buffer [record_message "dogs" 3] 20 false)
                eq_refl) as [_ Hd]. exact Hd.
  - destruct (Hflush "cats"
                (Buffer [record_message "cats" 1; record_message "cats" 2]
                        20 false) eq_refl) as [_ Hc]. exact Hc.
Defined.

(** C9 on a run: [cats] is written, the batch of [dogs] is refused; the target has seen the batch of [cats] and one attempt at that of [dogs]. *)
Lemma write_failure_aborts_flush_witness :
  let st := refusing in
  let st' := exec (flush_streams_if_required true ["cats"; "dogs"]) st in
  result (flush_streams_if_required true ["cats"; "dogs"]) st
  = Raised WriteBatchError
  ∧ target st' = [(1%nat, true); (1%nat, false)]
  ∧ streams st' !! "dogs" = streams st !! "dogs"
  ∧ stream_flush_watermarks st' !! "dogs" = stream_flush_watermarks st !! "dogs"
  ∧ stream_flush_watermarks st' !! "cats" = Some 1
  ∧ state_queue st' = state_queue st
  ∧ stdout st' = stdout st.
Proof.
  intros st st'.
  assert (iter_set ["cats"; "dogs"] (streams_to_flush true st)
          = ["cats"] ++ "dogs" :: []) as H1 by (vm_compute; reflexivity).
  assert (result (for_each ["cats"] _write_batch_and_update_watermarks) st
          = Returned tt) as H2 by reflexivity.
  assert (streams (exec (for_each ["cats"] _write_batch_and_update_watermarks) st)
            !! "dogs"
          = Some (Buffer [record_message "dogs" 2] 20 true)) as H3
    by reflexivity.
  assert (write_batch
            (target (exec (for_each ["cats"] _write_batch_and_update_watermarks) st))
            (Buffer [record_message "dogs" 2] 20 true)
          = (false, [(1%nat, true); (1%nat, false)])) as H4
    by reflexivity.
  destruct (write_failure_aborts_flush st true ["cats"; "dogs"] ["cats"] "dogs"
              [] _ _ H1 H2 H3 H4) as (Hr & Hst & Ht & Hs & Hf & Hd & Hq & Ho & _).
  split; [exact Hr|]. split; [exact Ht|]. split; [exact Hs|]. split; [exact Hf|].
  split; [|split; [exact Hq|exact Ho]].
  exact (Hd "cats" (list_elem_of_here _ _)).
Defined.

(** C10 on a run: a record for the unregistered [birds], and one for [cats]. *)
Lemma handle_record_message_spec_witness :
  let st := run flushed_run (tracker0 1000000) in
  ("birds" ∉ dom (streams st))
  ∧ result (handle_record_message "birds" (record_message "birds" 1)) st
    = Raised (TargetError "birds")
  ∧ exec (handle_record_message "birds" (record_message "birds" 1)) st = st
  ∧ "cats" ∈ dom (streams st)
  ∧ message_counter
      (exec (handle_record_message "cats" (record_message "cats" 3)) st)
    = message_counter st + 1.
Proof.
  intros st.
  assert ("birds" ∉ dom (streams st)) as H1 by by_compute.
  assert ("cats" ∈ dom (streams st)) as H2 by by_compute.
  destruct (handle_record_message_spec st "birds" (record_message "birds" 1))
    as (_ & Hsame & _).
  destruct (handle_record_message_spec st "cats" (record_message "cats" 3))
    as (_ & _ & Hreg).
  destruct (Hreg H2) as (Hc & _).
  split; [exact H1|]. split; [reflexivity|]. split; [exact (Hsame H1)|].
  split; [exact H2|exact Hc].
Defined.

(** ** Further properties of the tracker *)

Section MoreProperties.
Context `{Collaborators}.

Implicit Types (st : StreamTracker) (stream s : string) (q queue : list entry).

Ltac unfold_M :=
  unfold exec, result, mbind, M_bind, bind, mret, M_ret, ret, get, modify,
    raise, when in *; simpl in *.

(** *** What the body of a call is made of *)

Ltac parts :=
  repeat (apply Forall_cons; split); try apply Forall_nil; simpl;
  try done; eauto.

Lemma perform_parts c st :
  ∃ prims,
    exec (perform c) st = run prims st
    ∧ Forall (made_of c) prims
    ∧ Forall (λ c', primitive c' = true) prims.
Proof.
  destruct c as [stream b|stream|force order|line_data|stream line_data
                 |stream|force|line_data]; simpl.
  - exists [RegisterStream stream b]. split; [done|]. split; parts.
  - unfold flush_stream.
    destruct (result (_write_batch_and_update_watermarks stream) st)
      as [[]|e] eqn:Hres.
    + exists [WriteBatchAndUpdateWatermarks stream; EmitSafeQueuedStates false].
      split; [simpl; by rewrite (exec_seq _ _ _ _ Hres)|]. split; parts.
    + exists [WriteBatchAndUpdateWatermarks stream].
      split; [simpl; by rewrite (exec_seq_raised _ _ _ _ Hres)|]. split; parts.
  - unfold flush_streams_if_required.
    set (xs := iter_set order (streams_to_flush force st)).
    set (f := force_after_guard force st).
    destruct (for_each_write_decompose xs st) as [l Hl].
    assert (Forall (made_of (FlushStreamsIfRequired force order))
                   (WriteBatchAndUpdateWatermarks <$> l)) as Hparts.
    { apply Forall_fmap, Forall_forall. intros x _. left. by exists x. }
    assert (Forall (λ c', primitive c' = true)
                   (WriteBatchAndUpdateWatermarks <$> l)) as Hprims.
    { apply Forall_fmap, Forall_forall. by intros x _. }
    destruct (result (for_each xs _write_batch_and_update_watermarks) st)
      as [[]|e] eqn:Hres.
    + exists ((WriteBatchAndUpdateWatermarks <$> l) ++ [EmitSafeQueuedStates f]).
      split; [|split].
      * rewrite run_app. simpl. rewrite <- Hl.
        change (exec (for_each xs _write_batch_and_update_watermarks ;;
                      _emit_safe_queued_states f) st =
                exec (_emit_safe_queued_states f)
                  (exec (for_each xs _write_batch_and_update_watermarks) st)).
        by rewrite (exec_seq _ _ _ _ Hres).
      * apply Forall_app. split; [done|]. parts.
      * apply Forall_app. split; [done|]. parts.
    + exists (WriteBatchAndUpdateWatermarks <$> l). split; [|done].
      rewrite <- Hl.
      change (exec (for_each xs _write_batch_and_update_watermarks ;;
                    _emit_safe_queued_states f) st =
              exec (for_each xs _write_batch_and_update_watermarks) st).
      by rewrite (exec_seq_raised _ _ _ _ Hres).
  - unfold handle_state_message.
    change (exec (st' ← get; when (emit_states st')
                    (append_state line_data ;; _emit_safe_queued_states false)) st)
      with (exec (when (emit_states st)
                    (append_state line_data ;; _emit_safe_queued_states false)) st).
    destruct (emit_states st); simpl.
    + destruct (result (append_state line_data) st) as [[]|e] eqn:Hres.
      * exists [AppendState line_data; EmitSafeQueuedStates false].
        split; [simpl; by rewrite (exec_seq _ _ _ _ Hres)|]. split; parts.
      * exists [AppendState line_data].
        split; [simpl; by rewrite (exec_seq_raised _ _ _ _ Hres)|]. split; parts.
    + exists []. split; [done|]. split; parts.
  - exists [HandleRecordMessage stream line_data]. split; [done|]. split; parts.
  - exists [WriteBatchAndUpdateWatermarks stream]. split; [done|]. split; parts.
  - exists [EmitSafeQueuedStates force]. split; [done|]. split; parts.
  - exists [AppendState line_data]. split; [done|]. split; parts.
Qed.

Lemma made_of_adds_record c c' :
  made_of c c' → adds_record c = false → adds_record c' = false.
Proof. destruct c; simpl; naive_solver. Qed.

(** A preorder that every primitive call other than [handle_record_message]
    respects is respected by every call other than it. *)
Lemma perform_respects (R : relation StreamTracker) c st :
  Reflexive R → Transitive R →
  (∀ c' st', primitive c' = true → adds_record c' = false →
             R st' (exec (perform c') st')) →
  adds_record c = false →
  R st (exec (perform c) st).
Proof.
  intros Hrefl Htrans Hprim Hc.
  destruct (perform_parts c st) as (prims & -> & Hparts & Hp).
  revert st. induction prims as [|c' prims IH]; intros st; simpl; [done|].
  apply Forall_cons in Hparts as [Hc' Hparts].
  apply Forall_cons in Hp as [Hp' Hp].
  etrans; [|by apply IH]. apply Hprim; [done|].
  by eapply made_of_adds_record.
Qed.

(** *** The counter and the add watermarks *)

Lemma ledger_frame c st :
  adds_record c = false → same_ledger st (exec (perform c) st).
Proof.
  apply perform_respects.
  - by intros ?.
  - intros a b c' (? & ? & ?) (? & ? & ?). repeat split; congruence.
  - clear c st. intros c st Hp Hc.
    destruct c as [stream b|stream|force order|line_data|stream line_data
                   |stream|force|line_data]; simpl in *; try done.
    + pose proof (write_frame stream st) as (_ & _ & ? & ? & _ & ? & _).
      by repeat split.
    + pose proof (emit_frame force st) as (_ & _ & _ & _ & ? & _ & ? & ?).
      by repeat split.
    + unfold append_state. unfold_M.
      by destruct (getitem line_data "value").
Qed.

Lemma record_ledger stream line_data st :
  let st' := exec (handle_record_message stream line_data) st in
  match streams st !! stream with
  | Some _ =>
      message_counter st' = message_counter st + 1
      ∧ stream_add_watermarks st'
        = <[stream := message_counter st + 1]> (stream_add_watermarks st)
      ∧ streams_added_to st' = {[stream]} ∪ streams_added_to st
  | None => st' = st
  end.
Proof.
  unfold handle_record_message. unfold_M.
  destruct (streams st !! stream) as [b|]; simpl; [|done].
  by destruct (add_record_message b line_data).
Qed.

Lemma accepted_cases c st :
  (accepted c st = [] ∧ same_ledger st (exec (perform c) st))
  ∨ ∃ stream line_data,
      c = HandleRecordMessage stream line_data
      ∧ accepted c st = [(stream, message_counter st + 1)]
      ∧ message_counter (exec (perform c) st) = message_counter st + 1
      ∧ stream_add_watermarks (exec (perform c) st)
        = <[stream := message_counter st + 1]> (stream_add_watermarks st)
      ∧ streams_added_to (exec (perform c) st)
        = {[stream]} ∪ streams_added_to st.
Proof.
  destruct (adds_record c) eqn:Hc.
  - destruct c as [| | | |stream line_data| | |]; try done. simpl.
    pose proof (record_ledger stream line_data st) as Hl. simpl in Hl.
    case_bool_decide as Hreg.
    + right. exists stream, line_data. apply elem_of_dom in Hreg as [b Hb].
      rewrite Hb in Hl. by destruct Hl as (? & ? & ?).
    + left. split; [done|]. apply not_elem_of_dom in Hreg.
      rewrite Hreg in Hl. rewrite Hl. by repeat split.
  - left. split; [by destruct c|]. by apply ledger_frame.
Qed.

Lemma counter_counts_from calls st :
  message_counter (run calls st)
  = message_counter st + Z.of_nat (length (records calls st))
  ∧ ∀ (i : nat) s (n : Z),
      records calls st !! i = Some (s, n) →
      n = message_counter st + Z.of_nat i + 1.
Proof.
  revert st. induction calls as [|c calls IH]; intros st; simpl.
  - split; [lia|]. intros i s n Hi. by rewrite lookup_nil in Hi.
  - destruct (IH (exec (perform c) st)) as [IH1 IH2].
    destruct (accepted_cases c st)
      as [[Hacc (Hc & _)]|(stream & d & -> & Hacc & Hc & _)];
      rewrite Hacc; simpl in *.
    + rewrite IH1, Hc. split; [done|]. intros i s n Hi.
      rewrite (IH2 _ _ _ Hi), Hc. done.
    + rewrite IH1, Hc. split; [lia|]. intros [|i] s n Hi; simpl in Hi.
      * injection Hi as <- <-. lia.
      * rewrite (IH2 _ _ _ Hi), Hc. lia.
Qed.

(** X1. The message counter counts the accepted records: at the end of a
    run it is the number of records accepted, and the record accepted as
    the i-th (from 0) was given the counter value i + 1, so no two records
    share a value and the values follow the order of arrival. *)
Theorem counter_counts_records tgt emit max_lag calls :
  let st := run calls (init tgt emit max_lag) in
  let log := records calls (init tgt emit max_lag) in
  message_counter st = Z.of_nat (length log)
  ∧ ∀ (i : nat) s (n : Z), log !! i = Some (s, n) → n = Z.of_nat i + 1.
Proof.
  simpl. destruct (counter_counts_from calls (init tgt emit max_lag))
    as [H1 H2]. simpl in *.
  split; [lia|]. intros i s n Hi. rewrite (H2 _ _ _ Hi). lia.
Qed.

Lemma records_of_app s (l1 l2 : list (string * Z)) :
  records_of s (l1 ++ l2) = records_of s l1 ++ records_of s l2.
Proof. unfold records_of. by rewrite filter_app, fmap_app. Qed.

Lemma add_watermark_from calls st s :
  stream_add_watermarks (run calls st) !! s
  = match last (records_of s (records calls st)) with
    | Some n => Some n
    | None => stream_add_watermarks st !! s
    end.
Proof.
  revert st. induction calls as [|c calls IH]; intros st; simpl; [done|].
  rewrite IH, records_of_app, last_app.
  destruct (last (records_of s (records calls (exec (perform c) st))));
    [done|].
  destruct (accepted_cases c st)
    as [[Hacc (_ & Ha & _)]|(stream & d & -> & Hacc & _ & Ha & _)];
    rewrite Hacc, Ha.
  - done.
  - unfold records_of. destruct (decide (stream = s)) as [->|Hne].
    + rewrite filter_cons_True by done. simpl. apply lookup_insert_eq.
    + rewrite filter_cons_False by done. simpl. by rewrite lookup_insert_ne.
Qed.

Lemma added_from calls st s :
  s ∈ streams_added_to (run calls st)
  ↔ s ∈ streams_added_to st ∨ s ∈ (records calls st).*1.
Proof.
  revert st. induction calls as [|c calls IH]; intros st; simpl.
  - rewrite elem_of_nil. tauto.
  - rewrite IH, fmap_app, elem_of_app.
    destruct (accepted_cases c st)
      as [[Hacc (_ & _ & Ha)]|(stream & d & -> & Hacc & _ & _ & Ha)];
      rewrite Hacc, Ha; simpl.
    + rewrite elem_of_nil. tauto.
    + rewrite list_elem_of_singleton. set_solver.
Qed.

Lemma elem_of_records_of s (log : list (string * Z)) :
  s ∈ log.*1 ↔ is_Some (last (records_of s log)).
Proof.
  unfold records_of. induction log as [|[s' n] log IH]; simpl.
  - rewrite elem_of_nil. split; [done|]. by intros [? ?].
  - rewrite elem_of_cons. destruct (decide (s' = s)) as [->|Hne].
    + rewrite filter_cons_True by done. simpl. split; [|by left].
      intros _. rewrite last_cons. destruct (last _); by eexists.
    + rewrite filter_cons_False by done. rewrite <- IH. naive_solver.
Qed.

(** X2. At the end of every run the add watermark of a stream is the
    counter value of the last record accepted for it, and the stream has no
    add watermark when no record was accepted for it, registered or not:
    the streams with an add watermark are those of [streams_added_to], the
    streams some accepted record belongs to. *)
Theorem add_watermark_is_last_record tgt emit max_lag calls s :
  let st := run calls (init tgt emit max_lag) in
  let log := records calls (init tgt emit max_lag) in
  stream_add_watermarks st !! s = last (records_of s log)
  ∧ (s ∈ streams_added_to st ↔ s ∈ log.*1)
  ∧ dom (stream_add_watermarks st) = streams_added_to st.
Proof.
  simpl.
  assert (∀ s', stream_add_watermarks (run calls (init tgt emit max_lag)) !! s'
                = last (records_of s' (records calls (init tgt emit max_lag))))
    as Hadd.
  { intros s'. rewrite add_watermark_from. simpl.
    by destruct (last _). }
  assert (∀ s', s' ∈ streams_added_to (run calls (init tgt emit max_lag))
                ↔ s' ∈ (records calls (init tgt emit max_lag)).*1) as Hin.
  { intros s'. rewrite added_from. simpl. set_solver. }
  split; [done|]. split; [done|].
  apply set_eq. intros s'.
  by rewrite elem_of_dom, Hadd, Hin, elem_of_records_of.
Qed.

(** *** Bounds on the watermarks and the threshold *)

Lemma primitive_nonneg c st :
  primitive c = true → consistent st → nonneg st →
  nonneg (exec (perform c) st).
Proof.
  intros Hp Hc [Hf Hq].
  destruct c as [stream b|stream|force order|line_data|stream line_data
                 |stream|force|line_data]; simpl in *; try done.
  - unfold register_stream. unfold_M. split; simpl; [|done].
    intros s f. destruct (decide (s = stream)) as [->|Hne].
    + rewrite lookup_insert_eq. intros [= <-]. lia.
    + rewrite lookup_insert_ne by done. apply Hf.
  - unfold handle_record_message. unfold_M.
    destruct (streams st !! stream) as [b|]; simpl; [|done].
    by destruct (add_record_message b line_data).
  - destruct (result (_write_batch_and_update_watermarks stream) st)
      as [[]|e] eqn:Hres.
    + apply write_returned in Hres as (b & tgt & _ & _ & ->).
      split; simpl; [|done].
      intros s f. destruct (decide (s = stream)) as [->|Hne].
      * rewrite lookup_insert_eq. intros [= <-]. unfold add_watermark.
        destruct (stream_add_watermarks st !! stream) as [a|] eqn:Ha;
          simpl; [|lia].
        apply (add_bounds st Hc) in Ha. lia.
      * rewrite lookup_insert_ne by done. apply Hf.
    + destruct (write_raised _ _ _ Hres) as [tgt ->]. by split.
  - pose proof (emit_frame force st) as (_ & _ & _ & _ & _ & Hfl & _).
    simpl in Hfl. split; [by rewrite Hfl|].
    rewrite (popped_entries_spec force st) in Hq.
    by apply Forall_app in Hq as [_ ?].
  - unfold append_state. unfold_M.
    destruct (getitem line_data "value"); simpl; [|done..].
    split; [done|]. simpl. apply Forall_app. split; [done|].
    repeat constructor. simpl. apply (counter_nonneg st Hc).
Qed.

Lemma reachable_nonneg tgt emit max_lag calls :
  nonneg (run calls (init tgt emit max_lag)).
Proof.
  destruct (run_decompose calls (init tgt emit max_lag))
    as (prims & -> & Hp & _).
  assert (consistent (init tgt emit max_lag) ∧ nonneg (init tgt emit max_lag))
    as Hinit.
  { split; [apply init_consistent|]. split; simpl; [|constructor].
    intros s f Hs. by rewrite lookup_empty in Hs. }
  revert Hinit. generalize (init tgt emit max_lag).
  induction prims as [|c prims IH]; intros st [Hc Hn]; simpl; [done|].
  apply Forall_cons in Hp as [Hp1 Hp].
  apply IH; [done|]. split.
  - by apply primitive_consistent.
  - by apply primitive_nonneg.
Qed.

(** X3. In every run the queue lists its entries by ascending watermark,
    and every queued watermark lies between 0 and the message counter. *)
Theorem queue_sorted_and_bounded tgt emit max_lag calls :
  let st := run calls (init tgt emit max_lag) in
  queue_sorted (state_queue st)
  ∧ Forall (λ e, 0 ≤ watermark e ≤ message_counter st) (state_queue st).
Proof.
  simpl. pose proof (reachable_consistent tgt emit max_lag calls) as Hc.
  destruct (reachable_nonneg tgt emit max_lag calls) as [_ Hq].
  split; [apply (queue_ascending _ Hc)|].
  pose proof (queue_bounded _ Hc) as Hb.
  rewrite Forall_forall in *. intros e He.
  specialize (Hq e He). specialize (Hb e He). simpl in *. lia.
Qed.

Lemma add_watermark_le_counter st s :
  consistent st → 0 ≤ add_watermark st s ≤ message_counter st.
Proof.
  intros Hc. unfold add_watermark.
  destruct (stream_add_watermarks st !! s) as [a|] eqn:Ha; simpl.
  - by apply (add_bounds st Hc) in Ha.
  - pose proof (counter_nonneg st Hc). lia.
Qed.

Lemma threshold_le_add st s :
  consistent st → s ∈ active st →
  _safe_flush_threshold st ≤ add_watermark st s.
Proof.
  intros Hc Hs. apply elem_of_active in Hs as [Hadd [f Hf]]; [|done].
  pose proof (threshold_lower st s f Hadd Hf).
  pose proof (flush_le_add st Hc s f Hf). lia.
Qed.

(** X4. In every run the threshold lies between 0 and the message counter,
    so the lag that [flush_streams_if_required] computes is never
    negative, and the threshold is at most the add watermark of every
    registered stream that has received a record. *)
Theorem threshold_bounds tgt emit max_lag calls :
  let st := run calls (init tgt emit max_lag) in
  0 ≤ _safe_flush_threshold st ≤ message_counter st
  ∧ 0 ≤ message_counter st - _safe_flush_threshold st
  ∧ ∀ s, s ∈ active st → _safe_flush_threshold st ≤ add_watermark st s.
Proof.
  simpl. pose proof (reachable_consistent tgt emit max_lag calls) as Hc.
  destruct (reachable_nonneg tgt emit max_lag calls) as [Hf _].
  set (st := run calls (init tgt emit max_lag)) in *.
  assert (0 ≤ _safe_flush_threshold st ≤ message_counter st) as Hb.
  { destruct (decide (active st = ∅)) as [Hempty|Hne].
    - rewrite threshold_default; [pose proof (counter_nonneg st Hc); lia|].
      intros s Hs.
      destruct (stream_flush_watermarks st !! s) as [f|] eqn:Hfs; [|done].
      assert (s ∈ active st) as Hin by (apply elem_of_active; eauto).
      rewrite Hempty in Hin. set_solver.
    - apply set_choose_L in Hne as [s Hs].
      pose proof (threshold_le_add st s Hc Hs).
      pose proof (add_watermark_le_counter st s Hc).
      apply elem_of_active in Hs as [Hadd [f Hfs]]; [|done].
      destruct (threshold_attained st s f Hadd Hfs) as (s' & _ & Hs').
      apply Hf in Hs'. lia. }
  split; [done|]. split; [lia|]. intros s Hs. by apply threshold_le_add.
Qed.

Lemma write_dom stream st :
  dom (streams (exec (_write_batch_and_update_watermarks stream) st))
  = dom (streams st).
Proof.
  destruct (result (_write_batch_and_update_watermarks stream) st)
    as [[]|e] eqn:Hres.
  - apply write_returned in Hres as (b & tgt & Hb & _ & ->). simpl.
    rewrite dom_insert_L. apply elem_of_dom_2 in Hb. set_solver.
  - by destruct (write_raised _ _ _ Hres) as [tgt ->].
Qed.

Lemma writes_frame (l : list string) st :
  stream_add_watermarks (run (WriteBatchAndUpdateWatermarks <$> l) st)
  = stream_add_watermarks st
  ∧ streams_added_to (run (WriteBatchAndUpdateWatermarks <$> l) st)
    = streams_added_to st
  ∧ state_queue (run (WriteBatchAndUpdateWatermarks <$> l) st)
    = state_queue st
  ∧ dom (streams (run (WriteBatchAndUpdateWatermarks <$> l) st))
    = dom (streams st).
Proof.
  revert st. induction l as [|x l IH]; intros st; [done|].
  change (run (WriteBatchAndUpdateWatermarks <$> x :: l) st)
    with (run (WriteBatchAndUpdateWatermarks <$> l)
            (exec (_write_batch_and_update_watermarks x) st)).
  destruct (IH (exec (_write_batch_and_update_watermarks x) st))
    as (H1 & H2 & H3 & H4).
  rewrite H1, H2, H3, H4.
  pose proof (write_frame x st) as (_ & _ & ? & ? & ? & _). simpl in *.
  by rewrite write_dom.
Qed.

(** X5. A queued state whose watermark exceeds the add watermark of some
    registered stream that has received a record is not popped by a pass
    without [force], however many streams are flushed first: flushing
    raises a flush watermark to the add watermark at most.  Only a forced
    pass or a later record for that stream releases it. *)
Theorem entry_above_add_watermark_stays tgt emit max_lag calls flushes s e :
  let st := run calls (init tgt emit max_lag) in
  let st' := run (WriteBatchAndUpdateWatermarks <$> flushes) st in
  s ∈ active st →
  e ∈ state_queue st →
  add_watermark st s < watermark e →
  e ∈ state_queue (exec (_emit_safe_queued_states false) st').
Proof.
  simpl. intros Hs He Hlt.
  set (st := run calls (init tgt emit max_lag)) in *.
  set (st' := run (WriteBatchAndUpdateWatermarks <$> flushes) st).
  assert (consistent st') as Hc'.
  { subst st' st. rewrite <- run_app. apply reachable_consistent. }
  destruct (writes_frame flushes st) as (Ha & Hadd & Hq & Hd).
  fold st' in Ha, Hadd, Hq, Hd.
  assert (s ∈ active st') as Hs'.
  { unfold active in *. by rewrite Hd, Hadd. }
  pose proof (threshold_le_add st' s Hc' Hs') as Hthr.
  unfold add_watermark in *. rewrite Ha in Hthr.
  destruct (emit_pass false st' (queue_ascending _ Hc'))
    as (popped & Hpop & Hsafe & _).
  rewrite <- Hq, Hpop in He. apply elem_of_app in He as [He|He]; [|done].
  rewrite Forall_forall in Hsafe. destruct (Hsafe e He) as [?|Hw]; [done|lia].
Qed.

(** *** States switched off *)

Lemma emit_nothing_queued force st :
  state_queue st = [] →
  exec (_emit_safe_queued_states force) st = st.
Proof.
  intros Hq. unfold _emit_safe_queued_states. unfold_M. rewrite Hq. simpl.
  destruct st. simpl in *. by subst.
Qed.

Lemma silent_part c c' st :
  (∃ stream, c = FlushStream stream)
  ∨ (∃ force order, c = FlushStreamsIfRequired force order) →
  made_of c c' → silent st → silent (exec (perform c') st).
Proof.
  intros Hc Hmade (He & Hq & Ho & Hl).
  assert ((∃ stream, c' = WriteBatchAndUpdateWatermarks stream)
          ∨ (∃ force, c' = EmitSafeQueuedStates force)) as [[x ->]|[f ->]].
  { destruct Hc as [[x ->]|(f & o & ->)]; simpl in Hmade; naive_solver. }
  - simpl.
    pose proof (write_frame x st) as (He' & _ & _ & _ & Hq' & _ & Hl' & Ho' & _).
    simpl in *. unfold silent. by rewrite He', Hq', Hl', Ho'.
  - simpl. by rewrite emit_nothing_queued.
Qed.

Lemma public_silent c st :
  public c = true → silent st → silent (exec (perform c) st).
Proof.
  intros Hp Hs.
  destruct c as [stream b|stream|force order|line_data|stream line_data
                 |stream|force|line_data]; simpl in *; try done.
  - destruct (perform_parts (FlushStream stream) st) as (prims & Hrun & Hparts & _).
    simpl in Hrun. rewrite Hrun. clear Hrun. revert st Hs.
    induction prims as [|c' prims IH]; intros st Hs; simpl; [done|].
    apply Forall_cons in Hparts as [Hc' Hparts]. apply IH; [done|].
    eapply silent_part; [|exact Hc'|done]. left. by eexists.
  - destruct (perform_parts (FlushStreamsIfRequired force order) st)
      as (prims & Hrun & Hparts & _).
    simpl in Hrun. rewrite Hrun. clear Hrun. revert st Hs.
    induction prims as [|c' prims IH]; intros st Hs; simpl; [done|].
    apply Forall_cons in Hparts as [Hc' Hparts]. apply IH; [done|].
    eapply silent_part; [|exact Hc'|done]. right. by do 2 eexists.
  - destruct Hs as (He & ? & ? & ?). unfold handle_state_message. unfold_M.
    by rewrite He.
  - destruct Hs as (? & ? & ? & ?). unfold handle_record_message. unfold_M.
    destruct (streams st !! stream) as [b|]; simpl; [|done].
    by destruct (add_record_message b line_data).
Qed.

(** X6. A tracker created with [emit_states] off never queues, writes or
    remembers a state, whatever its public methods are called with. *)
Theorem states_off_is_silent tgt max_lag calls :
  Forall (λ c, public c = true) calls →
  let st := run calls (init tgt false max_lag) in
  state_queue st = [] ∧ stdout st = [] ∧ last_emitted_state st = None.
Proof.
  intros Hp. simpl.
  assert (silent (init tgt false max_lag)) as Hs by done.
  revert Hs. generalize (init tgt false max_lag).
  induction calls as [|c calls IH]; intros st Hs; simpl.
  - by destruct Hs as (_ & ? & ? & ?).
  - apply Forall_cons in Hp as [Hc Hp]. apply IH; [done|].
    by apply public_silent.
Qed.

(** *** Running the gate again *)

Lemma pop_safe_stuck force (thr : Z) queue (em : option value) :
  match queue with [] => True | e :: _ => ¬ safe force thr e end →
  pop_safe force thr queue em = (em, queue).
Proof.
  destruct queue as [|e queue]; [done|]. simpl. intros Hunsafe.
  destruct (force || bool_decide (watermark e ≤ thr)) eqn:Hs; [|done].
  exfalso. apply Hunsafe. unfold safe.
  apply orb_true_iff in Hs as [->|Hle]; [by left|].
  right. by apply bool_decide_eq_true in Hle.
Qed.

(** X8. A second pass of [_emit_safe_queued_states] right after a pass with
    the same [force] changes nothing: the first pass leaves no safe entry
    at the front of the queue. *)
Theorem emit_twice_is_emit_once force st :
  exec (_emit_safe_queued_states force)
       (exec (_emit_safe_queued_states force) st)
  = exec (_emit_safe_queued_states force) st.
Proof.
  set (st' := exec (_emit_safe_queued_states force) st).
  pose proof (emit_frame force st) as (_ & _ & _ & _ & _ & Hf & Ha & _).
  simpl in Hf, Ha. fold st' in Hf, Ha.
  pose proof (threshold_ext st st' Hf Ha) as Hthr.
  destruct (pop_safe_spec force (_safe_flush_threshold st) (state_queue st) None)
    as (_ & _ & _ & _ & Hhead).
  rewrite <- emit_queue in Hhead. fold st' in Hhead. rewrite <- Hthr in Hhead.
  unfold _emit_safe_queued_states at 1. unfold_M.
  rewrite (pop_safe_stuck _ _ _ None Hhead). simpl.
  by destruct st'.
Qed.

(** *** The forced flush at the end of the input *)

Lemma full_or_forced_true st : full_or_forced true st = dom (streams st).
Proof.
  unfold full_or_forced. apply set_eq. intros s. rewrite !elem_of_dom.
  split; intros [b Hb].
  - apply map_lookup_filter_Some in Hb as [Hb _]. eauto.
  - exists b. by apply map_lookup_filter_Some.
Qed.

Lemma pop_safe_all force (thr : Z) queue (em : option value) :
  Forall (safe force thr) queue → (pop_safe force thr queue em).2 = [].
Proof.
  intros Hall.
  destruct (pop_safe_spec force thr queue em) as (popped & Hq & _ & _ & Hhead).
  destruct (pop_safe force thr queue em).2 as [|e rest]; [done|].
  exfalso. apply Hhead. rewrite Forall_forall in Hall. apply Hall.
  rewrite Hq. apply elem_of_app. right. apply list_elem_of_here.
Qed.

(** A pass that empties the queue chooses the state of its last entry. *)
Lemma emit_all force st e :
  let st' := exec (_emit_safe_queued_states force) st in
  state_queue st' = [] →
  last (state_queue st) = Some e →
  if truthy (state e) then
    match statediff_diff_len (state e) (or_empty_dict (last_emitted_state st)) with
    | Some diff_len =>
        result (_emit_safe_queued_states force) st = Returned tt
        ∧ last_emitted_state st' = Some (state e)
        ∧ stdout st'
          = stdout st
              ++ (if bool_decide (0 < diff_len)%nat
                  then [json_dumps (state e)] else [])
    | None =>
        result (_emit_safe_queued_states force) st = Raised TypeError
        ∧ last_emitted_state st' = last_emitted_state st
        ∧ stdout st' = stdout st
    end
  else
    result (_emit_safe_queued_states force) st = Returned tt
    ∧ last_emitted_state st' = last_emitted_state st
    ∧ stdout st' = stdout st.
Proof.
  intros st' Hempty Hlast.
  pose proof (emit_output force st) as Hout. simpl in Hout. fold st' in Hout.
  pose proof (emit_result force st) as Hres.
  rewrite (emit_chosen force st (state_queue st)) in Hout, Hres
    by (fold st'; by rewrite Hempty, app_nil_r).
  rewrite Hlast in Hout, Hres. simpl in Hout, Hres.
  destruct (truthy (state e)); [|by destruct Hout].
  destruct (statediff_diff_len _ _) as [n|]; by destruct Hout.
Qed.

(** X9. When [flush_streams_if_required] is called with [force] and
    returns (no write raises, and neither does [statediff.diff]), every
    registered stream ends with a flushed buffer and a flush watermark
    equal to its add watermark, the queue is empty, and the last state
    queued, if it is a true value, has a diff against the previous one,
    becomes [last_emitted_state] and is written unless that diff is empty:
    the final flush hands back the most recent state.  When every write
    returns and the diff raises, the call raises [TypeError] and neither
    writes nor remembers that state. *)
Theorem forced_flush_emits_latest st order :
  let xs := iter_set order (streams_to_flush true st) in
  let st' := exec (flush_streams_if_required true order) st in
  (result (flush_streams_if_required true order) st = Returned tt →
   state_queue st' = []
   ∧ (∀ s b, streams st !! s = Some b →
        streams st' !! s = Some (flush_buffer b)
        ∧ stream_flush_watermarks st' !! s = Some (add_watermark st s))
   ∧ (∀ e, last (state_queue st) = Some e → truthy (state e) = true →
        ∃ diff_len,
          statediff_diff_len (state e) (or_empty_dict (last_emitted_state st))
          = Some diff_len
          ∧ last_emitted_state st' = Some (state e)
          ∧ stdout st'
            = stdout st
                ++ (if bool_decide (0 < diff_len)%nat
                    then [json_dumps (state e)] else [])))
  ∧ (∀ e, result (for_each xs _write_batch_and_update_watermarks) st
          = Returned tt →
          last (state_queue st) = Some e → truthy (state e) = true →
          statediff_diff_len (state e) (or_empty_dict (last_emitted_state st))
          = None →
          result (flush_streams_if_required true order) st = Raised TypeError
          ∧ state_queue st' = []
          ∧ last_emitted_state st' = last_emitted_state st
          ∧ stdout st' = stdout st).
Proof.
  set (xs := iter_set order (streams_to_flush true st)).
  assert (streams_to_flush true st = dom (streams st)) as Hset.
  { unfold streams_to_flush. rewrite full_or_forced_true.
    destruct (lag_guard st); set_solver. }
  assert (flush_streams_if_required true order st
          = (for_each xs _write_batch_and_update_watermarks ;;
             _emit_safe_queued_states true) st) as Heq.
  { unfold flush_streams_if_required, force_after_guard. unfold_M.
    by destruct (lag_guard st). }
  simpl. unfold result, exec. rewrite Heq.
  fold (result (for_each xs _write_batch_and_update_watermarks ;;
                _emit_safe_queued_states true) st).
  fold (exec (for_each xs _write_batch_and_update_watermarks ;;
              _emit_safe_queued_states true) st).
  fold (result (for_each xs _write_batch_and_update_watermarks) st).
  set (st1 := exec (for_each xs _write_batch_and_update_watermarks) st).
  assert (result (for_each xs _write_batch_and_update_watermarks) st
          = Returned tt →
          state_queue st1 = state_queue st
          ∧ last_emitted_state st1 = last_emitted_state st
          ∧ stdout st1 = stdout st
          ∧ ∀ s, s ∈ xs →
              stream_flush_watermarks st1 !! s = Some (add_watermark st s)
              ∧ streams st1 !! s = flush_buffer <$> streams st !! s) as Hwrites.
  { intros Hloop.
    pose proof (for_each_write_returned xs st (NoDup_iter_set _ _) Hloop)
      as (_ & _ & Hq & _ & Hl & Ho & Hin & _). by simpl in *. }
  split.
  - intros Hres.
    destruct (result (for_each xs _write_batch_and_update_watermarks) st)
      as [[]|e] eqn:Hloop.
    2:{ by rewrite (result_seq_raised _ _ _ _ Hloop) in Hres. }
    rewrite (result_seq _ _ _ _ Hloop) in Hres.
    rewrite (exec_seq _ _ _ _ Hloop). fold st1 in Hres |- *.
    destruct (Hwrites eq_refl) as (Hq & Hl & Ho & Hin).
    pose proof (emit_frame true st1) as (_ & _ & _ & Hs & _ & Hf & _).
    simpl in Hs, Hf.
    split; [apply emit_forced_empties|]. split.
    + intros s b Hb. rewrite Hs, Hf.
      assert (s ∈ xs) as Hsx.
      { subst xs. rewrite elem_of_iter_set, Hset. by apply elem_of_dom_2 in Hb. }
      destruct (Hin s Hsx) as [-> ->]. by rewrite Hb.
    + intros e Hlast Htrue. rewrite <- Hq in Hlast.
      pose proof (emit_all true st1 e (emit_forced_empties st1) Hlast) as Hall.
      rewrite Htrue, Hl in Hall.
      destruct (statediff_diff_len _ _) as [n|].
      * destruct Hall as (_ & -> & ->). exists n. by rewrite Ho.
      * destruct Hall as [Hraise _]. by rewrite Hraise in Hres.
  - intros e Hloop Hlast Htrue Hdiff.
    rewrite (result_seq _ _ _ _ Hloop), (exec_seq _ _ _ _ Hloop). fold st1.
    destruct (Hwrites Hloop) as (Hq & Hl & Ho & _).
    rewrite <- Hq in Hlast.
    pose proof (emit_all true st1 e (emit_forced_empties st1) Hlast) as Hall.
    rewrite Htrue, Hl, Hdiff in Hall. destruct Hall as (-> & -> & ->).
    split; [done|]. split; [apply emit_forced_empties|]. by rewrite Ho.
Qed.

(** *** A state that arrives when nothing is unflushed *)

Lemma append_returned line_data v st :
  getitem line_data "value" = Found v →
  result (append_state line_data) st = Returned tt
  ∧ exec (append_state line_data) st
    = set_state_queue (state_queue st ++ [Entry v (message_counter st)]) st.
Proof. intros Hv. unfold append_state. unfold_M. by rewrite Hv. Qed.

(** X10. When the message counter is at most the threshold (no record is
    waiting in a buffer that counts), [handle_state_message] leaves the
    queue empty: the state it was given is chosen at once, together with
    whatever was queued.  If the state is a true value and
    [statediff.diff] of it against the previous one returns, the call
    returns, the state becomes [last_emitted_state] and it is written
    unless that diff is empty; if the diff raises, the call raises
    [TypeError] and the state is neither written nor remembered; a state
    that is not a true value is dropped.  In particular every state that
    arrives before the first record is handled so. *)
Theorem state_emitted_at_once tgt emit max_lag calls line_data v :
  let st := run calls (init tgt emit max_lag) in
  let st' := exec (handle_state_message line_data) st in
  emit_states st = true →
  getitem line_data "value" = Found v →
  message_counter st ≤ _safe_flush_threshold st →
  state_queue st' = []
  ∧ if truthy v then
      match statediff_diff_len v (or_empty_dict (last_emitted_state st)) with
      | Some diff_len =>
          result (handle_state_message line_data) st = Returned tt
          ∧ last_emitted_state st' = Some v
          ∧ stdout st'
            = stdout st
                ++ (if bool_decide (0 < diff_len)%nat then [json_dumps v] else [])
      | None =>
          result (handle_state_message line_data) st = Raised TypeError
          ∧ last_emitted_state st' = last_emitted_state st
          ∧ stdout st' = stdout st
      end
    else
      result (handle_state_message line_data) st = Returned tt
      ∧ last_emitted_state st' = last_emitted_state st
      ∧ stdout st' = stdout st.
Proof.
  simpl. intros He Hv Hle.
  pose proof (reachable_consistent tgt emit max_lag calls) as Hc.
  set (st := run calls (init tgt emit max_lag)) in *.
  destruct (append_returned line_data v st Hv) as [Hres Hst1].
  set (st1 := exec (append_state line_data) st) in *.
  assert (handle_state_message line_data st
          = _emit_safe_queued_states false st1) as Heq.
  { unfold handle_state_message. unfold_M. rewrite He.
    unfold result, exec in Hres. subst st1. unfold exec.
    destruct (append_state line_data st) as [r st2]. simpl in *. by subst. }
  unfold result, exec. rewrite Heq.
  fold (result (_emit_safe_queued_states false) st1).
  fold (exec (_emit_safe_queued_states false) st1).
  assert (_safe_flush_threshold st1 = _safe_flush_threshold st) as Hthr
    by (apply threshold_ext; by rewrite Hst1).
  assert (state_queue (exec (_emit_safe_queued_states false) st1) = [])
    as Hempty.
  { rewrite emit_queue. apply pop_safe_all. rewrite Hthr, Hst1. simpl.
    apply Forall_app. split.
    - eapply Forall_impl; [apply (queue_bounded st Hc)|].
      simpl. intros e ?. right. lia.
    - apply Forall_cons. split; [right; simpl; lia|constructor]. }
  split; [done|].
  pose proof (emit_all false st1 (Entry v (message_counter st)) Hempty) as Hall.
  simpl in Hall.
  assert (last_emitted_state st1 = last_emitted_state st) as Hl
    by (by rewrite Hst1).
  assert (stdout st1 = stdout st) as Ho by (by rewrite Hst1).
  rewrite Hl, Ho in Hall. apply Hall. rewrite Hst1. simpl. by rewrite last_snoc.
Qed.

(** *** States are written in the order they arrived *)

Lemma emit_written force st :
  written_or_queued (exec (_emit_safe_queued_states force) st)
  `sublist_of` written_or_queued st.
Proof.
  unfold written_or_queued.
  pose proof (popped_entries_spec force st) as Hq.
  pose proof (emit_output force st) as Hout. simpl in Hout.
  rewrite (emit_chosen force st _ Hq) in Hout.
  set (st' := exec (_emit_safe_queued_states force) st) in *.
  set (popped := popped_entries force st) in *.
  rewrite Hq, fmap_app.
  assert (∃ w, stdout st' = stdout st ++ w
               ∧ w `sublist_of` (λ e, json_dumps (state e)) <$> popped)
    as (w & -> & Hw).
  { destruct (last popped) as [e|] eqn:Hlast; simpl in Hout.
    - destruct (truthy (state e)).
      + destruct (statediff_diff_len _ _) as [n|].
        * destruct Hout as [-> _]. eexists. split; [done|].
          destruct (bool_decide _); [|apply sublist_nil_l].
          apply last_Some in Hlast as [l ->]. rewrite fmap_app.
          by apply sublist_inserts_l.
        * destruct Hout as [-> _]. exists []. rewrite app_nil_r.
          split; [done|apply sublist_nil_l].
      + destruct Hout as [-> _]. exists []. rewrite app_nil_r.
        split; [done|apply sublist_nil_l].
    - destruct Hout as [-> _]. exists []. rewrite app_nil_r.
      split; [done|apply sublist_nil_l]. }
  rewrite <- app_assoc. apply sublist_app; [done|]. by apply sublist_app.
Qed.

Lemma write_written stream st :
  written_or_queued (exec (_write_batch_and_update_watermarks stream) st)
  = written_or_queued st.
Proof.
  unfold written_or_queued.
  pose proof (write_frame stream st) as (_ & _ & _ & _ & Hq & _ & _ & Ho & _).
  simpl in *. by rewrite Hq, Ho.
Qed.

Lemma flush_parts_written c prims st :
  (∃ stream, c = FlushStream stream)
  ∨ (∃ force order, c = FlushStreamsIfRequired force order) →
  Forall (made_of c) prims →
  written_or_queued (run prims st) `sublist_of` written_or_queued st.
Proof.
  intros Hc Hparts. revert st.
  induction prims as [|c' prims IH]; intros st; simpl; [done|].
  apply Forall_cons in Hparts as [Hc' Hparts].
  etrans; [by apply IH|].
  assert ((∃ stream, c' = WriteBatchAndUpdateWatermarks stream)
          ∨ (∃ force, c' = EmitSafeQueuedStates force)) as [[x ->]|[f ->]].
  { destruct Hc as [[x ->]|(f & o & ->)]; simpl in Hc'; naive_solver. }
  - simpl. by rewrite write_written.
  - apply emit_written.
Qed.

Lemma perform_written c st :
  written_or_queued (exec (perform c) st)
  `sublist_of` written_or_queued st ++ (json_dumps <$> presented c).
Proof.
  destruct c as [stream b|stream|force order|line_data|stream line_data
                 |stream|force|line_data]; simpl; rewrite ?app_nil_r.
  - unfold register_stream. by unfold_M.
  - destruct (perform_parts (FlushStream stream) st) as (prims & Hrun & Hparts & _).
    simpl in Hrun. rewrite Hrun.
    eapply flush_parts_written; [|done]. left. by eexists.
  - destruct (perform_parts (FlushStreamsIfRequired force order) st)
      as (prims & Hrun & Hparts & _).
    simpl in Hrun. rewrite Hrun.
    eapply flush_parts_written; [|done]. right. by do 2 eexists.
  - unfold handle_state_message.
    change (exec (st' ← get; when (emit_states st')
                    (append_state line_data ;; _emit_safe_queued_states false)) st)
      with (exec (when (emit_states st)
                    (append_state line_data ;; _emit_safe_queued_states false)) st).
    destruct (emit_states st); simpl; [|by apply sublist_inserts_r].
    destruct (getitem line_data "value") as [v| |] eqn:Hv.
    + destruct (append_returned line_data v st Hv) as [Hres Hst1].
      rewrite (exec_seq _ _ _ _ Hres).
      etrans; [apply emit_written|]. rewrite Hst1.
      unfold written_or_queued. simpl. by rewrite fmap_app, app_assoc.
    + unfold append_state. rewrite Hv. unfold_M. by rewrite app_nil_r.
    + unfold append_state. rewrite Hv. unfold_M. by rewrite app_nil_r.
  - unfold handle_record_message. unfold_M.
    destruct (streams st !! stream) as [b|]; simpl; [|done].
    by destruct (add_record_message b line_data).
  - by rewrite write_written.
  - apply emit_written.
  - destruct (getitem line_data "value") as [v| |] eqn:Hv.
    + destruct (append_returned line_data v st Hv) as [_ ->].
      unfold written_or_queued. simpl. by rewrite fmap_app, app_assoc.
    + unfold append_state. rewrite Hv. unfold_M. by rewrite app_nil_r.
    + unfold append_state. rewrite Hv. unfold_M. by rewrite app_nil_r.
Qed.

Lemma run_written calls st :
  written_or_queued (run calls st)
  `sublist_of` written_or_queued st ++ (json_dumps <$> state_values calls).
Proof.
  revert st. induction calls as [|c calls IH]; intros st; simpl.
  - by rewrite app_nil_r.
  - etrans; [apply IH|]. rewrite fmap_app, app_assoc.
    apply sublist_app; [|done]. apply perform_written.
Qed.

(** X11. The lines written in a run, followed by the lines of the states
    still queued, are a subsequence of the lines of the states the run was
    given, in the order they were given: no state is written before an
    earlier one, none is written twice for one arrival, and nothing is
    written that did not arrive. *)
Theorem states_written_in_order tgt emit max_lag calls :
  let st := run calls (init tgt emit max_lag) in
  written_or_queued st `sublist_of` json_dumps <$> state_values calls
  ∧ stdout st `sublist_of` json_dumps <$> state_values calls.
Proof.
  simpl. pose proof (run_written calls (init tgt emit max_lag)) as Hw.
  change (written_or_queued (init tgt emit max_lag)) with (@nil string) in Hw.
  simpl in Hw. split; [done|]. etrans; [|exact Hw].
  unfold written_or_queued. apply sublist_inserts_r. done.
Qed.

(** *** Nothing is taken back *)

Lemma keeps_refl st : keeps st st.
Proof. by split. Qed.

Lemma keeps_trans st1 st2 st3 : keeps st1 st2 → keeps st2 st3 → keeps st1 st3.
Proof. intros [? ?] [? ?]. split; by etrans. Qed.

Lemma primitive_keeps c st :
  primitive c = true → keeps st (exec (perform c) st).
Proof.
  intros Hp.
  destruct c as [stream b|stream|force order|line_data|stream line_data
                 |stream|force|line_data]; simpl in *; try done.
  - unfold register_stream. unfold_M. split; simpl; [|done].
    rewrite dom_insert_L. set_solver.
  - unfold handle_record_message. unfold_M.
    destruct (streams st !! stream) as [b|]; simpl; [|apply keeps_refl].
    destruct (add_record_message b line_data); simpl; split; simpl; try done.
    rewrite dom_insert_L. set_solver.
  - split; [by rewrite write_dom|].
    pose proof (write_frame stream st) as (_ & _ & _ & _ & _ & _ & _ & Ho & _).
    simpl in Ho. by rewrite Ho.
  - pose proof (emit_frame force st) as (_ & _ & _ & Hs & _). simpl in Hs.
    split; [by rewrite Hs|].
    pose proof (emit_output force st) as Hout. simpl in Hout.
    destruct (pop_safe _ _ _ _).1 as [v|].
    + destruct (truthy v); [|by destruct Hout as [-> _]].
      destruct (statediff_diff_len _ _) as [n|]; destruct Hout as [-> _]; [|done].
      by apply prefix_app_r.
    + by destruct Hout as [-> _].
  - unfold append_state. unfold_M.
    destruct (getitem line_data "value"); simpl; by split.
Qed.

(** X12. Whatever is called on the tracker, in whatever state, the message
    counter does not decrease, no stream stops being registered or marked
    as having received records, and the output is only ever extended. *)
Theorem nothing_is_taken_back calls st :
  message_counter st ≤ message_counter (run calls st)
  ∧ streams_added_to st ⊆ streams_added_to (run calls st)
  ∧ dom (streams st) ⊆ dom (streams (run calls st))
  ∧ stdout st `prefix_of` stdout (run calls st).
Proof.
  split; [destruct (counter_counts_from calls st) as [-> _]; lia|].
  split; [apply run_added_mono|].
  destruct (run_decompose calls st) as (prims & -> & Hp & _).
  revert st. induction prims as [|c prims IH]; intros st; simpl; [done|].
  apply Forall_cons in Hp as [Hc Hp].
  apply (keeps_trans _ (exec (perform c) st)); [|by apply IH].
  by apply primitive_keeps.
Qed.

(** *** A flush without force and without lag *)

Lemma for_each_write_other (xs : list string) st s :
  s ∉ xs →
  stream_flush_watermarks
    (exec (for_each xs _write_batch_and_update_watermarks) st) !! s
  = stream_flush_watermarks st !! s
  ∧ streams (exec (for_each xs _write_batch_and_update_watermarks) st) !! s
    = streams st !! s.
Proof.
  revert st. induction xs as [|x xs IH]; intros st Hs; simpl; [done|].
  apply not_elem_of_cons in Hs as [Hne Hs].
  pose proof (write_frame x st) as (_ & _ & _ & _ & _ & _ & _ & _ & Hf).
  simpl in Hf. destruct (Hf s Hne) as [Hf1 Hf2].
  destruct (result (_write_batch_and_update_watermarks x) st) as [[]|e] eqn:Hw.
  - rewrite (exec_seq _ _ _ _ Hw).
    destruct (IH (exec (_write_batch_and_update_watermarks x) st) Hs)
      as [-> ->]. done.
  - by rewrite (exec_seq_raised _ _ _ _ Hw).
Qed.

(** X13. When the queue is empty or the lag is within
    [max_watermark_lag], [flush_streams_if_required] without [force] does
    not touch a stream whose buffer is not full, whether or not a write
    raises; and when no write raises, every stream whose buffer is full
    ends with a flushed buffer and a flush watermark equal to its add
    watermark, whether the call then returns or the diff of the gate
    raises. *)
Theorem unforced_flush_takes_full_buffers st order s b :
  let st' := exec (flush_streams_if_required false order) st in
  state_queue st = []
  ∨ message_counter st - _safe_flush_threshold st ≤ max_watermark_lag st →
  streams st !! s = Some b →
  (buffer_full b = false →
     streams st' !! s = Some b
     ∧ stream_flush_watermarks st' !! s = stream_flush_watermarks st !! s)
  ∧ (buffer_full b = true →
     result (flush_streams_if_required false order) st = Returned tt →
     streams st' !! s = Some (flush_buffer b)
     ∧ stream_flush_watermarks st' !! s = Some (add_watermark st s))
  ∧ (buffer_full b = true →
     result (for_each (iter_set order (streams_to_flush false st))
                      _write_batch_and_update_watermarks) st = Returned tt →
     streams st' !! s = Some (flush_buffer b)
     ∧ stream_flush_watermarks st' !! s = Some (add_watermark st s)).
Proof.
  simpl. intros Hlag Hb.
  assert (lag_guard st = false) as Hguard.
  { unfold lag_guard. destruct Hlag as [Hq|Hl].
    - rewrite Hq. done.
    - apply andb_false_iff. right. apply bool_decide_eq_false. lia. }
  set (xs := iter_set order (full_or_forced false st)).
  assert (streams_to_flush false st = full_or_forced false st) as Hset.
  { unfold streams_to_flush. by rewrite Hguard. }
  rewrite Hset. fold xs.
  assert (flush_streams_if_required false order st
          = (for_each xs _write_batch_and_update_watermarks ;;
             _emit_safe_queued_states false) st) as Heq.
  { unfold flush_streams_if_required, force_after_guard, streams_to_flush.
    unfold_M. by rewrite Hguard. }
  assert (s ∈ xs ↔ buffer_full b = true) as Hin.
  { subst xs. rewrite elem_of_iter_set. unfold full_or_forced.
    rewrite elem_of_dom. split.
    - intros [b' Hb']. apply map_lookup_filter_Some in Hb' as [Hb' Hfull].
      simpl in Hfull. rewrite Hb in Hb'. injection Hb' as <-.
      by destruct (buffer_full b).
    - intros Hfull. exists b. apply map_lookup_filter_Some. split; [done|].
      simpl. by rewrite Hfull. }
  unfold result, exec. rewrite Heq.
  fold (result (for_each xs _write_batch_and_update_watermarks ;;
                _emit_safe_queued_states false) st).
  fold (exec (for_each xs _write_batch_and_update_watermarks ;;
              _emit_safe_queued_states false) st).
  set (st1 := exec (for_each xs _write_batch_and_update_watermarks) st).
  pose proof (emit_frame false st1) as (_ & _ & _ & Hs & _ & Hf & _).
  simpl in Hs, Hf.
  split.
  - intros Hfull.
    assert (s ∉ xs) as Hout by (rewrite Hin, Hfull; done).
    destruct (for_each_write_other xs st s Hout) as [H1 H2]. fold st1 in H1, H2.
    destruct (result (for_each xs _write_batch_and_update_watermarks) st)
      as [[]|e] eqn:Hloop.
    + rewrite (exec_seq _ _ _ _ Hloop). fold st1. by rewrite Hs, Hf, H1, H2.
    + rewrite (exec_seq_raised _ _ _ _ Hloop). fold st1. by rewrite H1, H2.
  - assert (buffer_full b = true →
            result (for_each xs _write_batch_and_update_watermarks) st
            = Returned tt →
            streams (exec (for_each xs _write_batch_and_update_watermarks ;;
                           _emit_safe_queued_states false) st) !! s
            = Some (flush_buffer b)
            ∧ stream_flush_watermarks
                (exec (for_each xs _write_batch_and_update_watermarks ;;
                       _emit_safe_queued_states false) st) !! s
              = Some (add_watermark st s)) as Hwritten.
    { intros Hfull Hloop.
      rewrite (exec_seq _ _ _ _ Hloop). fold st1. rewrite Hs, Hf.
      pose proof (for_each_write_returned xs st (NoDup_iter_set _ _) Hloop)
        as (_ & _ & _ & _ & _ & _ & Hall & _). simpl in Hall. fold st1 in Hall.
      destruct (Hall s (proj2 Hin Hfull)) as [-> ->]. by rewrite Hb. }
    split; [|done].
    intros Hfull Hres. apply Hwritten; [done|].
    destruct (result (for_each xs _write_batch_and_update_watermarks) st)
      as [[]|e] eqn:Hloop; [done|].
    by rewrite (result_seq_raised _ _ _ _ Hloop) in Hres.
Qed.

End MoreProperties.

(** ** Properties of the older tracker *)

(** *** The dictionary kept in insertion order *)

Lemma od_keys_set {B} key (v : B) (d : list (string * B)) s :
  s ∈ (od_set key v d).*1 ↔ s = key ∨ s ∈ d.*1.
Proof.
  induction d as [|[k x] d IH]; simpl.
  - rewrite list_elem_of_singleton, elem_of_nil. tauto.
  - destruct (decide (k = key)) as [->|Hne]; simpl;
      rewrite !elem_of_cons; [tauto|]. rewrite IH. tauto.
Qed.

Lemma od_keys_set_old {B} key (v : B) (d : list (string * B)) :
  key ∈ d.*1 → (od_set key v d).*1 = d.*1.
Proof.
  induction d as [|[k x] d IH]; simpl.
  - by intros ?%elem_of_nil.
  - destruct (decide (k = key)) as [->|Hne]; simpl; [done|].
    intros [?|Hin]%elem_of_cons; [congruence|]. f_equal. by apply IH.
Qed.

Lemma od_keys_set_new {B} key (v : B) (d : list (string * B)) :
  key ∉ d.*1 → (od_set key v d).*1 = d.*1 ++ [key].
Proof.
  induction d as [|[k x] d IH]; simpl; [done|].
  intros Hn. apply not_elem_of_cons in Hn as [Hne Hn].
  destruct (decide (k = key)) as [->|_]; [done|]. simpl. f_equal. by apply IH.
Qed.

Lemma od_set_NoDup {B} key (v : B) (d : list (string * B)) :
  NoDup d.*1 → NoDup (od_set key v d).*1.
Proof.
  intros Hnd. destruct (decide (key ∈ d.*1)) as [Hin|Hn].
  - by rewrite od_keys_set_old.
  - rewrite od_keys_set_new by done. apply NoDup_app. split; [done|].
    split; [|apply NoDup_singleton].
    intros x Hx ->%list_elem_of_singleton. done.
Qed.

Lemma od_get_Some {B} key (d : list (string * B)) (v : B) :
  od_get key d = Some v → key ∈ d.*1.
Proof.
  induction d as [|[k x] d IH]; simpl; [done|].
  destruct (decide (k = key)) as [->|Hne]; intros Hg.
  - apply list_elem_of_here.
  - apply list_elem_of_further. by apply IH.
Qed.

Lemma od_get_elem {B} key (d : list (string * B)) (v : B) :
  NoDup d.*1 → (key, v) ∈ d → od_get key d = Some v.
Proof.
  induction d as [|[k x] d IH]; simpl.
  - by intros _ ?%elem_of_nil.
  - intros [Hk Hnd]%NoDup_cons [Heq|Hin]%elem_of_cons.
    + injection Heq as -> ->. by rewrite decide_True.
    + destruct (decide (k = key)) as [->|Hne]; [|by apply IH].
      exfalso. apply Hk. apply list_elem_of_fmap. by exists (key, v).
Qed.

Module StateTrackerFacts.
Import StateTracker.

Section Facts.
Context `{Collaborators}.

Implicit Types (st : StreamTracker) (stream s : string).

Ltac unfold_M :=
  unfold exec, result, mbind, M_bind, bind, mret, M_ret, ret, get, modify,
    raise, when in *; simpl in *.

Lemma older_exec_seq {A B} (m : M A) (k : M B) st a :
  result m st = Returned a → exec (m ;; k) st = exec k (exec m st).
Proof. unfold_M. destruct (m st) as [[a'|e] st']; simpl; by intros. Qed.

Lemma older_result_seq {A B} (m : M A) (k : M B) st a :
  result m st = Returned a → result (m ;; k) st = result k (exec m st).
Proof. unfold_M. destruct (m st) as [[a'|e] st']; simpl; by intros. Qed.

Lemma older_exec_seq_raised {A B} (m : M A) (k : M B) st e :
  result m st = Raised e → exec (m ;; k) st = exec m st.
Proof. unfold_M. destruct (m st) as [[a'|e'] st']; simpl; by intros. Qed.

Lemma older_result_seq_raised {A B} (m : M A) (k : M B) st e :
  result m st = Raised e → result (m ;; k) st = Raised e.
Proof. unfold_M. destruct (m st) as [[a'|e'] st']; simpl; congruence. Qed.

(** *** The threshold of the older tracker *)

Lemma older_elem_of_flush_values st (w : Z) :
  w ∈ (map_to_list (stream_flush_watermarks st)).*2
  ↔ ∃ s, stream_flush_watermarks st !! s = Some w.
Proof.
  rewrite list_elem_of_fmap. split.
  - intros [[s w'] [-> Hin]]. apply elem_of_map_to_list in Hin. by exists s.
  - intros [s Hs]. exists (s, w). split; [done|]. by apply elem_of_map_to_list.
Qed.

Lemma older_all_flushed_lower st s (w : Z) :
  stream_flush_watermarks st !! s = Some w → all_flushed_watermark st ≤ w.
Proof.
  intros Hs. apply py_min_lower, older_elem_of_flush_values. eauto.
Qed.

Lemma older_all_flushed_attained st s (w : Z) :
  stream_flush_watermarks st !! s = Some w →
  ∃ s', stream_flush_watermarks st !! s' = Some (all_flushed_watermark st).
Proof.
  intros Hs. apply older_elem_of_flush_values, py_min_attained. intros Hnil.
  assert (w ∈ (map_to_list (stream_flush_watermarks st)).*2) as Hw
    by (apply older_elem_of_flush_values; eauto).
  rewrite Hnil in Hw. by apply elem_of_nil in Hw.
Qed.

Lemma older_all_flushed_default st :
  stream_flush_watermarks st = ∅ → all_flushed_watermark st = 0.
Proof.
  intros Hempty. unfold all_flushed_watermark.
  by rewrite Hempty, map_to_list_empty.
Qed.

(** *** The emission pass of the older tracker *)

Lemma older_emit_queue force st :
  state_queue (exec (_emit_safe_queued_states force) st)
  = (pop_safe force (all_flushed_watermark st) (state_queue st) None).2.
Proof.
  unfold _emit_safe_queued_states. unfold_M.
  destruct (pop_safe _ _ _ _) as [[v|] rest]; simpl; [|done].
  destruct (truthy v); [|done].
  destruct (statediff_diff_len _ _) as [n|]; simpl; [|done].
  by destruct (bool_decide _).
Qed.

Lemma older_emit_frame force st :
  target (exec (_emit_safe_queued_states force) st) = target st
  ∧ emit_states (exec (_emit_safe_queued_states force) st) = emit_states st
  ∧ streams (exec (_emit_safe_queued_states force) st) = streams st
  ∧ stream_add_watermarks (exec (_emit_safe_queued_states force) st)
    = stream_add_watermarks st
  ∧ stream_flush_watermarks (exec (_emit_safe_queued_states force) st)
    = stream_flush_watermarks st
  ∧ message_counter (exec (_emit_safe_queued_states force) st)
    = message_counter st.
Proof.
  unfold _emit_safe_queued_states. unfold_M.
  destruct (pop_safe _ _ _ _) as [[v|] rest]; simpl; [|done].
  destruct (truthy v); [|done].
  destruct (statediff_diff_len _ _) as [n|]; simpl; [|done].
  by destruct (bool_decide _).
Qed.

Lemma older_emit_result force st :
  result (_emit_safe_queued_states force) st
  = match (pop_safe force (all_flushed_watermark st) (state_queue st) None).1 with
    | Some v =>
        if truthy v then
          match statediff_diff_len v (or_empty_dict (last_emitted_state st)) with
          | Some _ => Returned tt
          | None => Raised TypeError
          end
        else Returned tt
    | None => Returned tt
    end.
Proof.
  unfold _emit_safe_queued_states. unfold_M.
  destruct (pop_safe _ _ _ _) as [[v|] rest]; simpl; [|done].
  destruct (truthy v); [|done].
  destruct (statediff_diff_len _ _) as [n|]; simpl; [|done].
  by destruct (bool_decide _).
Qed.

Lemma older_emit_pass force st :
  ∃ popped,
    state_queue st
    = popped ++ state_queue (exec (_emit_safe_queued_states force) st)
    ∧ Forall (safe force (all_flushed_watermark st)) popped
    ∧ match state_queue (exec (_emit_safe_queued_states force) st) with
      | [] => True
      | e :: _ => ¬ safe force (all_flushed_watermark st) e
      end.
Proof.
  rewrite older_emit_queue.
  destruct (pop_safe_spec force (all_flushed_watermark st) (state_queue st) None)
    as (popped & Hq & Hsafe & _ & Hhead).
  by exists popped.
Qed.

(** *** What the older methods change *)

Lemma older_flush_item_cases force stream b st :
  (flush_item force stream b st = (Returned tt, st))
  ∨ (∃ tgt,
       write_batch (target st) b = (false, tgt)
       ∧ flush_item force stream b st
         = (Raised WriteBatchError, set_target tgt st))
  ∨ ∃ tgt,
      write_batch (target st) b = (true, tgt)
      ∧ force || buffer_full b = true
      ∧ match stream_add_watermarks st !! stream with
        | Some a =>
            flush_item force stream b st
            = (Returned tt,
               set_stream_flush_watermarks
                 (<[stream := a]> (stream_flush_watermarks st))
                 (set_streams (od_set stream (flush_buffer b) (streams st))
                    (set_target tgt st)))
        | None =>
            flush_item force stream b st
            = (Raised (KeyError stream),
               set_streams (od_set stream (flush_buffer b) (streams st))
                 (set_target tgt st))
        end.
Proof.
  unfold flush_item. destruct (force || buffer_full b) eqn:Hf; [|by left].
  unfold_M. destruct (write_batch (target st) b) as [[] tgt] eqn:Hw; simpl.
  - right. right. exists tgt. split; [done|]. split; [done|].
    by destruct (stream_add_watermarks st !! stream).
  - right. left. by exists tgt.
Qed.

Lemma older_flush_item_forced stream b st :
  result (flush_item true stream b) st = Returned tt →
  ∃ tgt a,
    stream_add_watermarks st !! stream = Some a
    ∧ exec (flush_item true stream b) st
      = set_stream_flush_watermarks
          (<[stream := a]> (stream_flush_watermarks st))
          (set_streams (od_set stream (flush_buffer b) (streams st))
             (set_target tgt st)).
Proof.
  unfold flush_item. simpl. unfold_M.
  destruct (write_batch (target st) b) as [[] tgt]; simpl; [|done].
  destruct (stream_add_watermarks st !! stream) as [a|]; simpl; [|done].
  intros _. by exists tgt, a.
Qed.

Lemma older_target_consistent tgt st :
  consistent st → consistent (set_target tgt st).
Proof. intros []. by constructor. Qed.

Lemma older_flush_item_frame force stream b st :
  emit_states (exec (flush_item force stream b) st) = emit_states st
  ∧ stream_add_watermarks (exec (flush_item force stream b) st)
    = stream_add_watermarks st
  ∧ state_queue (exec (flush_item force stream b) st) = state_queue st
  ∧ message_counter (exec (flush_item force stream b) st) = message_counter st
  ∧ last_emitted_state (exec (flush_item force stream b) st)
    = last_emitted_state st
  ∧ stdout (exec (flush_item force stream b) st) = stdout st
  ∧ (∀ s, s ≠ stream →
       stream_flush_watermarks (exec (flush_item force stream b) st) !! s
       = stream_flush_watermarks st !! s)
  ∧ (stream ∈ (streams st).*1 →
       (streams (exec (flush_item force stream b) st)).*1 = (streams st).*1).
Proof.
  unfold exec.
  destruct (older_flush_item_cases force stream b st)
    as [->|[(tgt & _ & ->)|(tgt & _ & _ & Hcase)]]; simpl; [done|done|].
  destruct (stream_add_watermarks st !! stream) as [a|]; rewrite Hcase; simpl.
  - split_and!; try done.
    + intros s Hs. by rewrite lookup_insert_ne.
    + apply od_keys_set_old.
  - split_and!; try done. apply od_keys_set_old.
Qed.

Lemma older_flush_item_consistent force stream b st :
  stream ∈ (streams st).*1 →
  consistent st → consistent (exec (flush_item force stream b) st).
Proof.
  intros Hin Hc. unfold exec.
  destruct (older_flush_item_cases force stream b st)
    as [->|[(tgt & _ & ->)|(tgt & _ & _ & Hcase)]]; simpl;
    [done|by apply older_target_consistent|].
  destruct Hc as [Hnd Had Hfd Hc Hab Hfb Hqb Hqs].
  destruct (stream_add_watermarks st !! stream) as [a|] eqn:Ha;
    rewrite Hcase; simpl.
  - constructor; simpl; try done.
    + by apply od_set_NoDup.
    + intros s. rewrite od_keys_set_old by done. apply Had.
    + intros s. rewrite od_keys_set_old by done. rewrite dom_insert_L.
      rewrite elem_of_union, elem_of_singleton, Hfd. naive_solver.
    + intros s f. destruct (decide (s = stream)) as [->|Hne].
      * rewrite lookup_insert_eq. intros [= <-]. exists a. split; [done|].
        apply Hab in Ha. lia.
      * rewrite lookup_insert_ne by done. apply Hfb.
  - constructor; simpl; try done.
    + by apply od_set_NoDup.
    + intros s. rewrite od_keys_set_old by done. apply Had.
    + intros s. rewrite od_keys_set_old by done. apply Hfd.
Qed.

Lemma older_flush_items_frame force items st :
  Forall (λ item, item.1 ∈ (streams st).*1) items →
  consistent st →
  consistent (exec (flush_items force items) st)
  ∧ stream_add_watermarks (exec (flush_items force items) st)
    = stream_add_watermarks st
  ∧ state_queue (exec (flush_items force items) st) = state_queue st
  ∧ message_counter (exec (flush_items force items) st) = message_counter st
  ∧ last_emitted_state (exec (flush_items force items) st)
    = last_emitted_state st
  ∧ stdout (exec (flush_items force items) st) = stdout st
  ∧ (streams (exec (flush_items force items) st)).*1 = (streams st).*1
  ∧ (∀ s, s ∉ items.*1 →
       stream_flush_watermarks (exec (flush_items force items) st) !! s
       = stream_flush_watermarks st !! s).
Proof.
  revert st. induction items as [|[stream b] items IH]; intros st Hin Hc; simpl.
  - done.
  - apply Forall_cons in Hin as [Hs Hin]. simpl in Hs.
    pose proof (older_flush_item_frame force stream b st)
      as (_ & Ha & Hq & Hm & Hl & Ho & Hf & Hk).
    specialize (Hk Hs).
    pose proof (older_flush_item_consistent force stream b st Hs Hc) as Hc1.
    destruct (result (flush_item force stream b) st) as [[]|e] eqn:Hres.
    + rewrite (older_exec_seq _ _ _ _ Hres).
      destruct (IH (exec (flush_item force stream b) st))
        as (Hc2 & Ha2 & Hq2 & Hm2 & Hl2 & Ho2 & Hk2 & Hf2); [|done|].
      { by rewrite Hk. }
      rewrite Ha2, Hq2, Hm2, Hl2, Ho2, Hk2. split_and!; try done.
      intros s Hn. apply not_elem_of_cons in Hn as [Hne Hn].
      rewrite (Hf2 s Hn). by apply Hf.
    + rewrite (older_exec_seq_raised _ _ _ _ Hres). split_and!; try done.
      intros s Hn. apply not_elem_of_cons in Hn as [Hne Hn]. by apply Hf.
Qed.

Lemma older_flush_items_returned items st :
  result (flush_items true items) st = Returned tt →
  ∀ s, s ∈ items.*1 →
    stream_flush_watermarks (exec (flush_items true items) st) !! s
    = stream_add_watermarks st !! s.
Proof.
  revert st. induction items as [|[stream b] items IH]; intros st Hres s Hs;
    simpl in *.
  - by apply elem_of_nil in Hs.
  - pose proof (older_flush_item_frame true stream b st)
      as (_ & Ha & _ & _ & _ & _ & Hf & _).
    destruct (result (flush_item true stream b) st) as [[]|e] eqn:Hitem.
    2:{ by rewrite (older_result_seq_raised _ _ _ _ Hitem) in Hres. }
    rewrite (older_result_seq _ _ _ _ Hitem) in Hres.
    rewrite (older_exec_seq _ _ _ _ Hitem).
    destruct (decide (s ∈ items.*1)) as [Hin|Hn].
    + rewrite (IH _ Hres s Hin). by rewrite Ha.
    + apply elem_of_cons in Hs as [->|?]; [|done].
      assert (stream_flush_watermarks (exec (flush_item true stream b) st)
                !! stream = stream_add_watermarks st !! stream) as Hnow.
      { destruct (older_flush_item_forced stream b st Hitem) as (tgt & a & Hadd & ->).
        simpl. by rewrite lookup_insert_eq. }
      clear IH.
      assert (∀ items' st',
        stream ∉ items'.*1 →
        stream_flush_watermarks (exec (flush_items true items') st') !! stream
        = stream_flush_watermarks st' !! stream) as Hother.
      { clear. induction items' as [|[k x] items' IH']; intros st' Hn';
          simpl in *; [done|].
        apply not_elem_of_cons in Hn' as [Hne Hn'].
        pose proof (older_flush_item_frame true k x st')
          as (_ & _ & _ & _ & _ & _ & Hf & _).
        destruct (result (flush_item true k x) st') as [[]|e] eqn:Hr.
        - rewrite (older_exec_seq _ _ _ _ Hr), IH' by done. by apply Hf.
        - rewrite (older_exec_seq_raised _ _ _ _ Hr). by apply Hf. }
      by rewrite Hother.
Qed.

(** *** The older methods keep the tracker consistent *)

Lemma older_init_consistent tgt emit : consistent (init tgt emit).
Proof.
  constructor; simpl; try done.
  - constructor.
  - intros s. rewrite dom_empty_L. set_solver.
  - intros s. rewrite dom_empty_L. set_solver.
  - constructor.
Qed.

Lemma older_register_consistent stream b st :
  consistent st → consistent (exec (register_stream stream b) st).
Proof.
  intros [Hnd Had Hfd Hc Hab Hfb Hqb Hqs].
  unfold register_stream. unfold_M. constructor; simpl; try done.
  - by apply od_set_NoDup.
  - intros s. rewrite od_keys_set, dom_insert_L, elem_of_union,
      elem_of_singleton, Had. done.
  - intros s. rewrite od_keys_set, dom_insert_L, elem_of_union,
      elem_of_singleton, Hfd. done.
  - intros s a. destruct (decide (s = stream)) as [->|Hne].
    + rewrite lookup_insert_eq. intros [= <-]. lia.
    + rewrite lookup_insert_ne by done. apply Hab.
  - intros s f. destruct (decide (s = stream)) as [->|Hne].
    + rewrite !lookup_insert_eq. intros [= <-]. exists 0. split; [done|lia].
    + rewrite !lookup_insert_ne by done. apply Hfb.
Qed.

Lemma older_emit_consistent force st :
  consistent st → consistent (exec (_emit_safe_queued_states force) st).
Proof.
  intros [Hnd Had Hfd Hc Hab Hfb Hqb Hqs].
  pose proof (older_emit_frame force st) as (Ht & He & Hs & Ha & Hf & Hm).
  destruct (older_emit_pass force st) as (popped & Hq & _).
  rewrite Hq in Hqb, Hqs.
  constructor; rewrite ?Hs, ?Ha, ?Hf, ?Hm; try done.
  - by apply Forall_app in Hqb as [_ ?].
  - by apply sorted_suffix in Hqs.
Qed.

Lemma older_append_consistent v st :
  consistent st → consistent (exec (append_state v) st).
Proof.
  intros [Hnd Had Hfd Hc Hab Hfb Hqb Hqs].
  unfold append_state. unfold_M. constructor; simpl; try done.
  - apply Forall_app. split; [done|]. apply Forall_cons.
    split; [simpl; lia|constructor].
  - unfold queue_sorted in *. apply StronglySorted_app_2; [|done|].
    + intros a b' Ha Hb. apply list_elem_of_singleton in Hb as ->. simpl.
      rewrite Forall_forall in Hqb. by apply Hqb.
    + repeat constructor.
Qed.

Lemma older_exec_handle_state v st :
  exec (handle_state_message v) st
  = if emit_states st
    then exec (_emit_safe_queued_states false) (exec (append_state v) st)
    else st.
Proof.
  unfold handle_state_message, append_state. unfold_M.
  by destruct (emit_states st).
Qed.

Lemma older_state_consistent v st :
  consistent st → consistent (exec (handle_state_message v) st).
Proof.
  intros Hc. rewrite older_exec_handle_state. destruct (emit_states st); [|done].
  by apply older_emit_consistent, older_append_consistent.
Qed.

Lemma older_record_consistent stream line_data st :
  consistent st → consistent (exec (handle_record_message stream line_data) st).
Proof.
  intros [Hnd Had Hfd Hc Hab Hfb Hqb Hqs].
  unfold handle_record_message. unfold_M.
  destruct (od_get stream (streams st)) as [b|] eqn:Hb; simpl;
    [|by constructor].
  apply od_get_Some in Hb.
  assert (∀ s, s ∈ dom (<[stream := message_counter st + 1]>
                          (stream_add_watermarks st))
               ↔ s ∈ (streams st).*1) as Had'.
  { intros s. rewrite dom_insert_L, elem_of_union, elem_of_singleton, Had.
    naive_solver. }
  assert (∀ s a,
    <[stream := message_counter st + 1]> (stream_add_watermarks st) !! s = Some a →
    0 ≤ a ≤ message_counter st + 1) as Hab'.
  { intros s a. destruct (decide (s = stream)) as [->|Hne].
    - rewrite lookup_insert_eq. intros [= <-]. lia.
    - rewrite lookup_insert_ne by done. intros Ha. apply Hab in Ha. lia. }
  assert (∀ s f,
    stream_flush_watermarks st !! s = Some f →
    ∃ a, <[stream := message_counter st + 1]> (stream_add_watermarks st) !! s
         = Some a ∧ 0 ≤ f ≤ a) as Hfb'.
  { intros s f Hf. destruct (Hfb s f Hf) as (a & Ha & Hle).
    destruct (decide (s = stream)) as [->|Hne].
    - rewrite lookup_insert_eq. eexists. split; [done|].
      apply Hab in Ha. lia.
    - rewrite lookup_insert_ne by done. eauto. }
  assert (Forall (λ e, watermark e ≤ message_counter st + 1) (state_queue st))
    as Hqb'.
  { eapply Forall_impl; [exact Hqb|]. simpl. intros. lia. }
  destruct (add_record_message b line_data) as [b'|]; simpl;
    constructor; simpl; try done; try lia.
  - by apply od_set_NoDup.
  - intros s. rewrite od_keys_set_old by done. apply Had'.
  - intros s. rewrite od_keys_set_old by done. apply Hfd.
Qed.

Lemma older_exec_flush_streams force st :
  exec (flush_streams force) st
  = exec (flush_items force (streams st) ;; _emit_safe_queued_states force) st.
Proof. done. Qed.

Lemma older_streams_registered st :
  Forall (λ item, item.1 ∈ (streams st).*1) (streams st).
Proof.
  apply Forall_forall. intros item Hin. apply list_elem_of_fmap. eauto.
Qed.

Lemma older_flush_streams_consistent force st :
  consistent st → consistent (exec (flush_streams force) st).
Proof.
  intros Hc. rewrite older_exec_flush_streams.
  destruct (older_flush_items_frame force (streams st) st (older_streams_registered st) Hc)
    as (Hc1 & _).
  destruct (result (flush_items force (streams st)) st) as [[]|e] eqn:Hres.
  - rewrite (older_exec_seq _ _ _ _ Hres). by apply older_emit_consistent.
  - by rewrite (older_exec_seq_raised _ _ _ _ Hres).
Qed.

Lemma older_perform_consistent c st :
  consistent st → consistent (exec (perform c) st).
Proof.
  destruct c; simpl.
  - apply older_register_consistent.
  - apply older_flush_streams_consistent.
  - apply older_state_consistent.
  - apply older_record_consistent.
  - apply older_emit_consistent.
  - intros Hc.
    by destruct (older_flush_items_frame force (streams st) st
                   (older_streams_registered st) Hc) as (? & _).
  - apply older_append_consistent.
Qed.

Lemma older_reachable_consistent tgt emit calls :
  consistent (run calls (init tgt emit)).
Proof.
  pose proof (older_init_consistent tgt emit) as Hc. revert Hc.
  generalize (init tgt emit).
  induction calls as [|c calls IH]; intros st Hc; simpl; [done|].
  by apply IH, older_perform_consistent.
Qed.

(** X14. In every run of the older tracker, every registered stream has an
    add watermark and a flush watermark, and they satisfy
    0 <= flush <= add <= message counter. *)
Theorem older_watermarks_ordered tgt emit calls s :
  let st := run calls (init tgt emit) in
  s ∈ (streams st).*1 →
  ∃ a f,
    stream_add_watermarks st !! s = Some a
    ∧ stream_flush_watermarks st !! s = Some f
    ∧ 0 ≤ f ≤ a ∧ a ≤ message_counter st.
Proof.
  simpl. intros Hs.
  pose proof (older_reachable_consistent tgt emit calls) as Hc.
  apply (flush_dom _ Hc), elem_of_dom in Hs as [f Hf].
  destruct (flush_bounds _ Hc s f Hf) as (a & Ha & Hle).
  exists a, f. split_and!; try done; try lia.
  apply (add_bounds _ Hc) in Ha. lia.
Qed.

(** X15. In the older tracker a registered stream that has received no
    record since it was registered (its add watermark is 0) holds back
    every queued state that arrived after a record: [flush_streams]
    without [force] leaves such a state in the queue, whatever it flushes
    and whether or not a write raises. *)
Theorem older_dormant_stream_blocks tgt emit calls s e :
  let st := run calls (init tgt emit) in
  stream_add_watermarks st !! s = Some 0 →
  e ∈ state_queue st →
  0 < watermark e →
  e ∈ state_queue (exec (flush_streams false) st).
Proof.
  simpl. intros Ha He Hpos.
  pose proof (older_reachable_consistent tgt emit calls) as Hc.
  set (st := run calls (init tgt emit)) in *.
  rewrite older_exec_flush_streams.
  destruct (older_flush_items_frame false (streams st) st (older_streams_registered st) Hc)
    as (Hc1 & Ha1 & Hq1 & _ & _ & _ & Hk1 & _).
  set (st1 := exec (flush_items false (streams st)) st) in *.
  destruct (result (flush_items false (streams st)) st) as [[]|err] eqn:Hres.
  2:{ rewrite (older_exec_seq_raised _ _ _ _ Hres). fold st1. by rewrite Hq1. }
  rewrite (older_exec_seq _ _ _ _ Hres). fold st1.
  assert (is_Some (stream_flush_watermarks st1 !! s)) as [f Hf].
  { apply elem_of_dom, (flush_dom _ Hc1). rewrite Hk1.
    apply (add_dom _ Hc), elem_of_dom. eauto. }
  destruct (flush_bounds _ Hc1 s f Hf) as (a & Ha' & Hle).
  rewrite Ha1, Ha in Ha'. injection Ha' as <-.
  pose proof (older_all_flushed_lower st1 s f Hf) as Hthr.
  destruct (older_emit_pass false st1) as (popped & Hq & Hsafe & _).
  rewrite <- Hq1, Hq in He. apply elem_of_app in He as [He|He]; [|done].
  rewrite Forall_forall in Hsafe. destruct (Hsafe e He) as [?|Hw]; [done|lia].
Qed.

Lemma older_flush_items_keys force items st s :
  s ∈ (streams st).*1 → s ∈ (streams (exec (flush_items force items) st)).*1.
Proof.
  revert st. induction items as [|[k x] items IH]; intros st Hs; simpl;
    [done|].
  assert (s ∈ (streams (exec (flush_item force k x) st)).*1) as Hs1.
  { unfold exec.
    destruct (older_flush_item_cases force k x st)
      as [->|[(tgt & _ & ->)|(tgt & _ & _ & Hcase)]]; simpl; [done|done|].
    destruct (stream_add_watermarks st !! k); rewrite Hcase; simpl;
      apply od_keys_set; by right. }
  destruct (result (flush_item force k x) st) as [[]|err] eqn:Hr.
  - rewrite (older_exec_seq _ _ _ _ Hr). by apply IH.
  - by rewrite (older_exec_seq_raised _ _ _ _ Hr).
Qed.

Lemma older_perform_keys c st s :
  s ∈ (streams st).*1 → s ∈ (streams (exec (perform c) st)).*1.
Proof.
  intros Hs.
  destruct c as [stream b|force|v|stream line_data|force|force|v]; simpl.
  - unfold register_stream. unfold_M. apply od_keys_set. by right.
  - rewrite older_exec_flush_streams.
    pose proof (older_flush_items_keys force (streams st) st s Hs) as Hs1.
    destruct (result (flush_items force (streams st)) st) as [[]|err] eqn:Hres.
    + rewrite (older_exec_seq _ _ _ _ Hres).
      pose proof (older_emit_frame force (exec (flush_items force (streams st)) st))
        as (_ & _ & -> & _). done.
    + by rewrite (older_exec_seq_raised _ _ _ _ Hres).
  - rewrite older_exec_handle_state. destruct (emit_states st); [|done].
    pose proof (older_emit_frame false (exec (append_state v) st))
      as (_ & _ & -> & _). done.
  - unfold handle_record_message. unfold_M.
    destruct (od_get stream (streams st)) as [b|]; simpl; [|done].
    destruct (add_record_message b line_data); simpl; [|done].
    apply od_keys_set. by right.
  - pose proof (older_emit_frame force st) as (_ & _ & -> & _). done.
  - by apply older_flush_items_keys.
  - done.
Qed.

Lemma older_run_keys calls st s :
  s ∈ (streams st).*1 → s ∈ (streams (run calls st)).*1.
Proof.
  revert st. induction calls as [|c calls IH]; intros st Hs; simpl; [done|].
  by apply IH, older_perform_keys.
Qed.

Lemma older_records_registered calls st s (n : Z) :
  (s, n) ∈ records calls st → s ∈ (streams (run calls st)).*1.
Proof.
  revert st. induction calls as [|c calls IH]; intros st; simpl.
  - by intros ?%elem_of_nil.
  - intros [Hin|Hin]%elem_of_app; [|by apply IH].
    apply older_run_keys, older_perform_keys.
    destruct c; simpl in Hin; try by apply elem_of_nil in Hin.
    destruct (od_get stream (streams st)) as [b|] eqn:Hb;
      [|by apply elem_of_nil in Hin].
    apply list_elem_of_singleton in Hin as [= -> ->].
    by apply od_get_Some in Hb.
Qed.

(** X16. The older tracker does not emit early either: an entry that a
    pass without [force] pops at the end of a run has a watermark that the
    flush watermark of the stream of every accepted record with a smaller
    or equal counter value has reached. *)
Theorem older_no_premature_emission tgt emit calls popped e s (n : Z) :
  let st := run calls (init tgt emit) in
  state_queue st
  = popped ++ state_queue (exec (_emit_safe_queued_states false) st) →
  e ∈ popped →
  (s, n) ∈ records calls (init tgt emit) →
  n ≤ watermark e →
  ∃ f, stream_flush_watermarks st !! s = Some f ∧ n ≤ f.
Proof.
  simpl. intros Hq He Hrec Hle.
  pose proof (older_reachable_consistent tgt emit calls) as Hc.
  apply older_records_registered in Hrec.
  apply (flush_dom _ Hc), elem_of_dom in Hrec as [f Hf].
  exists f. split; [done|].
  pose proof (older_all_flushed_lower _ s f Hf) as Hthr.
  destruct (older_emit_pass false (run calls (init tgt emit)))
    as (popped' & Hq' & Hsafe & _).
  rewrite Hq in Hq' at 1. apply app_inv_tail in Hq' as <-.
  rewrite Forall_forall in Hsafe. destruct (Hsafe e He) as [?|Hw]; [done|lia].
Qed.

(** X17. When [flush_streams] of the older tracker is called with [force]
    and nothing raises, the queue is empty and the flush watermark of every
    registered stream equals its add watermark. *)
Theorem older_forced_flush tgt emit calls s :
  let st := run calls (init tgt emit) in
  let st' := exec (flush_streams true) st in
  result (flush_streams true) st = Returned tt →
  s ∈ (streams st).*1 →
  state_queue st' = []
  ∧ is_Some (stream_add_watermarks st !! s)
  ∧ stream_flush_watermarks st' !! s = stream_add_watermarks st !! s.
Proof.
  simpl. intros Hres Hs.
  pose proof (older_reachable_consistent tgt emit calls) as Hc.
  set (st := run calls (init tgt emit)) in *.
  rewrite older_exec_flush_streams.
  change (result (flush_streams true) st)
    with (result (flush_items true (streams st) ;;
                  _emit_safe_queued_states true) st) in Hres.
  destruct (result (flush_items true (streams st)) st) as [[]|err] eqn:Hloop.
  2:{ by rewrite (older_result_seq_raised _ _ _ _ Hloop) in Hres. }
  rewrite (older_exec_seq _ _ _ _ Hloop).
  set (st1 := exec (flush_items true (streams st)) st).
  pose proof (older_emit_frame true st1) as (_ & _ & _ & _ & Hf & _).
  split; [|split].
  - destruct (older_emit_pass true st1) as (_ & _ & _ & Hhead).
    destruct (state_queue (exec (_emit_safe_queued_states true) st1))
      as [|e rest]; [done|].
    exfalso. apply Hhead. by left.
  - apply elem_of_dom, (add_dom _ Hc). done.
  - rewrite Hf. by apply older_flush_items_returned.
Qed.

Lemma older_flush_items_app force (xs ys : list (string * buffered_stream)) st :
  result (flush_items force xs) st = Returned tt →
  flush_items force (xs ++ ys) st
  = flush_items force ys (exec (flush_items force xs) st).
Proof.
  revert st. induction xs as [|[k x] xs IH]; intros st; simpl; [done|].
  unfold_M. destruct (flush_item force k x st) as [[[]|e] st1]; simpl; [|done].
  apply IH.
Qed.

(** X19. [flush_streams] of the older tracker visits the streams in the
    order they were registered and stops at the first write that raises:
    the error reaches the caller, the tracker is left as the items before
    it left it, but for the target, which is as that one failed attempt
    left it; the stream of the failing write and the streams registered
    after it keep their flush watermarks, and the queue, the output and
    [last_emitted_state] are untouched. *)
Theorem older_flush_stops_at_failure tgt emit calls force done_ stream b rest
    tgt' :
  let st := run calls (init tgt emit) in
  let st1 := exec (flush_items force done_) st in
  let st' := exec (flush_streams force) st in
  streams st = done_ ++ (stream, b) :: rest →
  result (flush_items force done_) st = Returned tt →
  force || buffer_full b = true →
  write_batch (target st1) b = (false, tgt') →
  result (flush_streams force) st = Raised WriteBatchError
  ∧ st' = set_target tgt' st1
  ∧ (∀ s, s = stream ∨ s ∈ rest.*1 →
       stream_flush_watermarks st' !! s = stream_flush_watermarks st !! s)
  ∧ state_queue st' = state_queue st
  ∧ stdout st' = stdout st
  ∧ last_emitted_state st' = last_emitted_state st.
Proof.
  simpl. intros Hitems Hdone Hfull Hw.
  pose proof (older_reachable_consistent tgt emit calls) as Hc.
  set (st := run calls (init tgt emit)) in *.
  set (st1 := exec (flush_items force done_) st) in *.
  assert (flush_streams force st
          = (Raised WriteBatchError, set_target tgt' st1)) as Heq.
  { unfold flush_streams.
    change ((flush_items force (streams st) ;;
             _emit_safe_queued_states force) st
            = (Raised WriteBatchError, set_target tgt' st1)).
    rewrite Hitems. unfold mbind, M_bind, bind.
    rewrite (older_flush_items_app _ _ _ _ Hdone). fold st1. simpl.
    unfold mbind, M_bind, bind, flush_item. rewrite Hfull.
    unfold_M. by rewrite Hw. }
  assert (Forall (λ item, item.1 ∈ (streams st).*1) done_) as Hreg.
  { apply Forall_forall. intros item Hin. apply list_elem_of_fmap.
    exists item. split; [done|]. rewrite Hitems. apply elem_of_app. by left. }
  destruct (older_flush_items_frame force done_ st Hreg Hc)
    as (_ & _ & Hq & _ & Hl & Ho & _ & Hf).
  fold st1 in Hq, Hl, Ho, Hf.
  assert (exec (flush_streams force) st = set_target tgt' st1) as ->
    by (unfold exec; by rewrite Heq).
  split; [unfold result; by rewrite Heq|]. split; [done|]. simpl.
  split; [|done]. intros s Hs. apply Hf.
  pose proof (keys_unique st Hc) as Hnd.
  rewrite Hitems, fmap_app in Hnd. apply NoDup_app in Hnd as (_ & Hdisj & _).
  intros Hin. apply (Hdisj _ Hin). simpl.
  destruct Hs as [->|Hs]; [apply list_elem_of_here|].
  by apply list_elem_of_further.
Qed.

End Facts.
End StateTrackerFacts.

(** ** The two trackers compared *)

Section Compared.
Context `{Collaborators}.

Lemma reachable_add_dom tgt emit max_lag calls :
  dom (stream_add_watermarks (run calls (init tgt emit max_lag)))
  = streams_added_to (run calls (init tgt emit max_lag)).
Proof.
  apply set_eq. intros s.
  rewrite elem_of_dom, add_watermark_from, added_from, elem_of_records_of.
  simpl. rewrite lookup_empty.
  destruct (last (records_of s (records calls (init tgt emit max_lag))))
    as [n|]; split.
  - intros _. right. by eexists.
  - by eexists.
  - by intros [? ?].
  - intros [?%elem_of_empty|[? ?]]; done.
Qed.

(** X18. On the same flush watermarks, the threshold of the older tracker
    (the least flush watermark of all registered streams) is never above
    the threshold of the newer one, and the two are equal when every
    registered stream has received a record. *)
Theorem older_threshold_below_newer tgt emit max_lag calls
    (old : StateTracker.StreamTracker) :
  let st := run calls (init tgt emit max_lag) in
  StateTracker.stream_flush_watermarks old = stream_flush_watermarks st →
  StateTracker.all_flushed_watermark old ≤ _safe_flush_threshold st
  ∧ (dom (streams st) ⊆ streams_added_to st →
     StateTracker.all_flushed_watermark old = _safe_flush_threshold st).
Proof.
  simpl. intros Hsame.
  pose proof (reachable_consistent tgt emit max_lag calls) as Hc.
  pose proof (reachable_add_dom tgt emit max_lag calls) as Hdom.
  destruct (reachable_nonneg tgt emit max_lag calls) as [Hnn _].
  set (st := run calls (init tgt emit max_lag)) in *.
  assert (∀ s f, stream_flush_watermarks st !! s = Some f →
                 s ∉ streams_added_to st → f = 0) as Hdormant.
  { intros s f Hf Hn. pose proof (flush_le_add st Hc s f Hf) as Hle.
    unfold add_watermark in Hle. rewrite <- Hdom in Hn.
    apply not_elem_of_dom in Hn. rewrite Hn in Hle. simpl in Hle.
    apply Hnn in Hf. lia. }
  assert (StateTracker.all_flushed_watermark old ≤ _safe_flush_threshold st)
    as Hle.
  { destruct (decide (∃ s, s ∈ streams_added_to st
                          ∧ is_Some (stream_flush_watermarks st !! s)))
      as [(s & Hadd & [f Hf])|Hnone].
    - destruct (threshold_attained st s f Hadd Hf) as (s' & _ & Hs').
      apply (StateTrackerFacts.older_all_flushed_lower old s'). by rewrite Hsame.
    - rewrite (threshold_default st).
      2:{ intros s Hadd.
          destruct (stream_flush_watermarks st !! s) eqn:Hf; [|done].
          exfalso. apply Hnone. exists s. split; [done|]. by rewrite Hf. }
      destruct (decide (stream_flush_watermarks st = ∅)) as [Hempty|Hne].
      + rewrite StateTrackerFacts.older_all_flushed_default; [done|].
        by rewrite Hsame.
      + apply map_choose in Hne as (s & f & Hf).
        destruct (StateTrackerFacts.older_all_flushed_attained old s f)
          as [s' Hs']; [by rewrite Hsame|].
        rewrite Hsame in Hs'. rewrite (Hdormant s' _ Hs'); [done|].
        intros Hadd. apply Hnone. exists s'. split; [done|]. eauto. }
  split; [done|]. intros Hall.
  apply Z.le_antisymm; [done|].
  destruct (decide (stream_flush_watermarks st = ∅)) as [Hempty|Hne].
  - rewrite StateTrackerFacts.older_all_flushed_default by (by rewrite Hsame).
    rewrite threshold_default; [done|]. intros s _.
    by rewrite Hempty, lookup_empty.
  - apply map_choose in Hne as (s & f & Hf).
    destruct (StateTrackerFacts.older_all_flushed_attained old s f)
      as [s' Hs']; [by rewrite Hsame|].
    rewrite Hsame in Hs'. apply (threshold_lower st s'); [|done].
    apply Hall. rewrite <- (flush_dom st Hc). by apply elem_of_dom_2 in Hs'.
Qed.

End Compared.

(** ** The further properties on concrete runs *)

Import Scenarios.

(** X1 on a run: the third record accepted has counter value 3. *)
Lemma counter_counts_records_witness :
  let log := records three_streams_run (tracker0 1000000) in
  log !! 2%nat = Some ("cats", 3)
  ∧ message_counter (run three_streams_run (tracker0 1000000))
    = Z.of_nat (length log)
  ∧ 3 = Z.of_nat 2 + 1.
Proof.
  destruct (counter_counts_records no_batches true 1000000 three_streams_run)
    as [H1 H2].
  split; [reflexivity|]. split; [exact H1|]. exact (H2 2%nat "cats" 3 eq_refl).
Defined.

(** X2 on a run: [cats] has the add watermark of its last record, 3, and
    [birds], registered and never fed, has none. *)
Lemma add_watermark_is_last_record_witness :
  let st := run three_streams_run (tracker0 1000000) in
  let log := records three_streams_run (tracker0 1000000) in
  last (records_of "cats" log) = Some 3
  ∧ stream_add_watermarks st !! "cats" = last (records_of "cats" log)
  ∧ last (records_of "birds" log) = None
  ∧ stream_add_watermarks st !! "birds" = last (records_of "birds" log)
  ∧ dom (stream_add_watermarks st) = streams_added_to st.
Proof.
  destruct (add_watermark_is_last_record no_batches true 1000000
              three_streams_run "cats") as (Hc & _ & Hd).
  destruct (add_watermark_is_last_record no_batches true 1000000
              three_streams_run "birds") as (Hb & _ & _).
  split; [reflexivity|]. split; [exact Hc|]. split; [reflexivity|].
  split; [exact Hb|exact Hd].
Defined.

(** X4 on a run, for the stream [dogs]. *)
Lemma threshold_bounds_witness :
  let st := run three_streams_run (tracker0 1000000) in
  "dogs" ∈ active st
  ∧ 0 ≤ _safe_flush_threshold st ≤ message_counter st
  ∧ _safe_flush_threshold st ≤ add_watermark st "dogs".
Proof.
  intros st. assert ("dogs" ∈ active st) as H1 by by_compute.
  destruct (threshold_bounds no_batches true 1000000 three_streams_run)
    as (Hb & _ & Hs).
  split; [exact H1|]. split; [exact Hb|exact (Hs "dogs" H1)].
Defined.

(** X5 on a run: the state that arrived after the record of [dogs] stays
    queued when both streams are flushed, [cats] having stopped at 1. *)
Lemma entry_above_add_watermark_stays_witness :
  let st := run stalled_run (tracker0 1000000) in
  let st' := run (WriteBatchAndUpdateWatermarks <$> ["cats"; "dogs"]) st in
  "cats" ∈ active st
  ∧ Entry state_1 2 ∈ state_queue st
  ∧ add_watermark st "cats" < watermark (Entry state_1 2)
  ∧ Entry state_1 2 ∈ state_queue (exec (_emit_safe_queued_states false) st').
Proof.
  intros st st'. pose (e := Entry state_1 2).
  assert ("cats" ∈ active st) as H1 by by_compute.
  assert (e ∈ state_queue st) as H2 by (vm_compute; constructor).
  assert (add_watermark st "cats" < watermark e) as H3 by by_compute.
  split; [exact H1|]. split; [exact H2|]. split; [exact H3|].
  exact (entry_above_add_watermark_stays no_batches true 1000000 stalled_run
           ["cats"; "dogs"] "cats" e H1 H2 H3).
Defined.

(** X6 on a run of the public methods. *)
Lemma states_off_is_silent_witness :
  let st := run silent_run (init no_batches false 1000000) in
  Forall (λ c, public c = true) silent_run
  ∧ state_queue st = [] ∧ stdout st = [] ∧ last_emitted_state st = None.
Proof.
  assert (Forall (λ c, public c = true) silent_run) as H1
    by (repeat constructor).
  split; [exact H1|].
  exact (states_off_is_silent no_batches 1000000 silent_run H1).
Defined.

(** X9 on two runs: the forced flush empties the queue and leaves the
    queued state as [last_emitted_state]; and a forced flush whose diff
    raises leaves the state emitted before. *)
Lemma forced_flush_emits_latest_witness :
  (let st := lagging_with_state in
   let st' := exec (flush_streams_if_required true []) st in
   result (flush_streams_if_required true []) st = Returned tt
   ∧ last (state_queue st) = Some (Entry state_1 3)
   ∧ truthy (state (Entry state_1 3)) = true
   ∧ state_queue st' = []
   ∧ ∃ diff_len,
       statediff_diff_len state_1 (or_empty_dict (last_emitted_state st))
       = Some diff_len
       ∧ last_emitted_state st' = Some state_1
       ∧ stdout st'
         = stdout st
             ++ (if bool_decide (0 < diff_len)%nat
                 then [json_dumps state_1] else []))
  ∧ (let st := unsortable_pending in
     let st' := exec (flush_streams_if_required true []) st in
     last (state_queue st) = Some (Entry state_dict 1)
     ∧ truthy (state (Entry state_dict 1)) = true
     ∧ statediff_diff_len state_dict (or_empty_dict (last_emitted_state st))
       = None
     ∧ result (flush_streams_if_required true []) st = Raised TypeError
     ∧ state_queue st' = []
     ∧ last_emitted_state st' = Some state_list
     ∧ stdout st' = stdout st).
Proof.
  split.
  - intros st st'. pose (e := Entry state_1 3).
    assert (result (flush_streams_if_required true []) st = Returned tt) as H1
      by reflexivity.
    assert (last (state_queue st) = Some e) as H2 by reflexivity.
    assert (truthy (state e) = true) as H3 by reflexivity.
    destruct (forced_flush_emits_latest st []) as [Hreturned _].
    destruct (Hreturned H1) as (Hq & _ & Hl).
    split; [exact H1|]. split; [exact H2|]. split; [exact H3|].
    split; [exact Hq|exact (Hl e H2 H3)].
  - intros st st'. pose (e := Entry state_dict 1).
    assert (result (for_each (iter_set [] (streams_to_flush true st))
                      _write_batch_and_update_watermarks) st = Returned tt)
      as H1 by (vm_compute; reflexivity).
    assert (last (state_queue st) = Some e) as H2 by reflexivity.
    assert (truthy (state e) = true) as H3 by reflexivity.
    assert (statediff_diff_len (state e) (or_empty_dict (last_emitted_state st))
            = None) as H4 by reflexivity.
    destruct (forced_flush_emits_latest st []) as [_ Hraised].
    destruct (Hraised e H1 H2 H3 H4) as (Hr & Hq & Hl & Ho).
    split; [exact H2|]. split; [exact H3|]. split; [exact H4|].
    split; [exact Hr|]. split; [exact Hq|]. split; [exact Hl|exact Ho].
Defined.

(** X10 on two runs: with [cats] flushed up to the counter, a state is
    chosen and written as it arrives; and a state whose diff against the
    state emitted before raises is taken off the queue and lost. *)
Lemma state_emitted_at_once_witness :
  (let st := run flushed_run (tracker0 1000000) in
   let st' := exec (handle_state_message (state_message state_1)) st in
   emit_states st = true
   ∧ getitem (state_message state_1) "value" = Found state_1
   ∧ message_counter st ≤ _safe_flush_threshold st
   ∧ state_queue st' = []
   ∧ result (handle_state_message (state_message state_1)) st = Returned tt
   ∧ last_emitted_state st' = Some state_1
   ∧ stdout st' = stdout st ++ [json_dumps state_1])
  ∧ (let st := run list_emitted_run (tracker0 1000000) in
     let st' := exec (handle_state_message (state_message state_dict)) st in
     emit_states st = true
     ∧ getitem (state_message state_dict) "value" = Found state_dict
     ∧ message_counter st ≤ _safe_flush_threshold st
     ∧ state_queue st' = []
     ∧ result (handle_state_message (state_message state_dict)) st
       = Raised TypeError
     ∧ last_emitted_state st' = Some state_list
     ∧ stdout st' = stdout st).
Proof.
  split.
  - intros st st'.
    assert (emit_states st = true) as H1 by reflexivity.
    assert (getitem (state_message state_1) "value" = Found state_1) as H2
      by reflexivity.
    assert (message_counter st ≤ _safe_flush_threshold st) as H3 by by_compute.
    destruct (state_emitted_at_once no_batches true 1000000 flushed_run
                (state_message state_1) state_1 H1 H2 H3) as (Hq & Hl).
    split; [exact H1|]. split; [exact H2|]. split; [exact H3|].
    split; [exact Hq|exact Hl].
  - intros st st'.
    assert (emit_states st = true) as H1 by reflexivity.
    assert (getitem (state_message state_dict) "value" = Found state_dict) as H2
      by reflexivity.
    assert (message_counter st ≤ _safe_flush_threshold st) as H3 by by_compute.
    destruct (state_emitted_at_once no_batches true 1000000 list_emitted_run
                (state_message state_dict) state_dict H1 H2 H3) as (Hq & Hl).
    split; [exact H1|]. split; [exact H2|]. split; [exact H3|].
    split; [exact Hq|exact Hl].
Defined.

(** X13 on a run: the full buffer of [dogs] is flushed, [cats] is left
    alone. *)
Lemma unforced_flush_takes_full_buffers_witness :
  let st := one_full in
  let st' := exec (flush_streams_if_required false []) st in
  state_queue st = []
  ∧ streams st !! "cats" = Some (Buffer [record_message "cats" 1] 20 false)
  ∧ streams st' !! "cats" = Some (Buffer [record_message "cats" 1] 20 false)
  ∧ stream_flush_watermarks st' !! "cats" = stream_flush_watermarks st !! "cats"
  ∧ streams st !! "dogs" = Some (Buffer [record_message "dogs" 2] 1 false)
  ∧ stream_flush_watermarks st' !! "dogs" = Some (add_watermark st "dogs").
Proof.
  intros st st'.
  pose (c := Buffer [record_message "cats" 1] 20 false).
  pose (d := Buffer [record_message "dogs" 2] 1 false).
  assert (state_queue st = []) as H1 by reflexivity.
  assert (streams st !! "cats" = Some c) as H2 by reflexivity.
  assert (streams st !! "dogs" = Some d) as H3 by reflexivity.
  destruct (unforced_flush_takes_full_buffers st [] "cats" c (or_introl H1) H2)
    as [Hc _].
  destruct (unforced_flush_takes_full_buffers st [] "dogs" d (or_introl H1) H3)
    as (_ & Hd & _).
  destruct (Hc eq_refl) as [Hc1 Hc2].
  destruct (Hd eq_refl eq_refl) as [_ Hd2].
  split; [exact H1|]. split; [exact H2|]. split; [exact Hc1|].
  split; [exact Hc2|]. split; [exact H3|exact Hd2].
Defined.

(** X14 on a run of the older tracker, for the stream [cats]. *)
Lemma older_watermarks_ordered_witness :
  let st := StateTracker.run older_flushed_run older0 in
  "cats" ∈ (StateTracker.streams st).*1
  ∧ ∃ a f,
      StateTracker.stream_add_watermarks st !! "cats" = Some a
      ∧ StateTracker.stream_flush_watermarks st !! "cats" = Some f
      ∧ 0 ≤ f ≤ a ∧ a ≤ StateTracker.message_counter st.
Proof.
  intros st.
  assert ("cats" ∈ (StateTracker.streams st).*1) as H1
    by (vm_compute; repeat constructor).
  split; [exact H1|].
  exact (StateTrackerFacts.older_watermarks_ordered no_batches true
           older_flushed_run "cats" H1).
Defined.

(** X15 on a run of the older tracker: [dogs] has no record, and the
    state that arrived after the record of [cats] stays queued. *)
Lemma older_dormant_stream_blocks_witness :
  let st := StateTracker.run older_blocked_run older0 in
  StateTracker.stream_add_watermarks st !! "dogs" = Some 0
  ∧ Entry state_1 1 ∈ StateTracker.state_queue st
  ∧ 0 < watermark (Entry state_1 1)
  ∧ Entry state_1 1
    ∈ StateTracker.state_queue
        (StateTracker.exec (StateTracker.flush_streams false) st).
Proof.
  intros st. pose (e := Entry state_1 1).
  assert (StateTracker.stream_add_watermarks st !! "dogs" = Some 0) as H1
    by reflexivity.
  assert (e ∈ StateTracker.state_queue st) as H2 by (vm_compute; constructor).
  assert (0 < watermark e) as H3 by (simpl; lia).
  split; [exact H1|]. split; [exact H2|]. split; [exact H3|].
  exact (StateTrackerFacts.older_dormant_stream_blocks no_batches true
           older_blocked_run "dogs" e H1 H2 H3).
Defined.

(** X16 on a run of the older tracker: the state queued after two records
    is popped once the loop of the flush has run. *)
Lemma older_no_premature_emission_witness :
  let st := StateTracker.run older_covered_run older0 in
  StateTracker.state_queue st
  = [Entry state_1 2]
      ++ StateTracker.state_queue
           (StateTracker.exec (StateTracker._emit_safe_queued_states false) st)
  ∧ ("cats", 2) ∈ StateTracker.records older_covered_run older0
  ∧ ∃ f, StateTracker.stream_flush_watermarks st !! "cats" = Some f ∧ 2 ≤ f.
Proof.
  intros st. pose (e := Entry state_1 2).
  assert (StateTracker.state_queue st
          = [e] ++ StateTracker.state_queue
                     (StateTracker.exec
                        (StateTracker._emit_safe_queued_states false) st))
    as H1 by reflexivity.
  assert (e ∈ [e]) as H2 by constructor.
  assert (("cats", 2) ∈ StateTracker.records older_covered_run older0) as H3
    by (vm_compute; repeat constructor).
  assert (2 ≤ watermark e) as H4 by (simpl; lia).
  split; [exact H1|]. split; [exact H3|].
  exact (StateTrackerFacts.older_no_premature_emission no_batches true
           older_covered_run [e] e "cats" 2 H1 H2 H3 H4).
Defined.

(** X17 on a run of the older tracker, for the stream [dogs]. *)
Lemma older_forced_flush_witness :
  let st := StateTracker.run older_pending_run older0 in
  let st' := StateTracker.exec (StateTracker.flush_streams true) st in
  StateTracker.result (StateTracker.flush_streams true) st = Returned tt
  ∧ "dogs" ∈ (StateTracker.streams st).*1
  ∧ StateTracker.state_queue st = [Entry state_1 2]
  ∧ StateTracker.state_queue st' = []
  ∧ StateTracker.stream_add_watermarks st !! "dogs" = Some 2
  ∧ StateTracker.stream_flush_watermarks st' !! "dogs"
    = StateTracker.stream_add_watermarks st !! "dogs".
Proof.
  intros st st'.
  assert (StateTracker.result (StateTracker.flush_streams true) st
          = Returned tt) as H1 by reflexivity.
  assert ("dogs" ∈ (StateTracker.streams st).*1) as H2
    by (vm_compute; repeat constructor).
  destruct (StateTrackerFacts.older_forced_flush no_batches true
              older_pending_run "dogs" H1 H2) as (Hq & _ & Hf).
  split; [exact H1|]. split; [exact H2|]. split; [reflexivity|].
  split; [exact Hq|]. split; [reflexivity|exact Hf].
Defined.

(** X18 on two runs with the flush watermarks 3, 2 and 0: the older
    threshold is 0, the newer one 2. *)
Lemma older_threshold_below_newer_witness :
  let old := StateTracker.run older_flushed_run older0 in
  let st := run three_streams_run (tracker0 1000000) in
  StateTracker.stream_flush_watermarks old = stream_flush_watermarks st
  ∧ StateTracker.all_flushed_watermark old = 0
  ∧ _safe_flush_threshold st = 2
  ∧ StateTracker.all_flushed_watermark old ≤ _safe_flush_threshold st.
Proof.
  intros old st.
  assert (StateTracker.stream_flush_watermarks old = stream_flush_watermarks st)
    as H1 by (vm_compute; reflexivity).
  split; [exact H1|]. split; [reflexivity|]. split; [reflexivity|].
  exact (proj1 (older_threshold_below_newer no_batches true 1000000
                  three_streams_run old H1)).
Defined.

(** X19 on a run of the older tracker: [cats] is flushed, the batch of
    [dogs] is refused after one attempt, [birds] is not reached. *)
Lemma older_flush_stops_at_failure_witness :
  let st := StateTracker.run older_refusing_run older0 in
  let st' := StateTracker.exec (StateTracker.flush_streams true) st in
  StateTracker.result (StateTracker.flush_streams true) st
  = Raised WriteBatchError
  ∧ StateTracker.target st' = [(1%nat, true); (1%nat, false)]
  ∧ StateTracker.stream_flush_watermarks st' !! "cats" = Some 1
  ∧ StateTracker.stream_flush_watermarks st' !! "birds"
    = StateTracker.stream_flush_watermarks st !! "birds"
  ∧ StateTracker.state_queue st' = StateTracker.state_queue st
  ∧ StateTracker.stdout st' = StateTracker.stdout st.
Proof.
  intros st st'.
  pose (c := Buffer [record_message "cats" 1] 20 false).
  pose (d := Buffer [record_message "dogs" 2] 20 true).
  pose (b := Buffer [record_message "birds" 3] 20 false).
  assert (StateTracker.streams st = [("cats", c)] ++ ("dogs", d) :: [("birds", b)])
    as H1 by reflexivity.
  assert (StateTracker.result (StateTracker.flush_items true [("cats", c)]) st
          = Returned tt) as H2 by reflexivity.
  assert (true || buffer_full d = true) as H3 by reflexivity.
  assert (write_batch
            (StateTracker.target
               (StateTracker.exec
                  (StateTracker.flush_items true [("cats", c)]) st)) d
          = (false, [(1%nat, true); (1%nat, false)]))
    as H4 by reflexivity.
  destruct (StateTrackerFacts.older_flush_stops_at_failure no_batches true
              older_refusing_run true [("cats", c)] "dogs" d [("birds", b)] _
              H1 H2 H3 H4) as (Hr & Hst & Hf & Hq & Ho & _).
  split; [exact Hr|]. split; [exact (f_equal StateTracker.target Hst)|].
  split; [reflexivity|].
  split; [|split; [exact Hq|exact Ho]].
  apply Hf. right. vm_compute. constructor.
Defined.
